(** * Verification of the Prisjakt scraping pipeline (lib/prisjakt-scraper.ts)

    The development embeds the scraper of the repository in Rocq and proves
    properties of its extraction stages, its normalisers and its two entry
    points [scrapePrisjaktSearch] and [scrapePrisjaktProduct].

    Modelling decisions, all local to this file:
    - a JavaScript string is a [string]: a sequence of code units, each below
      256 (the Latin-1 range), on which [toLowerCase], [trim] and the
      case-insensitive comparison of regular expressions are transcribed
      exactly;
    - a JavaScript number is a [number]: NaN, an infinity, or the rational a
      finite double denotes.  [Number(string)] gives the double nearest to
      the decimal, the even one of two that are equally near, Infinity on
      overflow and 0 on underflow;
    - values read out of parsed JSON are dynamic ([value]);
    - exceptions are explicit ([outcome]);
    - what the platform provides and the repository does not define ([fetch],
      [JSON.parse], [encodeURIComponent], [Number.prototype.toString]) is the
      interface [Host]. *)

From Stdlib Require Import Bool List Arith ZArith QArith Lia Ascii String.
Import ListNotations.
#[local] Set Warnings "-register-all".
Local Close Scope Q_scope.
Local Open Scope nat_scope.
Local Open Scope string_scope.
Local Open Scope list_scope.

(** ** Strings *)

Module Js.

Definition code (c : ascii) : nat := nat_of_ascii c.

Definition between (lo hi : nat) (c : ascii) : bool :=
  (lo <=? code c)%nat && (code c <=? hi)%nat.

(** [0-9] and [\d] *)
Definition isDigit (c : ascii) : bool := between 48 57 c.

(** [\s], and the characters removed by [trim]: TAB, LF, VT, FF, CR, SP, NBSP *)
Definition isSpace (c : ascii) : bool :=
  between 9 13 c || (code c =? 32)%nat || (code c =? 160)%nat.

(** One code unit of [String.prototype.toLowerCase]: A-Z, and the Latin-1
    capitals 0xC0-0xDE except the multiplication sign 0xD7. *)
Definition lowerChar (c : ascii) : ascii :=
  if between 65 90 c || (between 192 222 c && negb (code c =? 215)%nat)
  then ascii_of_nat (code c + 32)
  else c.

Fixpoint toLowerCase (s : string) : string :=
  match s with
  | EmptyString => EmptyString
  | String c t => String (lowerChar c) (toLowerCase t)
  end.

(** [s.startsWith(p)] *)
Definition startsWith (p s : string) : bool := prefix p s.

(** [s.includes(needle)] *)
Fixpoint includes (needle s : string) : bool :=
  prefix needle s ||
  match s with
  | EmptyString => false
  | String _ t => includes needle t
  end.

Fixpoint trimStart (s : string) : string :=
  match s with
  | String c t => if isSpace c then trimStart t else s
  | EmptyString => EmptyString
  end.

Fixpoint trimEnd (s : string) : string :=
  match s with
  | EmptyString => EmptyString
  | String c t =>
      match trimEnd t with
      | EmptyString => if isSpace c then EmptyString else String c EmptyString
      | t' => String c t'
      end
  end.

(** [s.trim()] *)
Definition trim (s : string) : string := trimEnd (trimStart s).

(** [s.replace(',', '.')] and the like: a string pattern replaces its first
    occurrence only. *)
Fixpoint replaceFirst (pat by_ s : string) : string :=
  if prefix pat s then by_ ++ substring (length pat) (length s - length pat) s
  else match s with
       | EmptyString => EmptyString
       | String c t => String c (replaceFirst pat by_ t)
       end.

(** The part of [s] consumed when [rest] is what remains of it. *)
Definition consumed (s rest : string) : string :=
  substring 0 (length s - length rest) s.

(** The double quote, as a one-character string. *)
Definition dq : string := String (ascii_of_nat 34) EmptyString.

(** *** Regular expressions

    The fragment of ECMAScript regular expressions the scraper uses, with
    the backtracking (leftmost, priority-ordered) semantics of the language:
    character classes, greedy and lazy repetition of a class, sequence,
    alternation, the optional group and capture groups.  The [i] flag is
    part of the class predicates ([chi], [liti]). *)

Inductive regex : Type :=
| Eps : regex
| Cls (p : ascii -> bool)
| Rep (greedy : bool) (p : ascii -> bool) (lo : nat) (hi : option nat)
| Seq (r1 r2 : regex)
| Alt (r1 r2 : regex)
| Opt (r : regex)
| Grp (n : nat) (r : regex).

Definition captures : Type := list (nat * string).

Section Matcher.
Context {R : Type}.

Definition orElse (a : option R) (b : unit -> option R) : option R :=
  match a with
  | Some x => Some x
  | None => b tt
  end.

Definition canRepeat (hi : option nat) : bool :=
  match hi with
  | Some 0 => false
  | _ => true
  end.

(** greedy [p{lo,hi}]: one more character first, the continuation next *)
Fixpoint repGreedy (p : ascii -> bool) (lo : nat) (hi : option nat)
    (s : string) (k : string -> option R) {struct s} : option R :=
  let stop := fun _ : unit => match lo with 0 => k s | S _ => None end in
  match s with
  | String c t =>
      if canRepeat hi && p c
      then orElse (repGreedy p (pred lo) (option_map pred hi) t k) stop
      else stop tt
  | EmptyString => stop tt
  end.

(** lazy [p{lo,hi}?]: the continuation first, one more character next *)
Fixpoint repLazy (p : ascii -> bool) (lo : nat) (hi : option nat)
    (s : string) (k : string -> option R) {struct s} : option R :=
  let more := fun _ : unit =>
    match s with
    | String c t =>
        if canRepeat hi && p c
        then repLazy p (pred lo) (option_map pred hi) t k
        else None
    | EmptyString => None
    end in
  match lo with
  | 0 => orElse (k s) more
  | S _ => more tt
  end.

Fixpoint run (r : regex) (s : string) (cs : captures)
    (k : string -> captures -> option R) {struct r} : option R :=
  match r with
  | Eps => k s cs
  | Cls p =>
      match s with
      | String c t => if p c then k t cs else None
      | EmptyString => None
      end
  | Rep g p lo hi =>
      (if g then repGreedy else repLazy) p lo hi s (fun s' => k s' cs)
  | Seq r1 r2 => run r1 s cs (fun s' cs' => run r2 s' cs' k)
  | Alt r1 r2 => orElse (run r1 s cs k) (fun _ => run r2 s cs k)
  | Opt r1 => orElse (run r1 s cs k) (fun _ => k s cs)
  | Grp n r1 => run r1 s cs (fun s' cs' => k s' ((n, consumed s s') :: cs'))
  end.
End Matcher.

(** A successful match: the matched text ([m[0]]), the capture groups and
    what follows the match. *)
Record matched : Type := mkMatched {
  whole : string;
  groups : captures;
  after : string
}.

(** The match that starts at the first character of [s], if any. *)
Definition matchHere (r : regex) (s : string) : option matched :=
  run r s [] (fun s' cs => Some (mkMatched (consumed s s') cs s')).

(** [re.exec(s)] of a regular expression without the [g] flag: the leftmost
    match. *)
Fixpoint search (r : regex) (s : string) : option matched :=
  match matchHere r s with
  | Some m => Some m
  | None =>
      match s with
      | EmptyString => None
      | String _ t => search r t
      end
  end.

(** [re.test(s)] *)
Definition test (r : regex) (s : string) : bool :=
  match search r s with
  | Some _ => true
  | None => false
  end.

(** [m[n]], with [undefined] read as the empty string (every use in the
    scraper is followed by [|| ''] or is a group that always takes part). *)
Fixpoint lookupGroup (n : nat) (cs : captures) : string :=
  match cs with
  | [] => EmptyString
  | (i, v) :: rest => if (i =? n)%nat then v else lookupGroup n rest
  end.

Definition group (n : nat) (m : matched) : string := lookupGroup n (groups m).

(** [(s.match(re)?.[n] || '')] *)
Definition matchGroup (r : regex) (n : nat) (s : string) : string :=
  match search r s with
  | Some m => group n m
  | None => EmptyString
  end.

(** The successive results of [while ((m = re.exec(s)) !== null)] for a
    regular expression with the [g] flag: after a match the scan resumes
    where the match ended.  [skip] counts the characters of the current
    match still to be passed over.  The loops of the scraper use
    expressions that never match the empty string ([loops_progress]
    below), so every turn moves on in the document. *)
Fixpoint execAll (r : regex) (skip : nat) (s : string) : list matched :=
  match skip with
  | S n =>
      match s with
      | EmptyString => []
      | String _ t => execAll r n t
      end
  | 0 =>
      match matchHere r s with
      | Some m =>
          m :: match s with
               | EmptyString => []
               | String _ t => execAll r (pred (length (whole m))) t
               end
      | None =>
          match s with
          | EmptyString => []
          | String _ t => execAll r 0 t
          end
      end
  end.

(** [s.replace(re, by)] for a regular expression with the [g] flag. *)
Fixpoint replaceAllFrom (r : regex) (by_ : string) (skip : nat) (s : string)
    : string :=
  match skip with
  | S n =>
      match s with
      | EmptyString => EmptyString
      | String _ t => replaceAllFrom r by_ n t
      end
  | 0 =>
      match matchHere r s with
      | Some m =>
          by_ ++
          match s with
          | EmptyString => EmptyString
          | String c t =>
              match length (whole m) with
              | 0 => String c (replaceAllFrom r by_ 0 t)
              | S n => replaceAllFrom r by_ n t
              end
          end
      | None =>
          match s with
          | EmptyString => EmptyString
          | String c t => String c (replaceAllFrom r by_ 0 t)
          end
      end
  end.

Definition replaceAll (r : regex) (by_ s : string) : string :=
  replaceAllFrom r by_ 0 s.

(** *** Building blocks of the expressions *)

Definition ch (c : ascii) : ascii -> bool := fun x => Ascii.eqb x c.
(** a letter under the [i] flag *)
Definition chi (c : ascii) : ascii -> bool :=
  fun x => Ascii.eqb (lowerChar x) (lowerChar c).
Definition notCh (c : ascii) : ascii -> bool := fun x => negb (Ascii.eqb x c).
Definition anyChar : ascii -> bool := fun _ => true.

Fixpoint oneOf (cs : string) : ascii -> bool :=
  fun x =>
    match cs with
    | EmptyString => false
    | String c t => Ascii.eqb x c || oneOf t x
    end.

Fixpoint oneOfi (cs : string) : ascii -> bool :=
  fun x =>
    match cs with
    | EmptyString => false
    | String c t => chi c x || oneOfi t x
    end.

(** a literal, case-sensitive *)
Fixpoint lit (s : string) : regex :=
  match s with
  | EmptyString => Eps
  | String c t => Seq (Cls (ch c)) (lit t)
  end.

(** a literal under the [i] flag *)
Fixpoint liti (s : string) : regex :=
  match s with
  | EmptyString => Eps
  | String c t => Seq (Cls (chi c)) (liti t)
  end.

Fixpoint seqs (rs : list regex) : regex :=
  match rs with
  | [] => Eps
  | r :: rest => Seq r (seqs rest)
  end.

Fixpoint alts (r : regex) (rs : list regex) : regex :=
  match rs with
  | [] => r
  | r' :: rest => Alt r (alts r' rest)
  end.

Definition star (p : ascii -> bool) : regex := Rep true p 0 None.
Definition plus (p : ascii -> bool) : regex := Rep true p 1 None.
Definition lazyStar (p : ascii -> bool) : regex := Rep false p 0 None.

End Js.

Import Js.

(** ** Numbers *)

Inductive number : Type :=
| NaN : number
| Inf (negative : bool)
| Fin (q : Q).

(** [Number.isFinite(n)] *)
Definition isFinite (n : number) : bool :=
  match n with
  | Fin _ => true
  | _ => false
  end.

Definition Qltb (a b : Q) : bool := negb (Qle_bool b a).

(** [a < b] *)
Definition lessThan (a b : number) : bool :=
  match a, b with
  | NaN, _ | _, NaN => false
  | Inf true, Inf true => false
  | Inf true, _ => true
  | _, Inf true => false
  | Inf false, _ => false
  | Fin _, Inf false => true
  | Fin x, Fin y => Qltb x y
  end.

(** [a <= b] *)
Definition lessEq (a b : number) : bool :=
  match a, b with
  | NaN, _ | _, NaN => false
  | Inf true, _ => true
  | _, Inf true => false
  | _, Inf false => true
  | Inf false, Fin _ => false
  | Fin x, Fin y => Qle_bool x y
  end.

Definition zero : number := Fin 0%Q.

(** [n > 0] *)
Definition isPositive (n : number) : bool := lessThan zero n.

(** The value of a run of decimal digits, [None] when another character
    occurs in it. *)
Fixpoint digitsFrom (acc : N) (s : string) : option N :=
  match s with
  | EmptyString => Some acc
  | String c t =>
      if isDigit c
      then digitsFrom (acc * 10 + N.of_nat (code c - 48))%N t
      else None
  end.

Definition digits (s : string) : option N := digitsFrom 0%N s.

(** The text before the first full stop and, when there is one, the text
    after it. *)
Fixpoint splitDot (s : string) : string * option string :=
  match s with
  | EmptyString => (EmptyString, None)
  | String c t =>
      if Ascii.eqb c "."%char then (EmptyString, Some t)
      else let '(a, b) := splitDot t in (String c a, b)
  end.

(** The exponent [e] with [2^e <= n/d < 2^(e+1)], for [n] and [d] positive. *)
Definition floorLog2 (n d : Z) : Z :=
  let e0 := (Z.log2 n - Z.log2 d)%Z in
  if (if (0 <=? e0)%Z then (2 ^ e0 * d <=? n)%Z else (d <=? n * 2 ^ (- e0))%Z)
  then e0 else (e0 - 1)%Z.

(** The integer nearest to [num/den], the even one of two that are equally
    near. *)
Definition roundHalfEven (num den : Z) : Z :=
  let f := (num / den)%Z in
  match (2 * (num mod den) ?= den)%Z with
  | Lt => f
  | Gt => (f + 1)%Z
  | Eq => if Z.even f then f else (f + 1)%Z
  end.

(** The Number value for a decimal that is not negative: the double
    nearest to it, the one with an even significand of two that are equally
    near, and Infinity from 2^1024 on. Doubles are multiples of
    [2^(e - 52)], where [e] is the exponent of the decimal and at least
    -1022. (For a numeral of more than 20 significant digits the language
    lets an implementation round a nearby decimal instead; the engines in
    use round the numeral itself.) *)
Definition nearestDouble (q : Q) : number :=
  let n := Qnum q in
  let d := Zpos (Qden q) in
  if (n <=? 0)%Z then zero
  else
    let ex := (Z.max (floorLog2 n d) (-1022) - 52)%Z in
    let m := if (ex <? 0)%Z then roundHalfEven (n * 2 ^ (- ex)) d
             else roundHalfEven n (d * 2 ^ ex) in
    let r := if (ex <? 0)%Z then Qmake m (Z.to_pos (2 ^ (- ex)))
             else inject_Z (m * 2 ^ ex) in
    if Qle_bool (inject_Z (2 ^ 1024)) r then Inf false else Fin (Qred r).

(** [Number(s)] on the strings the scraper applies it to: every call site
    first removes all characters other than digits, full stop and comma.
    On these the grammar of numeric strings leaves the empty string (0) and
    the unsigned decimals [d+], [d+.], [d+.d+] and [.d+]; everything else is
    NaN. *)
Definition Number (s : string) : number :=
  match s with
  | EmptyString => zero
  | _ =>
      match splitDot s with
      | (ip, None) =>
          match digits ip with
          | Some a => nearestDouble (inject_Z (Z.of_N a))
          | None => NaN
          end
      | (ip, Some fp) =>
          match digits ip, digits fp with
          | Some a, Some b =>
              if ((length ip =? 0) && (length fp =? 0))%nat then NaN
              else
                let scale := (10 ^ Z.of_nat (length fp))%Z in
                nearestDouble (Qmake (Z.of_N a * scale + Z.of_N b)
                                 (Z.to_pos scale))
          | _, _ => NaN
          end
      end
  end.

(** ** Dynamic values and exceptions *)

(** What [JSON.parse] returns, and [undefined]. The fields of an object are
    listed in the order of [Object.keys]. *)
Inductive value : Type :=
| VUndef : value
| VNull : value
| VBool (b : bool)
| VNum (n : number)
| VStr (s : string)
| VArr (items : list value)
| VObj (fields : list (string * value)).

(** The result of evaluating code that may throw. *)
Inductive outcome (A : Type) : Type :=
| Ok (a : A)
| Throw.
Arguments Ok {A} a.
Arguments Throw {A}.

Definition bind {A B : Type} (c : outcome A) (k : A -> outcome B) : outcome B :=
  match c with
  | Ok a => k a
  | Throw => Throw
  end.

Notation "x <- c ;; k" := (bind c (fun x => k))
  (at level 61, c at next level, right associativity).

(** [try { body } catch { return handler }] *)
Definition tryCatch {A : Type} (body : outcome A) (handler : A) : outcome A :=
  match body with
  | Ok a => Ok a
  | Throw => Ok handler
  end.

(** The response of [fetch]: the promise rejects, or resolves to a response
    with its [ok] flag and its body, whose reading ([res.text()]) may fail. *)
Inductive FetchResult : Type :=
| NetworkError : FetchResult
| Response (ok : bool) (text : option string).

(** The platform the scraper runs on. [None] stands for a thrown
    SyntaxError ([JSON_parse]) or URIError ([encodeURIComponent]). *)
Class Host : Type := {
  fetch : string -> FetchResult;
  JSON_parse : string -> option value;
  encodeURIComponent : string -> option string;
  numberToString : number -> string
}.

Fixpoint lookupField (k : string) (fields : list (string * value)) : option value :=
  match fields with
  | [] => None
  | (k', v) :: rest => if String.eqb k' k then Some v else lookupField k rest
  end.

(** [v.k] for [v] neither [null] nor [undefined] and [k] none of the
    properties of a prototype: an own property of an object, [undefined]
    otherwise. *)
Definition get (v : value) (k : string) : value :=
  match v with
  | VObj fields =>
      match lookupField k fields with
      | Some x => x
      | None => VUndef
      end
  | _ => VUndef
  end.

Definition numberTruthy (n : number) : bool :=
  match n with
  | NaN => false
  | Inf _ => true
  | Fin q => negb (Qeq_bool q 0)
  end.

Definition nonEmptyString (s : string) : bool :=
  match s with
  | EmptyString => false
  | String _ _ => true
  end.

(** [!!v] *)
Definition truthy (v : value) : bool :=
  match v with
  | VUndef | VNull => false
  | VBool b => b
  | VNum n => numberTruthy n
  | VStr s => nonEmptyString s
  | VArr _ | VObj _ => true
  end.

(** [a || b] *)
Definition orValue (a b : value) : value := if truthy a then a else b.

Definition hasField (k : string) (fields : list (string * value)) : bool :=
  match lookupField k fields with
  | Some _ => true
  | None => false
  end.

Section Coercion.
Context {H : Host}.

(** [String(v)], the coercion of a template literal, of [+] with a string
    and of [RegExp.prototype.test]. An object parsed from JSON has no
    callable [toString] of its own: when it has a [toString] property at
    all the coercion throws a TypeError, otherwise it is the text
    [[object Object]]. An array is its elements joined by commas, [null]
    and [undefined] elements contributing nothing. *)
Fixpoint toStr (v : value) : outcome string :=
  match v with
  | VUndef => Ok "undefined"
  | VNull => Ok "null"
  | VBool true => Ok "true"
  | VBool false => Ok "false"
  | VNum n => Ok (numberToString n)
  | VStr s => Ok s
  | VArr items =>
      (fix join (l : list value) : outcome string :=
         match l with
         | [] => Ok EmptyString
         | x :: rest =>
             e <- match x with
                  | VUndef | VNull => Ok EmptyString
                  | _ => toStr x
                  end ;;
             match rest with
             | [] => Ok e
             | _ => r <- join rest ;; Ok (e ++ "," ++ r)%string
             end
         end) items
  | VObj fields =>
      if hasField "toString" fields then Throw else Ok "[object Object]"
  end.
End Coercion.

(** ** The data model (types/ram.ts) *)

Inductive AvailabilityStatus : Type :=
| in_stock
| incoming
| not_available.

(** [PrisjaktProduct]. The interface declares its text fields as strings;
    the structured-data extractor stores in them whatever the parsed JSON
    holds, so they are dynamic values here. *)
Record PrisjaktProduct : Type := mkProduct {
  id : string;
  name : value;
  price : number;
  currency : value;
  store : value;
  storeUrl : value;
  availability : AvailabilityStatus;
  imageUrl : value
}.

(** ** The regular expressions of the scraper

    Each is given with its source text, in which Q stands for the escaped
    double quote and a blank separates a star from a closing parenthesis. *)

Module Re.

Definition notQuote : ascii -> bool := fun c => negb (String.eqb (String c "") dq).
Definition notGt : ascii -> bool := notCh ">".
Definition notLt : ascii -> bool := notCh "<".
Definition aRing : string := String (ascii_of_nat 229) "".
Definition oUmlaut : string := String (ascii_of_nat 246) "".

(** [[0-9\s&nbsp;]] under the [i] flag *)
Definition priceChar : ascii -> bool :=
  fun c => isDigit c || isSpace c || oneOfi "&nbsp;" c.

(** [(kr|sek)] as group [n] *)
Definition unit_ (n : nat) : regex := Grp n (Alt (liti "kr") (liti "sek")).

(** [/(prisjakt)/i] *)
Definition prisjaktRe : regex := Grp 1 (liti "prisjakt").

(** [/href=Q(\/produkt\.php\?p=\d+)Q/i] *)
Definition productLinkRe : regex :=
  seqs [liti ("href=" ++ dq);
        Grp 1 (Seq (liti "/produkt.php?p=") (plus isDigit));
        liti dq].

(** [/[^0-9]/g] *)
Definition nonDigitRe : regex := Cls (fun c => negb (isDigit c)).

(** [/[^0-9.,]/g] *)
Definition nonNumericRe : regex :=
  Cls (fun c => negb (isDigit c || oneOf ".," c)).

(** [/<hN[^>]*>([\s\S]*?)<\/hN>/i] *)
Definition headingRe (n : string) : regex :=
  seqs [liti ("<h" ++ n); star notGt; liti ">";
        Grp 1 (lazyStar anyChar);
        liti ("</h" ++ n ++ ">")].
Definition h1Re : regex := headingRe "1".
Definition h2Re : regex := headingRe "2".
Definition h3Re : regex := headingRe "3".

(** [/([0-9][0-9\s]{1,7}(?:[\.,][0-9]{2})?)\s*(kr|sek)/i] *)
Definition priceRe : regex :=
  seqs [Grp 1 (seqs [Cls isDigit;
                     Rep true (fun c => isDigit c || isSpace c) 1 (Some 7);
                     Opt (Seq (Cls (oneOf ".,")) (Rep true isDigit 2 (Some 2)))]);
        star isSpace;
        unit_ 2].

(** [/<script[^>]*type=[Q']application\/ld\+json[Q'][^>]*>([\s\S]*?)<\/script>/gi] *)
Definition scriptRegex : regex :=
  seqs [liti "<script"; star notGt; liti "type=";
        Cls (oneOf (dq ++ "'")); liti "application/ld+json"; Cls (oneOf (dq ++ "'"));
        star notGt; liti ">";
        Grp 1 (lazyStar anyChar);
        liti "</script>"].

(** [/<a[^>]+href=Q([^Q]+)Q[^>]*>([\s\S]*?)<\/a>/gi] *)
Definition productBlockRegex : regex :=
  seqs [liti "<a"; plus notGt; liti ("href=" ++ dq);
        Grp 1 (plus notQuote); liti dq; star notGt; liti ">";
        Grp 2 (lazyStar anyChar);
        liti "</a>"].

(** [/<a[^>]*class=Q[^Q]*productName[^Q]*Q[^>]*href=Q(\/produkt\.php\?p=\d+)Q[^>]*>([\s\S]*?)<\/a>/i] *)
Definition primaryLinkRe : regex :=
  seqs [liti "<a"; star notGt; liti ("class=" ++ dq);
        star notQuote; liti "productName"; star notQuote; liti dq;
        star notGt; liti ("href=" ++ dq);
        Grp 1 (Seq (liti "/produkt.php?p=") (plus isDigit));
        liti dq; star notGt; liti ">";
        Grp 2 (lazyStar anyChar);
        liti "</a>"].

(** [/<p[^>]*class=Q[^Q]*text-m[^Q]*font-heaviest[^Q]*Q[^>]*>([0-9\s&nbsp;]+)\s*(kr|sek)<\/p>/i] *)
Definition primaryPriceRe : regex :=
  seqs [liti "<p"; star notGt; liti ("class=" ++ dq);
        star notQuote; liti "text-m"; star notQuote; liti "font-heaviest";
        star notQuote; liti dq; star notGt; liti ">";
        Grp 1 (plus priceChar); star isSpace; unit_ 2;
        liti "</p>"].

(** [/hos<span[^>]*class=Q[^Q]*font-heaviest[^Q]*Q[^>]*>\s*(?:<!--[^>]*-->\s* )?([^<]+)<\/span>/i] *)
Definition primaryStoreRe : regex :=
  seqs [liti "hos<span"; star notGt; liti ("class=" ++ dq);
        star notQuote; liti "font-heaviest"; star notQuote; liti dq;
        star notGt; liti ">"; star isSpace;
        Opt (seqs [liti "<!--"; star notGt; liti "-->"; star isSpace]);
        Grp 1 (plus notLt);
        liti "</span>"].

(** [/(prisjakt|butik|annons|kr)/i] *)
Definition primaryNoiseRe : regex :=
  Grp 1 (alts (liti "prisjakt") [liti "butik"; liti "annons"; liti "kr"]).

(** [/<a[^>]*href=Q(https:\/\/www\.prisjakt\.nu\/go-to-shop\/[^Q]+)Q[^>]*>([\s\S]*?)<\/a>/gi] *)
Definition offerRegex : regex :=
  seqs [liti "<a"; star notGt; liti ("href=" ++ dq);
        Grp 1 (Seq (liti "https://www.prisjakt.nu/go-to-shop/") (plus notQuote));
        liti dq; star notGt; liti ">";
        Grp 2 (lazyStar anyChar);
        liti "</a>"].

(** [/<span[^>]*class=Q[^Q]*StoreInfoTitle[^Q]*Q[^>]*>([^<]+)<\/span>/i] *)
Definition storeTitleRe : regex :=
  seqs [liti "<span"; star notGt; liti ("class=" ++ dq);
        star notQuote; liti "StoreInfoTitle"; star notQuote; liti dq;
        star notGt; liti ">";
        Grp 1 (plus notLt);
        liti "</span>"].

(** [/<picture[^>]*alt=Q([^Q]+)Q/i] *)
Definition pictureAltRe : regex :=
  seqs [liti "<picture"; star notGt; liti ("alt=" ++ dq);
        Grp 1 (plus notQuote); liti dq].

(** [/(prisjakt|g(a-ring) till butik|butik|rank|omd(o-umlaut)me|produkt|kr|annons|visa\s+\d+)/i] *)
Definition offerNoiseRe : regex :=
  Grp 1 (alts (liti "prisjakt")
           [liti ("g" ++ aRing ++ " till butik"); liti "butik"; liti "rank";
            liti ("omd" ++ oUmlaut ++ "me"); liti "produkt"; liti "kr";
            liti "annons";
            seqs [liti "visa"; plus isSpace; plus isDigit]]).

(** [/data-test=QPriceLabelQ[^>]*>([0-9\s&nbsp;]+)\s*(kr|sek)<\//i] *)
Definition priceLabelRe : regex :=
  seqs [liti ("data-test=" ++ dq ++ "PriceLabel" ++ dq); star notGt; liti ">";
        Grp 1 (plus priceChar); star isSpace; unit_ 2;
        liti "</"].

(** [/iconstockinstock/i], [/iconstockincoming/i], [/iconstockoutofstock/i] *)
Definition inStockRe : regex := liti "iconstockinstock".
Definition incomingRe : regex := liti "iconstockincoming".
Definition outOfStockRe : regex := liti "iconstockoutofstock".

(** [/Ingen butik har produkten i lager/i] *)
Definition noStockRe : regex := liti "Ingen butik har produkten i lager".

(** [/<[^>]*>/g] *)
Definition tagRe : regex := seqs [lit "<"; star notGt; lit ">"].

(** [/\s+/g] *)
Definition spacesRe : regex := plus isSpace.

(** [/&nbsp;/g] *)
Definition nbspRe : regex := lit "&nbsp;".

End Re.
Import Re.

(** [(s.match(re)?.[0] || '')] *)
Definition matchWhole (r : regex) (s : string) : string :=
  match search r s with
  | Some m => whole m
  | None => EmptyString
  end.

(** ** Helpers of the scraper *)

Definition stripTags (s : string) : string :=
  trim (replaceAll spacesRe " " (replaceAll tagRe "" s)).

Definition decodeHtml (s : string) : string :=
  replaceAll (lit "&#39;") "'"
    (replaceAll (lit "&quot;") dq
       (replaceAll (lit "&gt;") ">"
          (replaceAll (lit "&lt;") "<"
             (replaceAll (lit "&amp;") "&" s)))).

(** [Number(raw.replace(/[^0-9.,]/g, '').replace(',', '.'))] *)
Definition parsePrice (raw : string) : number :=
  Number (replaceFirst "," "." (replaceAll nonNumericRe "" raw)).

(** [toAvailability(avail: string | undefined)] *)
Definition toAvailability (avail : option string) : AvailabilityStatus :=
  match avail with
  | None => not_available
  | Some a =>
      if negb (nonEmptyString a) then not_available
      else
        let s := toLowerCase a in
        if includes "instock" s || includes "in_stock" s
           || includes "in stock" s || includes "available" s
        then in_stock
        else if includes "preorder" s || includes "pre-order" s
                || includes "backorder" s
        then incoming
        else not_available
  end.

(** The call [toAvailability(offer.availability)] on a value read out of
    parsed JSON: a falsy value takes the first return, a string the rest of
    the function, and any other truthy value has no [toLowerCase] method,
    so the call of it throws a TypeError. *)
Definition toAvailabilityOf (v : value) : outcome AvailabilityStatus :=
  if negb (truthy v) then Ok not_available
  else match v with
       | VStr s => Ok (toAvailability (Some s))
       | _ => Throw
       end.

(** ** The scraper *)

Definition hostUrl : string := "https://www.prisjakt.nu".

Section Scraper.
Context {H : Host}.

(** [filterPrisjaktStore]: [products.filter(p => !/(prisjakt)/i.test(p.store))] *)
Fixpoint filterPrisjaktStore (products : list PrisjaktProduct)
    : outcome (list PrisjaktProduct) :=
  match products with
  | [] => Ok []
  | p :: rest =>
      s <- toStr (store p) ;;
      kept <- filterPrisjaktStore rest ;;
      Ok (if test prisjaktRe s then kept else p :: kept)
  end.

(** The identity key of [dedupeProducts], the template literal
    [name|store|storeUrl]. *)
Definition dedupeKey (p : PrisjaktProduct) : outcome string :=
  n <- toStr (name p) ;;
  s <- toStr (store p) ;;
  u <- toStr (storeUrl p) ;;
  Ok (n ++ "|" ++ s ++ "|" ++ u)%string.

Definition setHas (key : string) (seen : list string) : bool :=
  existsb (String.eqb key) seen.

(** The loop of [dedupeProducts], with the set [seen] and the array [out]
    as its state. *)
Fixpoint dedupeLoop (list_ : list PrisjaktProduct) (seen : list string)
    (out : list PrisjaktProduct) : outcome (list PrisjaktProduct) :=
  match list_ with
  | [] => Ok out
  | p :: rest =>
      key <- dedupeKey p ;;
      if negb (setHas key seen)
      then dedupeLoop rest (key :: seen) (out ++ [p])
      else dedupeLoop rest seen out
  end.

Definition dedupeProducts (list_ : list PrisjaktProduct)
    : outcome (list PrisjaktProduct) :=
  dedupeLoop list_ [] [].

(** *** The naive pattern extractor *)

(** The title of an anchor block: its [h3], else its [h2]. *)
Definition blockName (block : string) : string :=
  let fromH3 := stripTags (trim (matchGroup h3Re 1 block)) in
  if nonEmptyString fromH3 then fromH3
  else stripTags (trim (matchGroup h2Re 1 block)).

(** The first price followed by its currency unit in a text: [priceRaw],
    then [priceRaw ? Number(...) : NaN]. *)
Definition loosePrice (text : string) : number :=
  let priceRaw := trim (matchWhole priceRe text) in
  if nonEmptyString priceRaw then parsePrice priceRaw else NaN.

(** The body of the loop of [extractProductsNaively] on one match of the
    anchor expression: [None] is [continue]. *)
Definition naiveOffer (m : matched) : option PrisjaktProduct :=
  let href := decodeHtml (group 1 m) in
  let block := group 2 m in
  let name_ := blockName block in
  if negb (nonEmptyString name_) then None
  else
    let price_ := loosePrice block in
    if negb (isFinite price_) || lessEq price_ zero then None
    else Some {|
      id := if nonEmptyString href then href else name_;
      name := VStr name_;
      price := price_;
      currency := VStr "SEK";
      store := VStr "Prisjakt";
      storeUrl := VStr (if startsWith "http" href then href
                        else (hostUrl ++ href)%string);
      availability := in_stock;
      imageUrl := VUndef |}.

Fixpoint collectSome {A B : Type} (f : A -> option B) (l : list A) : list B :=
  match l with
  | [] => []
  | x :: rest =>
      match f x with
      | Some y => y :: collectSome f rest
      | None => collectSome f rest
      end
  end.

(** The array [results] of [extractProductsNaively] when its loop ends. *)
Definition naiveResults (html : string) : list PrisjaktProduct :=
  collectSome naiveOffer (execAll productBlockRegex 0 html).

Definition extractProductsNaively (html : string)
    : outcome (list PrisjaktProduct) :=
  deduped <- dedupeProducts (naiveResults html) ;;
  Ok (firstn 10 deduped).

(** *** The primary-card extractor *)

Definition extractPrimarySearchItems (html : string) : list PrisjaktProduct :=
  match search primaryLinkRe html with
  | None => []
  | Some productLinkMatch =>
      let productLink := group 1 productLinkMatch in
      let titleBlock := group 2 productLinkMatch in
      let title := trim (replaceAll spacesRe " " (stripTags titleBlock)) in
      match search primaryPriceRe html with
      | None => []
      | Some priceMatch =>
          let price_ := parsePrice (replaceAll nbspRe "" (group 1 priceMatch)) in
          match search primaryStoreRe html with
          | None => []
          | Some storeMatch =>
              let store_ :=
                trim (replaceAll spacesRe " " (stripTags (group 1 storeMatch))) in
              if test primaryNoiseRe store_ then []
              else if isFinite price_ && isPositive price_
                      && nonEmptyString store_ && nonEmptyString title
              then [ {| id := productLink;
                        name := VStr title;
                        price := price_;
                        currency := VStr "SEK";
                        store := VStr store_;
                        storeUrl := VStr (hostUrl ++ productLink)%string;
                        availability := in_stock;
                        imageUrl := VUndef |} ]
              else []
          end
      end
  end.

(** *** The product-page offer extractor *)

(** The availability an offer row gets from its stock icons. *)
Definition iconAvailability (offerHtml : string) : AvailabilityStatus :=
  let isInStock := test inStockRe offerHtml in
  let isIncoming := test incomingRe offerHtml in
  let isOutOfStock := test outOfStockRe offerHtml in
  if isInStock then in_stock
  else if isIncoming then incoming
  else not_available.

(** The store label of an offer row: the title element, else the alt text
    of the picture, stripped and with its white space collapsed. *)
Definition offerStore (offerHtml : string) : string :=
  let fromTitle := trim (matchGroup storeTitleRe 1 offerHtml) in
  let store_ :=
    if nonEmptyString fromTitle then fromTitle
    else trim (matchGroup pictureAltRe 1 offerHtml) in
  trim (replaceAll spacesRe " " (stripTags store_)).

(** The body of the loop of [extractOffersFromProductPageNaively] on one
    match of the go-to-shop expression: [None] is [continue]. *)
Definition pageOffer (name_ pageUrl : string) (m : matched)
    : option PrisjaktProduct :=
  let storeUrl_ := group 1 m in
  let offerHtml := group 2 m in
  let store_ := offerStore offerHtml in
  if negb (nonEmptyString store_) || test offerNoiseRe store_ then None
  else
    match search priceLabelRe offerHtml with
    | None => None
    | Some priceMatch =>
        let numericPrice :=
          parsePrice (replaceAll nbspRe "" (group 1 priceMatch)) in
        if negb (isFinite numericPrice) || lessEq numericPrice zero then None
        else Some {|
          id := (pageUrl ++ "::" ++ store_)%string;
          name := VStr name_;
          price := numericPrice;
          currency := VStr "SEK";
          store := VStr store_;
          storeUrl := VStr storeUrl_;
          availability := iconAvailability offerHtml;
          imageUrl := VUndef |}
    end.

(** The heading of a product page: [stripTags((html.match(h1)?.[1] || '').trim())] *)
Definition pageName (html : string) : string :=
  stripTags (trim (matchGroup h1Re 1 html)).

(** The array [out] of [extractOffersFromProductPageNaively] when its loop
    ends: one offer per go-to-shop row that was not skipped. *)
Definition pageOffers (html pageUrl : string) : list PrisjaktProduct :=
  collectSome (pageOffer (pageName html) pageUrl) (execAll offerRegex 0 html).

(** The key of the map [byStore]. Every offer of [out] was built with a
    string as its store ([pageOffers_store_string] below), on which
    [toLowerCase] is the string method. *)
Definition storeKey (p : PrisjaktProduct) : string :=
  match store p with
  | VStr s => toLowerCase s
  | _ => EmptyString
  end.

(** A [Map] keeps its keys in the order of their first insertion. *)
Definition StoreMap : Type := list (string * PrisjaktProduct).

Fixpoint mapGet (key : string) (m : StoreMap) : option PrisjaktProduct :=
  match m with
  | [] => None
  | (k, v) :: rest => if String.eqb k key then Some v else mapGet key rest
  end.

Fixpoint mapSet (key : string) (p : PrisjaktProduct) (m : StoreMap) : StoreMap :=
  match m with
  | [] => [(key, p)]
  | (k, v) :: rest =>
      if String.eqb k key then (k, p) :: rest
      else (k, v) :: mapSet key p rest
  end.

(** One turn of the loop that fills [byStore]. *)
Definition byStoreStep (m : StoreMap) (p : PrisjaktProduct) : StoreMap :=
  let key := storeKey p in
  match mapGet key m with
  | None => mapSet key p m
  | Some prev => if lessThan (price p) (price prev) then mapSet key p m else m
  end.

Definition byStore (out : list PrisjaktProduct) : StoreMap :=
  fold_left byStoreStep out [].

Definition markNotAvailable (o : PrisjaktProduct) : PrisjaktProduct :=
  {| id := id o; name := name o; price := price o; currency := currency o;
     store := store o; storeUrl := storeUrl o;
     availability := not_available; imageUrl := imageUrl o |}.

Definition extractOffersFromProductPageNaively (html pageUrl : string)
    : list PrisjaktProduct :=
  if negb (nonEmptyString (pageName html)) then []
  else
    let offers := map snd (byStore (pageOffers html pageUrl)) in
    if test noStockRe html then map markNotAvailable offers
    else offers.
End Scraper.

(** ** The structured-data extractor *)

(** The array [out] shared by the calls of [collectProductsFromLdObject],
    together with whether the walk ran to its end or was cut short by an
    exception. What was pushed before the exception stays in the array. *)
Inductive walk : Type :=
| Completed (out : list PrisjaktProduct)
| Aborted (out : list PrisjaktProduct).

Definition outOf (w : walk) : list PrisjaktProduct :=
  match w with
  | Completed out | Aborted out => out
  end.

(** [for (const x of xs) f(x, out)] *)
Definition forEach {A : Type} (f : A -> list PrisjaktProduct -> walk)
    : list A -> list PrisjaktProduct -> walk :=
  fix go (xs : list A) (out : list PrisjaktProduct) : walk :=
    match xs with
    | [] => Completed out
    | x :: rest =>
        match f x out with
        | Completed out' => go rest out'
        | Aborted out' => Aborted out'
        end
    end.

Definition isProductString (v : value) : bool :=
  match v with
  | VStr s => String.eqb s "Product"
  | _ => false
  end.

(** [(obj['@type'] === 'Product' || (Array.isArray(obj['@type']) &&
    obj['@type'].includes('Product'))) && obj.name] *)
Definition isNamedProduct (obj : value) : bool :=
  (match get obj "@type" with
   | VArr items => existsb isProductString items
   | v => isProductString v
   end)
  && truthy (get obj "name").

Definition normalizeOffers (offers : value) : list value :=
  if negb (truthy offers) then []
  else match offers with
       | VArr items => items
       | _ => [offers]
       end.

(** [offer.seller?.name] *)
Definition sellerName (offer : value) : value :=
  match get offer "seller" with
  | VUndef | VNull => VUndef
  | seller => get seller "name"
  end.

Section StructuredData.
Context {H : Host}.

(** The first part of an id: [(obj.sku || obj.url || obj.name) + '::'] *)
Definition ldIdPrefix (obj : value) : outcome string :=
  s <- toStr (orValue (get obj "sku") (orValue (get obj "url") (get obj "name"))) ;;
  Ok (s ++ "::")%string.

(** The second part of an id: [(offer.url || offer.seller?.name || '')],
    coerced to a string by the concatenation. *)
Definition ldIdSuffix (offer : value) : outcome string :=
  toStr (orValue (get offer "url") (orValue (sellerName offer) (VStr ""))).

(** The body of the loop over the offers of a Product node: [Ok None] is
    [continue]. Reading a property of [null] throws. *)
Definition ldOffer (obj offer : value) : outcome (option PrisjaktProduct) :=
  match offer with
  | VUndef | VNull => Throw
  | _ =>
      numericPrice <-
        match get offer "price" with
        | VNum n => Ok n
        | v => s <- toStr v ;; Ok (parsePrice s)
        end ;;
      if negb (isFinite numericPrice) || lessEq numericPrice zero then Ok None
      else
        pre <- ldIdPrefix obj ;;
        suf <- ldIdSuffix offer ;;
        avail <- toAvailabilityOf (get offer "availability") ;;
        Ok (Some {|
          id := (pre ++ suf)%string;
          name := get obj "name";
          price := numericPrice;
          currency := orValue (get offer "priceCurrency") (VStr "SEK");
          store := orValue (sellerName offer) (VStr "Unknown");
          storeUrl := orValue (get offer "url") (orValue (get obj "url") (VStr ""));
          availability := avail;
          imageUrl := match get obj "image" with
                      | VArr items => nth 0 items VUndef
                      | v => v
                      end |})
  end.

(** The array [validOffers] after the loop over [offers]. *)
Fixpoint validOffers (obj : value) (offers : list value)
    : outcome (list PrisjaktProduct) :=
  match offers with
  | [] => Ok []
  | offer :: rest =>
      o <- ldOffer obj offer ;;
      more <- validOffers obj rest ;;
      Ok match o with
         | Some p => p :: more
         | None => more
         end
  end.

(** What a node pushes to [out] before its properties are visited. *)
Definition nodeOffers (obj : value) : outcome (list PrisjaktProduct) :=
  if isNamedProduct obj
  then validOffers obj (normalizeOffers (get obj "offers"))
  else Ok [].

Fixpoint collectProductsFromLdObject (obj : value) (out : list PrisjaktProduct)
    {struct obj} : walk :=
  let visit := fun (val : value) (out : list PrisjaktProduct) =>
    match val with
    | VArr vs => forEach collectProductsFromLdObject vs out
    | VObj _ => collectProductsFromLdObject val out
    | _ => Completed out
    end in
  match obj with
  | VObj fields =>
      match nodeOffers obj with
      | Throw => Aborted out
      | Ok valid => forEach (fun kv => visit (snd kv)) fields (out ++ valid)
      end
  | VArr items => forEach visit items out
  | _ => Completed out
  end.

(** One turn of the loop of [extractProductsFromJsonLd] over the script
    blocks: a block that does not parse, or whose walk throws, leaves
    [results] with what was pushed so far. *)
Definition ldBlock (results : list PrisjaktProduct) (m : matched)
    : list PrisjaktProduct :=
  let jsonText := trim (group 1 m) in
  match JSON_parse jsonText with
  | None => results
  | Some data =>
      let items := match data with
                   | VArr l => l
                   | _ => [data]
                   end in
      outOf (forEach collectProductsFromLdObject items results)
  end.

(** The array [results] of [extractProductsFromJsonLd] when its loop ends. *)
Definition ldResults (html : string) : list PrisjaktProduct :=
  fold_left ldBlock (execAll scriptRegex 0 html) [].

Definition extractProductsFromJsonLd (html : string)
    : outcome (list PrisjaktProduct) :=
  dedupeProducts (ldResults html).
End StructuredData.

(** ** The orchestrator *)

Section Orchestrator.
Context {H : Host}.

Definition nonEmpty {A : Type} (l : list A) : bool :=
  match l with
  | [] => false
  | _ :: _ => true
  end.

(** [await fetch(url, ...)], [if (!res.ok) return []], [await res.text()]:
    the page, [None] when the response is not ok. *)
Definition fetchPage (url : string) : outcome (option string) :=
  match fetch url with
  | NetworkError => Throw
  | Response false _ => Ok None
  | Response true None => Throw
  | Response true (Some html) => Ok (Some html)
  end.

Definition encode (s : string) : outcome string :=
  match encodeURIComponent s with
  | Some e => Ok e
  | None => Throw
  end.

(** The single offer of the last resort of [scrapePrisjaktProduct]. *)
Definition headingOffer (html url : string) : list PrisjaktProduct :=
  let name_ := pageName html in
  let price_ := loosePrice html in
  if nonEmptyString name_ && isFinite price_ && isPositive price_
  then [ {| id := url;
            name := VStr name_;
            price := price_;
            currency := VStr "SEK";
            store := VStr "Prisjakt";
            storeUrl := VStr url;
            availability := in_stock;
            imageUrl := VUndef |} ]
  else [].

(** The [try] block of [scrapePrisjaktProduct]. *)
Definition scrapePrisjaktProduct_try (urlOrId : string)
    : outcome (list PrisjaktProduct) :=
  url <- (if startsWith "http" urlOrId then Ok urlOrId
          else e <- encode (replaceAll nonDigitRe "" urlOrId) ;;
               Ok (hostUrl ++ "/produkt.php?p=" ++ e)%string) ;;
  page <- fetchPage url ;;
  match page with
  | None => Ok []
  | Some html =>
      fromJsonLd <- extractProductsFromJsonLd html ;;
      products <- filterPrisjaktStore fromJsonLd ;;
      if nonEmpty products then Ok products
      else
        offers <- filterPrisjaktStore
                    (extractOffersFromProductPageNaively html url) ;;
        if nonEmpty offers then Ok offers
        else Ok (headingOffer html url)
  end.

Definition scrapePrisjaktProduct (urlOrId : string)
    : outcome (list PrisjaktProduct) :=
  tryCatch (scrapePrisjaktProduct_try urlOrId) [].

(** [(html.match(/href=Q(\/produkt\.php\?p=\d+)Q/i)?.[1]) || ''] *)
Definition firstProductLink (html : string) : string :=
  matchGroup productLinkRe 1 html.

(** The [try] block of [scrapePrisjaktSearch]. *)
Definition scrapePrisjaktSearch_try (query : string)
    : outcome (list PrisjaktProduct) :=
  q <- encode query ;;
  page <- fetchPage (hostUrl ++ "/search?query=" ++ q)%string ;;
  match page with
  | None => Ok []
  | Some html =>
      focused <- filterPrisjaktStore (extractPrimarySearchItems html) ;;
      if nonEmpty focused then Ok focused
      else
        fromJsonLd <- extractProductsFromJsonLd html ;;
        productsFromJsonLd <- filterPrisjaktStore fromJsonLd ;;
        if nonEmpty productsFromJsonLd then Ok productsFromJsonLd
        else
          naive <- extractProductsNaively html ;;
          fallback <- filterPrisjaktStore naive ;;
          if nonEmpty fallback then Ok fallback
          else
            let productLink := firstProductLink html in
            if nonEmptyString productLink
            then
              productsFromProductPage <-
                scrapePrisjaktProduct (hostUrl ++ productLink)%string ;;
              filterPrisjaktStore productsFromProductPage
            else Ok []
  end.

Definition scrapePrisjaktSearch (query : string)
    : outcome (list PrisjaktProduct) :=
  tryCatch (scrapePrisjaktSearch_try query) [].
End Orchestrator.

(** ** A platform for the examples

    Every request is answered with the same page, every structured-data
    block parses to the same value (or fails to parse), and the query is
    left as it is by [encodeURIComponent], as it is for letters and digits.
    No example prints a number. *)
Definition staticHost (page : FetchResult) (parsed : option value) : Host :=
  {| fetch := fun _ => page;
     JSON_parse := fun _ => parsed;
     encodeURIComponent := fun s => Some s;
     numberToString := fun _ => "0" |}.

Definition servedPage (html : string) : FetchResult := Response true (Some html).

(** ** Notions used to state the properties *)

(** The text a status is written with in the source: [AvailabilityStatus]
    is a union of three string literals. *)
Definition statusText (a : AvailabilityStatus) : string :=
  match a with
  | in_stock => "in_stock"
  | incoming => "incoming"
  | not_available => "not_available"
  end.

(** A price is a positive finite number. *)
Definition goodPrice (p : PrisjaktProduct) : Prop :=
  isFinite (price p) = true /\ isPositive (price p) = true.

(** Price, name and store of an offer are as the data model asks: a value
    is non-empty when it is truthy, which for a string is to differ from
    the empty string. *)
Definition wellFormed (p : PrisjaktProduct) : Prop :=
  goodPrice p /\ truthy (name p) = true /\ truthy (store p) = true.

(** Name, store and store URL of an offer are strings, as the interface
    declares them. *)
Definition textFields (p : PrisjaktProduct) : Prop :=
  exists n s u, name p = VStr n /\ store p = VStr s /\ storeUrl p = VStr u.

(** Two offers are of the same store when their store names agree up to
    the case of their letters. *)
Definition sameStore (p q : PrisjaktProduct) : bool :=
  String.eqb (storeKey p) (storeKey q).

(** The keys of a list of offers, when each of them can be built. *)
Definition hasKeys {H : Host} (l : list PrisjaktProduct) (ks : list string) : Prop :=
  Forall2 (fun p k => dedupeKey p = Ok k) l ks.

(** The loop of [dedupeProducts] on offers paired with their keys. *)
Fixpoint pick (seen : list string) (kps : list (string * PrisjaktProduct))
    : list PrisjaktProduct :=
  match kps with
  | [] => []
  | (k, p) :: rest =>
      if setHas k seen then pick seen rest else p :: pick (k :: seen) rest
  end.

(** An expression that may match the empty string. *)
Fixpoint nullable (r : regex) : bool :=
  match r with
  | Eps => true
  | Cls _ => false
  | Rep _ _ lo _ => (lo =? 0)%nat
  | Seq r1 r2 => nullable r1 && nullable r2
  | Alt r1 r2 => nullable r1 || nullable r2
  | Opt _ => true
  | Grp _ r1 => nullable r1
  end.

(** What the map [byStore] holds once the offers [done] went through the
    loop: one entry per store key, whose offer is one of [done] with that
    key and no dearer than any offer of [done] with that key. *)
Definition storeInv (done : list PrisjaktProduct) (m : StoreMap) : Prop :=
  NoDup (map fst m) /\
  (forall k v, In (k, v) m ->
     storeKey v = k /\ In v done /\
     forall q, In q done -> storeKey q = k ->
               lessThan (price q) (price v) = false) /\
  (forall q, In q done -> mapGet (storeKey q) m <> None).

(** Two go-to-shop rows of the same store at different prices, the dearer
    one first and in stock, the other one incoming, and a row of another
    store without a stock icon. *)
Definition offerRow (href store_ price_ icon : string) : string :=
  ("<a href=" ++ dq ++ "https://www.prisjakt.nu/go-to-shop/" ++ href ++ dq ++ ">"
   ++ "<span class=" ++ dq ++ "StoreInfoTitle" ++ dq ++ ">" ++ store_ ++ "</span>"
   ++ "<i class=" ++ dq ++ icon ++ dq ++ "></i>"
   ++ "<h4 data-test=" ++ dq ++ "PriceLabel" ++ dq ++ ">" ++ price_ ++ " kr</h4>"
   ++ "</a>")%string.

Definition twoPricesRows : string :=
  (offerRow "1" "Inet" "1 200" "IconStockInStock"
   ++ offerRow "2" "INET" "1 100" "IconStockIncoming"
   ++ offerRow "3" "Komplett" "999" "IconStockOther")%string.

(** The rows under a heading, as on a product page. *)
Definition twoPricesPage : string :=
  ("<h1>Vengeance 32GB</h1>" ++ twoPricesRows)%string.

(** A product page with two go-to-shop rows of one store, at different
    prices, whose name holds one of the noise words of the extractor. *)
Definition noisyStorePage : string :=
  ("<h1>Vengeance 32GB</h1>"
   ++ offerRow "1" "Teknikbutiken" "1 200" "IconStockInStock"
   ++ offerRow "2" "Teknikbutiken" "1 100" "IconStockInStock")%string.

(** The first row of the example as the loop collects it on a page with the
    heading [heading]. *)
Definition inetOffer (heading : string) : PrisjaktProduct :=
  {| id := "u::Inet";
     name := VStr heading;
     price := Fin 1200;
     currency := VStr "SEK";
     store := VStr "Inet";
     storeUrl := VStr "https://www.prisjakt.nu/go-to-shop/1";
     availability := in_stock;
     imageUrl := VUndef |}.

(** A search page that shows nothing but a link to a product page, over
    the rows of the example (the platform of the examples serves the same
    document for the product page). *)
Definition linkedPage : string :=
  ("<a href=" ++ dq ++ "/produkt.php?p=12" ++ dq ++ ">more</a>" ++ twoPricesPage)%string.

(** Three anchor blocks: one with a title and a price, one without a
    price, one without a title. *)
Definition anchorsPage : string :=
  ("<a href=" ++ dq ++ "/x?a=1&amp;b=2" ++ dq ++ "><h3>Kit <i>A</i></h3> 10 kr</a>"
   ++ "<a href=" ++ dq ++ "/y" ++ dq ++ "><h3>No price</h3></a>"
   ++ "<a href=" ++ dq ++ "/z" ++ dq ++ "> 20 kr</a>")%string.

(** A search page with the primary result card. *)
Definition cardPage : string :=
  ("<a class=" ++ dq ++ "x productName y" ++ dq
   ++ " href=" ++ dq ++ "/produkt.php?p=12" ++ dq ++ "> Corsair <b>X</b></a>"
   ++ "<p class=" ++ dq ++ "text-m font-heaviest" ++ dq ++ ">2&nbsp;095 kr</p>"
   ++ "<p>hos<span class=" ++ dq ++ "font-heaviest" ++ dq
   ++ "> <!-- -->MJ Multimedia</span></p>")%string.

(** A platform whose network is down, for examples that fetch nothing. *)
Definition offlineHost : Host := staticHost NetworkError None.

(** A Product node with two offers that link to the same page and are sold
    by different sellers, and the two offers it produces. *)
Definition sameUrlProduct : value :=
  VObj [ ("@type", VStr "Product");
         ("name", VStr "RAM");
         ("offers",
          VArr [ VObj [ ("url", VStr "https://shop.example/ram");
                        ("price", VNum (Fin 100));
                        ("seller", VObj [("name", VStr "Alfa")]) ];
                 VObj [ ("url", VStr "https://shop.example/ram");
                        ("price", VNum (Fin 120));
                        ("seller", VObj [("name", VStr "Beta")]) ] ]) ].

Definition sameUrlOffer (seller : string) (price_ : number) : PrisjaktProduct :=
  {| id := "RAM::https://shop.example/ram";
     name := VStr "RAM";
     price := price_;
     currency := VStr "SEK";
     store := VStr seller;
     storeUrl := VStr "https://shop.example/ram";
     availability := not_available;
     imageUrl := VUndef |}.

(** What [collectProductsFromLdObject] does with the value of one property
    of the node it visits. *)
Definition visitValue {H : Host} (val : value) (out : list PrisjaktProduct) : walk :=
  match val with
  | VArr vs => forEach collectProductsFromLdObject vs out
  | VObj _ => collectProductsFromLdObject val out
  | _ => Completed out
  end.


(** *** The fallback chain, as the specification words it

    An ordered list of extraction stages is tried in sequence; the output
    of each stage is store-filtered, and the first stage whose filtered
    output is not empty wins. *)
Definition Stage : Type := string -> outcome (list PrisjaktProduct).

Definition searchStages {H : Host} : list Stage :=
  [ fun html => Ok (extractPrimarySearchItems html);
    extractProductsFromJsonLd;
    extractProductsNaively ].

Fixpoint firstAccepted {H : Host} (stages : list Stage) (html : string)
    : outcome (option (list PrisjaktProduct)) :=
  match stages with
  | [] => Ok None
  | stage :: rest =>
      found <- stage html ;;
      accepted <- filterPrisjaktStore found ;;
      if nonEmpty accepted then Ok (Some accepted)
      else firstAccepted rest html
  end.

(** When every stage of the chain came out empty: the first product-detail
    link of the page is scraped as a product page, and what comes back is
    store-filtered. *)
Definition followFirstLink {H : Host} (html : string)
    : outcome (list PrisjaktProduct) :=
  match search productLinkRe html with
  | Some m =>
      if nonEmptyString (group 1 m)
      then found <- scrapePrisjaktProduct (hostUrl ++ group 1 m)%string ;;
           filterPrisjaktStore found
      else Ok []
  | None => Ok []
  end.

Definition scrapeSearch_spec {H : Host} (query : string)
    : outcome (list PrisjaktProduct) :=
  tryCatch
    (q <- encode query ;;
     page <- fetchPage (hostUrl ++ "/search?query=" ++ q)%string ;;
     match page with
     | None => Ok []
     | Some html =>
         won <- firstAccepted searchStages html ;;
         match won with
         | Some offers => Ok offers
         | None => followFirstLink html
         end
     end)
    [].

(** A fetch that yields no page. *)
Definition fetchFailed (r : FetchResult) : bool :=
  match r with
  | Response true (Some _) => false
  | _ => true
  end.

(** ** Notions used by the further properties *)

(** Whether an option holds a value. *)
Definition succeeds {R : Type} (o : option R) : bool :=
  match o with
  | Some _ => true
  | None => false
  end.

(** Whether the expression matches at the start of the text. *)
Definition matchesHere (r : regex) (s : string) : bool :=
  succeeds (matchHere r s).

(** The text without its first [n] characters. *)
Fixpoint dropStr (n : nat) (s : string) : string :=
  match n, s with
  | S n', String _ t => dropStr n' t
  | _, _ => s
  end.

(** An offer whose store holds the brand of the host inside a longer
    name, in capitals. *)
Definition brandOffer : PrisjaktProduct :=
  {| id := "b";
     name := VStr "RAM";
     price := Fin 90;
     currency := VStr "SEK";
     store := VStr "Shop at PRISJAKT.nu";
     storeUrl := VStr "https://x.example";
     availability := in_stock;
     imageUrl := VUndef |}.

(** A walk that started with [out] in the array, given what the same walk
    does from the empty array. *)
Definition after_ (out : list PrisjaktProduct) (w : walk) : walk :=
  match w with
  | Completed added => Completed (out ++ added)
  | Aborted added => Aborted (out ++ added)
  end.

(** [node] is [root] or is nested in it, at any depth, as an element of an
    array or the value of a property. *)
Inductive inside (node : value) : value -> Prop :=
| inside_here : inside node node
| inside_item :
    forall items x, In x items -> inside node x -> inside node (VArr items)
| inside_field :
    forall fields k x,
      In (k, x) fields -> inside node x -> inside node (VObj fields).

(** A structured-data document that holds its Product node inside a graph. *)
Definition graphDocument : value :=
  VObj [ ("@context", VStr "https://schema.org");
         ("@graph", VArr [ VObj [("@type", VStr "WebPage")]; sameUrlProduct ]) ].

(** The characters of a text that satisfy [p], in their order. *)
Fixpoint keepChars (p : ascii -> bool) (s : string) : string :=
  match s with
  | EmptyString => EmptyString
  | String c t => if p c then String c (keepChars p t) else keepChars p t
  end.

(** How many characters of a text satisfy [p]. *)
Fixpoint countChars (p : ascii -> bool) (s : string) : nat :=
  match s with
  | EmptyString => 0
  | String c t => (if p c then 1 else 0) + countChars p t
  end.

(** The characters a price keeps: digits, full stop and comma. *)
Definition numericChar (c : ascii) : bool := isDigit c || oneOf ".," c.

(** Full stop and comma. *)
Definition separator (c : ascii) : bool := oneOf ".," c.

From Stdlib Require DecimalString DecimalN.

(** The decimal numeral of a natural number, without leading zeros. *)
Definition decimal (n : N) : string := DecimalString.NilEmpty.string_of_uint (N.to_uint n).

(** A Product node whose second offer is [null]. *)
Definition nullOfferProduct : value :=
  VObj [ ("@type", VStr "Product");
         ("name", VStr "RAM");
         ("offers",
          VArr [ VObj [ ("url", VStr "https://shop.example/ram");
                        ("price", VNum (Fin 100)) ];
                 VNull ]) ].

(** Every match of the expression starts with a character of the class
    [A] (a sufficient condition read off the shape of the expression). *)
Fixpoint firstIn (A : ascii -> bool) (r : regex) : Prop :=
  match r with
  | Cls p => forall c, p c = true -> A c = true
  | Rep _ p lo _ => 1 <= lo /\ forall c, p c = true -> A c = true
  | Seq r1 _ => firstIn A r1
  | Alt r1 r2 => firstIn A r1 /\ firstIn A r2
  | Grp _ r1 => firstIn A r1
  | Eps | Opt _ => False
  end.

(** A page without markup. *)
Definition plainPage : string := "Inga produkter hittades, 1 299 kr".

(** Whether every character of a text satisfies [p]. *)
Fixpoint allChars (p : ascii -> bool) (s : string) : bool :=
  match s with
  | EmptyString => true
  | String c t => p c && allChars p t
  end.

(** Whether a number of repetitions respects the upper bound. *)
Definition within (hi : option nat) (n : nat) : Prop :=
  match hi with
  | None => True
  | Some h => n <= h
  end.

(** What a match is, without the order in which the matcher tries the
    alternatives: [matches r s cs s' cs'] when [r] can consume the start of
    [s] up to [s'], turning the captures [cs] into [cs']. *)
Inductive matches : regex -> string -> captures -> string -> captures -> Prop :=
| matches_Eps : forall s cs, matches Eps s cs s cs
| matches_Cls :
    forall p c t cs, p c = true -> matches (Cls p) (String c t) cs t cs
| matches_Rep :
    forall g p lo hi u s' cs,
      allChars p u = true -> lo <= String.length u -> within hi (String.length u) ->
      matches (Rep g p lo hi) (u ++ s')%string cs s' cs
| matches_Seq :
    forall r1 r2 s cs s1 cs1 s2 cs2,
      matches r1 s cs s1 cs1 -> matches r2 s1 cs1 s2 cs2 ->
      matches (Seq r1 r2) s cs s2 cs2
| matches_Alt_l :
    forall r1 r2 s cs s' cs', matches r1 s cs s' cs' -> matches (Alt r1 r2) s cs s' cs'
| matches_Alt_r :
    forall r1 r2 s cs s' cs', matches r2 s cs s' cs' -> matches (Alt r1 r2) s cs s' cs'
| matches_Opt_some :
    forall r1 s cs s' cs', matches r1 s cs s' cs' -> matches (Opt r1) s cs s' cs'
| matches_Opt_none : forall r1 s cs, matches (Opt r1) s cs s cs
| matches_Grp :
    forall n r1 s cs s' cs',
      matches r1 s cs s' cs' ->
      matches (Grp n r1) s cs s' ((n, consumed s s') :: cs').

(** An expression without capture groups. *)
Fixpoint noGrp (r : regex) : bool :=
  match r with
  | Eps | Cls _ | Rep _ _ _ _ => true
  | Seq r1 r2 | Alt r1 r2 => noGrp r1 && noGrp r2
  | Opt r1 => noGrp r1
  | Grp _ _ => false
  end.

(** [t] is what is left of [s] after some of its first characters. *)
Inductive suffixOf (t : string) : string -> Prop :=
| suffix_here : suffixOf t t
| suffix_next : forall c s, suffixOf t s -> suffixOf t (String c s).

(** Every group numbered [n] of the expression captures a text with the
    property [P]. *)
Fixpoint grpSpec (n : nat) (P : string -> Prop) (r : regex) : Prop :=
  match r with
  | Grp m r1 =>
      grpSpec n P r1 /\
      (m = n -> forall s cs s' cs', matches r1 s cs s' cs' -> P (consumed s s'))
  | Seq r1 r2 | Alt r1 r2 => grpSpec n P r1 /\ grpSpec n P r2
  | Opt r1 => grpSpec n P r1
  | Eps | Cls _ | Rep _ _ _ _ => True
  end.

(** Every match of the expression sets the group numbered [n]. *)
Fixpoint sets (n : nat) (r : regex) : Prop :=
  match r with
  | Grp m r1 => m = n \/ sets n r1
  | Seq r1 r2 => sets n r1 \/ sets n r2
  | Alt r1 r2 => sets n r1 /\ sets n r2
  | Eps | Cls _ | Rep _ _ _ _ | Opt _ => False
  end.

(** A whole number greater than zero. *)
Definition wholePrice (n : number) : Prop :=
  exists z : Z, (0 < z)%Z /\ n = Fin (inject_Z z).

(** A text that differs from [w] in case only, followed by one or more
    characters of the class [p]. *)
Definition literalThen (w : string) (p : ascii -> bool) (s : string) : Prop :=
  exists pre rest : string,
    s = (pre ++ rest)%string /\ toLowerCase pre = toLowerCase w /\
    rest <> EmptyString /\ allChars p rest = true.

(** The text holds no tag: no less-than sign of it has a greater-than sign
    anywhere after it. *)
Fixpoint noTag (s : string) : bool :=
  match s with
  | EmptyString => true
  | String c t =>
      (negb (Ascii.eqb c "<") || (countChars (ch ">") t =? 0)%nat) && noTag t
  end.

(** The number of white-space characters the text starts with. *)
Fixpoint spaceRun (s : string) : nat :=
  match s with
  | String c t => if isSpace c then S (spaceRun t) else 0
  | EmptyString => 0
  end.

(** Whether the text ends with a white-space character. *)
Fixpoint endsWithSpace (s : string) : bool :=
  match s with
  | EmptyString => false
  | String c EmptyString => isSpace c
  | String _ t => endsWithSpace t
  end.

(** The white space of the text is collapsed: every white-space character
    is a blank that is not followed by another white-space character. *)
Fixpoint collapsed (s : string) : bool :=
  match s with
  | EmptyString => true
  | String c t =>
      (negb (isSpace c) || (Ascii.eqb c " " && (spaceRun t =? 0)%nat))
      && collapsed t
  end.

(** Every run of white space replaced by one blank; [inRun] tells that the
    blank of the current run was written already. *)
Fixpoint collapse (inRun : bool) (s : string) : string :=
  match s with
  | EmptyString => EmptyString
  | String c t =>
      if isSpace c
      then if inRun then collapse true t else String " " (collapse true t)
      else String c (collapse false t)
  end.

(** ** The API client (lib/prisjakt-api.ts) *)

Module PrisjaktAPI.

(** What the client keeps of a product of the answer. The interface
    [PrisjaktProduct] types the fields; the client copies them from the
    parsed answer without a check, so they are dynamic values. *)
Record Product : Type := mkProduct {
  id : value;
  name : value;
  price : value;
  currency : value;
  store : value;
  storeUrl : value;
  availability : value;
  imageUrl : value
}.

(** [CacheEntry] *)
Record CacheEntry : Type := mkEntry {
  data : list Product;
  timestamp : Z;
  ttl : Z
}.

(** The module-level [Map] shared by every instance of the class. A [Map]
    keeps its keys in the order of their first insertion. *)
Definition Cache : Type := list (string * CacheEntry).

Fixpoint cacheGet (key : string) (c : Cache) : option CacheEntry :=
  match c with
  | [] => None
  | (k, e) :: rest => if String.eqb k key then Some e else cacheGet key rest
  end.

Fixpoint cacheSet (key : string) (e : CacheEntry) (c : Cache) : Cache :=
  match c with
  | [] => [(key, e)]
  | (k, e') :: rest =>
      if String.eqb k key then (k, e) :: rest
      else (k, e') :: cacheSet key e rest
  end.

(** The answer of [fetch] to the search request, with its [ok] flag and
    the outcome of [response.json()]; the promise of [fetch] may reject. *)
Inductive Answer : Type :=
| Rejected : Answer
| Answered (ok : bool) (json : option value).

(** The search endpoint: its answer to a request with the given
    [Authorization] header and query. *)
Class Endpoint : Type := {
  post : string -> string -> Answer
}.

(** [x?.k] *)
Definition optGet (x : value) (k : string) : value :=
  match x with
  | VUndef | VNull => VUndef
  | _ => get x k
  end.

(** The function given to [map]. Reading a property of [null] throws. *)
Definition toProduct (product : value) : outcome Product :=
  match product with
  | VUndef | VNull => Throw
  | _ =>
      Ok {| id := get product "id";
            name := get product "name";
            price := get product "price";
            currency := orValue (get product "currency") (VStr "SEK");
            store := orValue (optGet (get product "store") "name") (VStr "Unknown");
            storeUrl := orValue (optGet (get product "store") "url") (VStr "");
            availability := orValue (get product "availability") (VBool false);
            imageUrl := get product "image_url" |}
  end.

Fixpoint mapProducts (items : list value) : outcome (list Product) :=
  match items with
  | [] => Ok []
  | x :: rest =>
      p <- toProduct x ;;
      more <- mapProducts rest ;;
      Ok (p :: more)
  end.

(** [data.products?.map(...) || []]: a value other than an array, [null]
    and [undefined] has no [map] method, and the call of it throws. *)
Definition readProducts (data_ : value) : outcome (list Product) :=
  match data_ with
  | VUndef | VNull => Throw
  | _ =>
      match get data_ "products" with
      | VUndef | VNull => Ok []
      | VArr items => mapProducts items
      | _ => Throw
      end
  end.

(** One hour in milliseconds. *)
Definition oneHour : Z := 3600000.

Section Client.
Context {H : Host} {E : Endpoint}.

(** The [try] block shared by [searchRAM] and [searchRAMBySpecs]. *)
Definition request (apiKey : value) (query : string) : outcome (list Product) :=
  key <- toStr apiKey ;;
  match post ("Bearer " ++ key) query with
  | Rejected => Throw
  | Answered false _ => Throw
  | Answered true None => Throw
  | Answered true (Some data_) => readProducts data_
  end.

(** The body shared by [searchRAM] and [searchRAMBySpecs], which differ in
    the cache key and the query only. [now] is what [Date.now()] returns
    when the cache is checked, [later] what it returns when the result is
    stored. *)
Definition cachedSearch (apiKey : value) (cacheKey query : string)
    (now later : Z) (c : Cache) : list Product * Cache :=
  let fresh := fun _ : unit =>
    match request apiKey query with
    | Ok products =>
        (products,
         cacheSet cacheKey
           {| data := products; timestamp := later; ttl := oneHour |} c)
    | Throw => ([], c)
    end in
  match cacheGet cacheKey c with
  | Some cached =>
      if (now - timestamp cached <? ttl cached)%Z then (data cached, c)
      else fresh tt
  | None => fresh tt
  end.

Definition searchRAM (apiKey : value) (moduleNumber : string)
    : Z -> Z -> Cache -> list Product * Cache :=
  cachedSearch apiKey ("ram_" ++ moduleNumber) moduleNumber.

Definition searchRAMBySpecs (apiKey : value) (vendor size speed : string)
    : Z -> Z -> Cache -> list Product * Cache :=
  cachedSearch apiKey
    ("ram_specs_" ++ vendor ++ "_" ++ size ++ "_" ++ speed)
    (vendor ++ " " ++ size ++ " DDR5 " ++ speed).
End Client.

Definition clearCache (c : Cache) : Cache := [].

(** [{ size, entries }] *)
Definition getCacheStats (c : Cache) : nat * list string :=
  (List.length c, map fst c).

End PrisjaktAPI.

(** ** The search route (app/api/prisjakt/search/route.ts) *)

(** [/\s+ver\s+[\d.]+/gi] *)
Definition versionRe : regex :=
  seqs [plus isSpace; liti "ver"; plus isSpace;
        plus (fun c => isDigit c || ch "." c)].

Definition cleanProductName (name_ : string) : string :=
  trim (replaceAll versionRe "" name_).

(** The response of the route: the products of the scraper or of the API
    client with status 200, the error with status 400, the error with
    status 500. *)
Inductive Reply : Type :=
| Scraped (products : list PrisjaktProduct)
| FromApi (products : list PrisjaktAPI.Product)
| BadRequest
| ServerError.

Section Route.
Context {H : Host} {E : PrisjaktAPI.Endpoint}.

(** [scrapePrisjaktProduct(products[0].storeUrl)]: a store address that is
    not a string has no [startsWith] method; the call of it throws inside
    the [try] block of the scraper, which returns the empty list. *)
Definition scrapePrisjaktProductOf (urlOrId : value)
    : outcome (list PrisjaktProduct) :=
  match urlOrId with
  | VStr s => scrapePrisjaktProduct s
  | _ => Ok []
  end.

(** The branch of [POST] without an API key. *)
Definition scrapeBranch (cleanModuleNumber : string)
    : outcome (list PrisjaktProduct) :=
  products <- scrapePrisjaktSearch cleanModuleNumber ;;
  match products with
  | [p] => scrapePrisjaktProductOf (storeUrl p)
  | _ => Ok products
  end.

(** [POST]: [body] is the outcome of [request.json()], [None] when the
    promise rejects. *)
Definition POST (body : option value) (now later : Z) (c : PrisjaktAPI.Cache)
    : Reply * PrisjaktAPI.Cache :=
  match body with
  | None | Some VUndef | Some VNull => (ServerError, c)
  | Some b =>
      let moduleNumber := get b "moduleNumber" in
      let apiKey := get b "apiKey" in
      if negb (truthy moduleNumber) then (BadRequest, c)
      else
        match moduleNumber with
        | VStr m =>
            let cleanModuleNumber := cleanProductName m in
            if negb (truthy apiKey)
            then match scrapeBranch cleanModuleNumber with
                 | Ok products => (Scraped products, c)
                 | Throw => (ServerError, c)
                 end
            else let '(products, c') :=
                   PrisjaktAPI.searchRAM apiKey m now later c in
                 (FromApi products, c')
        | _ => (ServerError, c)
        end
  end.
End Route.

(** The cache has no entry for the key that is still valid at [now]. *)
Definition misses (key : string) (now : Z) (c : PrisjaktAPI.Cache) : Prop :=
  match PrisjaktAPI.cacheGet key c with
  | Some e => (PrisjaktAPI.ttl e <= now - PrisjaktAPI.timestamp e)%Z
  | None => True
  end.

(** An endpoint that gives the same answer to every request. *)
Definition staticEndpoint (a : PrisjaktAPI.Answer) : PrisjaktAPI.Endpoint :=
  {| PrisjaktAPI.post := fun _ _ => a |}.

(** An answer with one product, and what the client keeps of it. *)
Definition oneProductAnswer : PrisjaktAPI.Answer :=
  PrisjaktAPI.Answered true
    (Some (VObj [("products",
                  VArr [VObj [("id", VStr "1"); ("name", VStr "RAM")]])])).

Definition oneProduct : PrisjaktAPI.Product :=
  {| PrisjaktAPI.id := VStr "1";
     PrisjaktAPI.name := VStr "RAM";
     PrisjaktAPI.price := VUndef;
     PrisjaktAPI.currency := VStr "SEK";
     PrisjaktAPI.store := VStr "Unknown";
     PrisjaktAPI.storeUrl := VStr "";
     PrisjaktAPI.availability := VBool false;
     PrisjaktAPI.imageUrl := VUndef |}.

(** ** Accepted rows, and more examples *)

(** A go-to-shop row [m] of the page that the loop of the product-page
    extractor accepts, with the store label [s] and the price [n] it reads
    from the row: the label is neither empty nor matched by the noise
    expression (source line 272), the price-label expression of line 277
    matches in the row, which asks for a label made of digits, white space
    and the letters of the no-break-space entity, followed by [kr] or
    [sek], and the number read from the label is finite and positive
    (line 281). *)
Definition acceptedRow (html : string) (m : matched) (s : string) (n : number)
    : Prop :=
  In m (execAll offerRegex 0 html) /\
  s = offerStore (group 2 m) /\
  nonEmptyString s = true /\
  test offerNoiseRe s = false /\
  exists priceMatch,
    search priceLabelRe (group 2 m) = Some priceMatch /\
    n = parsePrice (replaceAll nbspRe "" (group 1 priceMatch)) /\
    isFinite n = true /\ isPositive n = true.

(** A product page with two go-to-shop rows of one store, the second one
    cheaper and with a price in kronor and ore. *)
Definition decimalPage : string :=
  ("<h1>Vengeance 32GB</h1>"
   ++ offerRow "1" "Inet" "1 299" "IconStockInStock"
   ++ offerRow "2" "Inet" "1 199,50" "IconStockInStock")%string.

(** A product page with two go-to-shop rows of one store whose prices are
    different numerals of one double (2^53 + 1 is not a double and is read
    as 2^53). *)
Definition tiePage : string :=
  ("<h1>Vengeance 32GB</h1>"
   ++ offerRow "1" "Inet" "9007199254740993" "IconStockInStock"
   ++ offerRow "2" "Inet" "9007199254740992" "IconStockIncoming")%string.




(** The lower-case letter of a capital A-Z; every other character is left
    as it is. *)
Definition lowerAscii (c : ascii) : ascii :=
  if between 65 90 c then ascii_of_nat (code c + 32) else c.

Fixpoint toLowerAscii (s : string) : string :=
  match s with
  | EmptyString => EmptyString
  | String c t => String (lowerAscii c) (toLowerAscii t)
  end.

(** A character of the ASCII range. *)
Definition isAscii (c : ascii) : bool := (code c <? 128)%nat.

(** The store of an offer with its capitals A-Z in lower case, when the
    store is a string. *)
Definition storeAscii (p : PrisjaktProduct) : string :=
  match store p with
  | VStr s => toLowerAscii s
  | _ => EmptyString
  end.

(** * Properties *)

(** ** Exceptions *)

Lemma bind_Ok_inv :
  forall (A B : Type) (c : outcome A) (k : A -> outcome B) (b : B),
    bind c k = Ok b -> exists a, c = Ok a /\ k a = Ok b.
Proof.
  intros A B [a|] k b E; simpl in E; [eauto | discriminate].
Qed.

Ltac bind_inv E :=
  let a := fresh "x" in
  let Ea := fresh "E" in
  apply bind_Ok_inv in E; destruct E as (a & Ea & E).

Lemma tryCatch_returns :
  forall (A : Type) (body : outcome A) (handler : A),
    exists a, tryCatch body handler = Ok a.
Proof.
  intros A [a|] handler; simpl; eauto.
Qed.

(** ** The matcher consumes what it matches *)

Section Progress.
Context {R : Type}.

Lemma orElse_Some :
  forall (a : option R) (b : unit -> option R) (x : R),
    orElse a b = Some x -> a = Some x \/ b tt = Some x.
Proof. intros [y|] b x E; simpl in E; auto. Qed.

Lemma repGreedy_shrinks :
  forall p s lo hi (k : string -> option R) x,
    repGreedy p lo hi s k = Some x ->
    exists s', String.length s' + lo <= String.length s + 0 /\ k s' = Some x.
Proof.
  intros p. induction s as [|c t IH]; intros lo hi k x E; simpl in E.
  - destruct lo; [|discriminate E]. exists "". split; [simpl; lia | exact E].
  - assert (Hstop : match lo with 0 => k (String c t) | S _ => None end = Some x ->
              exists s', String.length s' + lo <= String.length (String c t) + 0
                         /\ k s' = Some x).
    { destruct lo; [|discriminate]. intro Ek. exists (String c t).
      split; [lia | exact Ek]. }
    destruct (canRepeat hi && p c).
    + apply orElse_Some in E. destruct E as [E|E]; [|apply Hstop, E].
      apply IH in E. destruct E as (s' & Hl & Ek).
      exists s'. split; [simpl; lia | exact Ek].
    + apply Hstop, E.
Qed.

Lemma repLazy_shrinks :
  forall p s lo hi (k : string -> option R) x,
    repLazy p lo hi s k = Some x ->
    exists s', String.length s' + lo <= String.length s + 0 /\ k s' = Some x.
Proof.
  intros p. induction s as [|c t IH]; intros lo hi k x E; simpl in E.
  - destruct lo; [|discriminate E].
    apply orElse_Some in E. destruct E as [E|E]; [|discriminate E].
    exists "". split; [simpl; lia | exact E].
  - assert (Hmore : (if canRepeat hi && p c
                     then repLazy p (pred lo) (option_map pred hi) t k
                     else None) = Some x ->
              exists s', String.length s' + lo <= String.length (String c t) + 0
                         /\ k s' = Some x).
    { destruct (canRepeat hi && p c); [|discriminate]. intro Er.
      apply IH in Er. destruct Er as (s' & Hl & Ek).
      exists s'. split; [simpl; lia | exact Ek]. }
    destruct lo.
    + apply orElse_Some in E. destruct E as [E|E]; [|apply Hmore, E].
      exists (String c t). split; [lia | exact E].
    + apply Hmore, E.
Qed.

(** A match hands to its continuation a text no longer than the one it
    started on, and a shorter one when the expression is not nullable. *)
Lemma run_shrinks :
  forall r s cs (k : string -> captures -> option R) x,
    run r s cs k = Some x ->
    exists s' cs',
      String.length s' + (if nullable r then 0 else 1) <= String.length s /\
      k s' cs' = Some x.
Proof.
  induction r as [| p | g p lo hi | r1 IH1 r2 IH2 | r1 IH1 r2 IH2 | r1 IH1 | n r1 IH1];
    intros s cs k x E; simpl in E.
  - exists s, cs. split; [simpl; lia | exact E].
  - destruct s as [|c t]; [discriminate E|].
    destruct (p c); [|discriminate E].
    exists t, cs. split; [simpl; lia | exact E].
  - assert (Hrep : exists s', String.length s' + lo <= String.length s + 0
                              /\ k s' cs = Some x).
    { destruct g; [apply repGreedy_shrinks in E | apply repLazy_shrinks in E]; exact E. }
    destruct Hrep as (s' & Hl & Ek). exists s', cs. split; [|exact Ek].
    simpl. destruct lo; simpl; lia.
  - apply IH1 in E. destruct E as (s1 & cs1 & Hl1 & E).
    apply IH2 in E. destruct E as (s2 & cs2 & Hl2 & E).
    exists s2, cs2. split; [|exact E].
    simpl. destruct (nullable r1), (nullable r2); simpl in *; lia.
  - apply orElse_Some in E. destruct E as [E|E].
    + apply IH1 in E. destruct E as (s1 & cs1 & Hl1 & E).
      exists s1, cs1. split; [|exact E].
      simpl. destruct (nullable r1), (nullable r2); simpl in *; lia.
    + apply IH2 in E. destruct E as (s1 & cs1 & Hl1 & E).
      exists s1, cs1. split; [|exact E].
      simpl. destruct (nullable r1), (nullable r2); simpl in *; lia.
  - apply orElse_Some in E. destruct E as [E|E].
    + apply IH1 in E. destruct E as (s1 & cs1 & Hl1 & E).
      exists s1, cs1. split; [|exact E]. simpl.
      destruct (nullable r1); lia.
    + exists s, cs. split; [simpl; lia | exact E].
  - apply IH1 in E. destruct E as (s1 & cs1 & Hl1 & E).
    eexists s1, _. split; [exact Hl1 | exact E].
Qed.
End Progress.

Lemma substring_nonempty :
  forall n s, 0 < n -> 0 < String.length s -> substring 0 n s <> "".
Proof.
  intros [|n] [|c t] Hn Hs; simpl in *; try lia. discriminate.
Qed.

(** An expression that is not nullable never matches the empty string. *)
Lemma matchHere_nonempty :
  forall r s m, nullable r = false -> matchHere r s = Some m -> whole m <> "".
Proof.
  intros r s m Hr E. unfold matchHere in E.
  apply run_shrinks in E. destruct E as (s' & cs' & Hl & E).
  rewrite Hr in Hl. injection E as <-. simpl. unfold consumed.
  apply substring_nonempty; lia.
Qed.

(** The three loops over [exec] results use expressions that are not
    nullable: each turn moves on in the document. *)
Lemma loops_progress :
  forall s m,
    (matchHere scriptRegex s = Some m -> whole m <> "") /\
    (matchHere productBlockRegex s = Some m -> whole m <> "") /\
    (matchHere offerRegex s = Some m -> whole m <> "").
Proof.
  intros s m. repeat split; apply matchHere_nonempty; reflexivity.
Qed.

(** ** [dedupeProducts] *)

Section Dedupe.
Context {H : Host}.

Lemma setHas_In : forall k seen, setHas k seen = true <-> In k seen.
Proof.
  intros k seen. unfold setHas. rewrite existsb_exists. split.
  - intros (x & Hx & E). apply String.eqb_eq in E. subst. exact Hx.
  - intro Hk. exists k. split; [exact Hk | apply String.eqb_refl].
Qed.

Lemma setHas_ext :
  forall k s1 s2, (forall x, In x s1 <-> In x s2) -> setHas k s1 = setHas k s2.
Proof.
  intros k s1 s2 E.
  destruct (setHas k s1) eqn:E1, (setHas k s2) eqn:E2; try reflexivity.
  - apply setHas_In, E, setHas_In in E1. congruence.
  - apply setHas_In, E, setHas_In in E2. congruence.
Qed.

Lemma pick_ext :
  forall kps s1 s2, (forall x, In x s1 <-> In x s2) -> pick s1 kps = pick s2 kps.
Proof.
  induction kps as [|[k p] rest IH]; intros s1 s2 E; simpl; [reflexivity|].
  rewrite (setHas_ext k s1 s2 E).
  destruct (setHas k s2); [apply IH, E|].
  f_equal. apply IH. intro x. simpl. rewrite E. reflexivity.
Qed.

(** The array [out] only ever grows at its end. *)
Lemma dedupeLoop_out :
  forall l seen out,
    dedupeLoop l seen out = (r <- dedupeLoop l seen [] ;; Ok (out ++ r)).
Proof.
  induction l as [|p rest IH]; intros seen out; simpl.
  - rewrite app_nil_r. reflexivity.
  - destruct (dedupeKey p) as [k|]; simpl; [|reflexivity].
    destruct (setHas k seen); simpl.
    + apply IH.
    + rewrite (IH _ (out ++ [p])), (IH _ [p]).
      destruct (dedupeLoop rest (k :: seen) []); simpl; [|reflexivity].
      rewrite <- app_assoc. reflexivity.
Qed.

(** The loop returns exactly when every key can be built, and then returns
    what [pick] keeps. *)
Lemma dedupeLoop_pick :
  forall l seen y,
    dedupeLoop l seen [] = Ok y <->
    exists ks, hasKeys l ks /\ y = pick seen (combine ks l).
Proof.
  induction l as [|p rest IH]; intros seen y; simpl.
  - split.
    + intro E. injection E as <-. exists []. split; [constructor | reflexivity].
    + intros (ks & Hk & ->). inversion Hk; subst. reflexivity.
  - split.
    + intro E. bind_inv E.
      destruct (setHas x seen) eqn:Hs; simpl in E.
      * apply IH in E. destruct E as (ks & Hk & ->).
        exists (x :: ks). split; [constructor; assumption|].
        simpl. rewrite Hs. reflexivity.
      * rewrite dedupeLoop_out in E. bind_inv E. injection E as <-.
        apply IH in E1. destruct E1 as (ks & Hk & ->).
        exists (x :: ks). split; [constructor; assumption|].
        simpl. rewrite Hs. reflexivity.
    + intros (ks & Hk & ->). inversion Hk as [|p' k rest' ks' Ek Hk']; subst.
      rewrite Ek. simpl. destruct (setHas k seen) eqn:Hs; simpl.
      * apply IH. exists ks'. split; [assumption | reflexivity].
      * rewrite dedupeLoop_out.
        assert (E : dedupeLoop rest (k :: seen) []
                    = Ok (pick (k :: seen) (combine ks' rest))).
        { apply IH. exists ks'. split; [assumption | reflexivity]. }
        rewrite E. reflexivity.
Qed.

Lemma hasKeys_fun :
  forall l ks1 ks2, hasKeys l ks1 -> hasKeys l ks2 -> ks1 = ks2.
Proof.
  induction l as [|p rest IH]; intros ks1 ks2 H1 H2;
    inversion H1; inversion H2; subst; [reflexivity|].
  f_equal; [congruence | apply IH; assumption].
Qed.

Lemma hasKeys_length :
  forall l ks, hasKeys l ks -> List.length ks = List.length l.
Proof. intros l ks Hk. symmetry. eapply Forall2_length, Hk. Qed.

Lemma hasKeys_In :
  forall l ks k p, hasKeys l ks -> In (k, p) (combine ks l) -> dedupeKey p = Ok k.
Proof.
  induction l as [|q rest IH]; intros ks k p Hk Hin;
    inversion Hk; subst; simpl in Hin; [contradiction|].
  destruct Hin as [E|Hin]; [injection E as <- <-; assumption | eauto].
Qed.

Lemma hasKeys_fst :
  forall l ks, hasKeys l ks -> map fst (combine ks l) = ks.
Proof.
  induction l as [|q rest IH]; intros ks Hk; inversion Hk; subst; simpl;
    [reflexivity | f_equal; auto].
Qed.

Lemma hasKeys_snd :
  forall l ks, hasKeys l ks -> map snd (combine ks l) = l.
Proof.
  induction l as [|q rest IH]; intros ks Hk; inversion Hk; subst; simpl;
    [reflexivity | f_equal; auto].
Qed.

Lemma hasKeys_key_In :
  forall l ks k, hasKeys l ks -> In k ks -> exists q, In q l /\ dedupeKey q = Ok k.
Proof.
  induction l as [|q rest IH]; intros ks k Hk Hin;
    inversion Hk; subst; simpl in Hin; [contradiction|].
  destruct Hin as [<-|Hin].
  - exists q. split; [left; reflexivity | assumption].
  - destruct (IH _ _ H4 Hin) as (q' & Hq & E). exists q'. split; [right|]; assumption.
Qed.

Lemma hasKeys_In_key :
  forall l ks q k, hasKeys l ks -> In q l -> dedupeKey q = Ok k -> In k ks.
Proof.
  induction l as [|p rest IH]; intros ks q k Hk Hin E;
    inversion Hk; subst; simpl in Hin; [contradiction|].
  destruct Hin as [<-|Hin]; [left; congruence | right; eauto].
Qed.

Lemma pick_length :
  forall kps seen, List.length (pick seen kps) <= List.length kps.
Proof.
  induction kps as [|[k p] rest IH]; intro seen; simpl; [lia|].
  destruct (setHas k seen); simpl.
  - specialize (IH seen). lia.
  - specialize (IH (k :: seen)). lia.
Qed.

(** Every offer kept by the loop has a key outside [seen]. *)
Lemma pick_fresh :
  forall kps seen p,
    In p (pick seen kps) -> exists k, In (k, p) kps /\ ~ In k seen.
Proof.
  induction kps as [|[k q] rest IH]; intros seen p Hp; simpl in Hp; [contradiction|].
  destruct (setHas k seen) eqn:Hs.
  - destruct (IH _ _ Hp) as (k' & Hin & Hn).
    exists k'. split; [right; exact Hin | exact Hn].
  - destruct Hp as [<-|Hp].
    + exists k. split; [left; reflexivity|]. rewrite <- setHas_In. congruence.
    + destruct (IH _ _ Hp) as (k' & Hin & Hn). exists k'.
      split; [right; exact Hin|]. intro Hk. apply Hn. right. exact Hk.
Qed.

Lemma pick_app :
  forall a b seen,
    pick seen (a ++ b) = pick seen a ++ pick (rev (map fst a) ++ seen) b.
Proof.
  induction a as [|[k p] rest IH]; intros b seen; simpl; [reflexivity|].
  destruct (setHas k seen) eqn:Hs.
  - rewrite IH. f_equal. apply pick_ext. intro x.
    rewrite !in_app_iff. simpl.
    apply setHas_In in Hs. split; [tauto|].
    intros [[Hx|[<-|[]]]|Hx]; tauto.
  - simpl. rewrite IH. f_equal. f_equal. apply pick_ext. intro x.
    rewrite !in_app_iff. simpl. tauto.
Qed.

(** Offers with pairwise different keys, none of them seen, are all kept. *)
Lemma pick_all :
  forall kps seen,
    NoDup (map fst kps) -> (forall k, In k (map fst kps) -> ~ In k seen) ->
    pick seen kps = map snd kps.
Proof.
  induction kps as [|[k p] rest IH]; intros seen Hnd Hfresh; simpl; [reflexivity|].
  simpl in Hnd. inversion Hnd as [|? ? Hk Hnd']; subst.
  destruct (setHas k seen) eqn:Hs.
  - apply setHas_In in Hs. exfalso. apply (Hfresh k); [left; reflexivity | exact Hs].
  - f_equal. apply IH; [exact Hnd'|].
    intros k' Hk' [<-|Hin]; [contradiction|].
    apply (Hfresh k'); [right; exact Hk' | exact Hin].
Qed.

(** The kept offers, paired with their keys: the keys are pairwise
    different and unseen. *)
Lemma pick_keys :
  forall kps seen,
    exists kept : list (string * PrisjaktProduct),
      map snd kept = pick seen kps /\ NoDup (map fst kept) /\
      (forall k, In k (map fst kept) -> ~ In k seen) /\
      (forall kp, In kp kept -> In kp kps).
Proof.
  induction kps as [|[k p] rest IH]; intro seen; simpl.
  - exists []. repeat split; [constructor | intros k [] | intros kp []].
  - destruct (setHas k seen) eqn:Hs.
    + destruct (IH seen) as (kept & E & Hnd & Hf & Hsub).
      exists kept. repeat split; auto.
    + destruct (IH (k :: seen)) as (kept & E & Hnd & Hf & Hsub).
      exists ((k, p) :: kept). simpl. repeat split.
      * f_equal. exact E.
      * constructor; [|exact Hnd]. intro Hk. apply (Hf k Hk). left. reflexivity.
      * intros k' [<-|Hk'].
        -- rewrite <- setHas_In. congruence.
        -- intro Hin. apply (Hf k' Hk'). right. exact Hin.
      * intros kp [<-|Hkp]; [left; reflexivity | right; apply Hsub, Hkp].
Qed.

Lemma hasKeys_of_pairs :
  forall (kept : list (string * PrisjaktProduct)),
    (forall k p, In (k, p) kept -> dedupeKey p = Ok k) ->
    hasKeys (map snd kept) (map fst kept).
Proof.
  induction kept as [|[k p] rest IH]; intro Hall; simpl; constructor.
  - apply Hall. left. reflexivity.
  - apply IH. intros k' p' Hin. apply Hall. right. exact Hin.
Qed.

Lemma combine_fst_snd :
  forall (A B : Type) (l : list (A * B)), combine (map fst l) (map snd l) = l.
Proof.
  induction l as [|[a b] rest IH]; simpl; [reflexivity | f_equal; exact IH].
Qed.

(** What [dedupeProducts] returns, it returns unchanged when given it. *)
Lemma dedupeProducts_fixed :
  forall x y, dedupeProducts x = Ok y -> dedupeProducts y = Ok y.
Proof.
  unfold dedupeProducts. intros x y E.
  apply dedupeLoop_pick in E. destruct E as (ks & Hk & ->).
  destruct (pick_keys (combine ks x) []) as (kept & E & Hnd & _ & Hsub).
  apply dedupeLoop_pick. exists (map fst kept). rewrite <- E. split.
  - apply hasKeys_of_pairs. intros k p Hin. eapply hasKeys_In; eauto.
  - rewrite combine_fst_snd. symmetry. apply pick_all; [exact Hnd|].
    intros k _ [].
Qed.

Lemma dedupeProducts_incl :
  forall x y, dedupeProducts x = Ok y -> incl y x.
Proof.
  unfold dedupeProducts. intros x y E p Hp.
  apply dedupeLoop_pick in E. destruct E as (ks & Hk & ->).
  apply pick_fresh in Hp. destruct Hp as (k & Hin & _).
  apply in_combine_r in Hin. exact Hin.
Qed.

(** [dedupeProducts] returns whenever the key of every offer can be built,
    as it can when name, store and store URL are strings. *)
Lemma dedupeProducts_returns :
  forall x, Forall textFields x -> exists y, dedupeProducts x = Ok y.
Proof.
  intros x Hx.
  assert (Hk : exists ks, hasKeys x ks).
  { induction Hx as [|p rest (n & s & u & En & Es & Eu) _ (ks & IH)].
    - exists []. constructor.
    - exists ((n ++ "|" ++ s ++ "|" ++ u)%string :: ks). constructor; [|exact IH].
      unfold dedupeKey. rewrite En, Es, Eu. reflexivity. }
  destruct Hk as (ks & Hk). exists (pick [] (combine ks x)).
  apply dedupeLoop_pick. exists ks. split; [exact Hk | reflexivity].
Qed.

End Dedupe.

Lemma hasKeys_combine_app :
  forall (H : Host) a b ka kb,
    hasKeys a ka ->
    combine (ka ++ kb) (a ++ b) = combine ka a ++ combine kb b.
Proof.
  intros H a b ka kb Hk. induction Hk as [|p k a' ka' _ _ IH]; simpl;
    [reflexivity | f_equal; exact IH].
Qed.

(** The identity key is the template literal of source line 341: the
    texts of name, store and store address joined by vertical bars. *)
Lemma dedupeKey_spec :
  forall (H : Host) (p : PrisjaktProduct) (k : string),
    dedupeKey p = Ok k <->
    exists n s u,
      toStr (name p) = Ok n /\ toStr (store p) = Ok s /\
      toStr (storeUrl p) = Ok u /\ k = (n ++ "|" ++ s ++ "|" ++ u)%string.
Proof.
  intros H p k. unfold dedupeKey.
  destruct (toStr (name p)) as [n|]; cbn [bind].
  - destruct (toStr (store p)) as [s|]; cbn [bind].
    + destruct (toStr (storeUrl p)) as [u|]; cbn [bind].
      * split.
        -- intros E. injection E as <-. exists n, s, u. auto.
        -- intros (n' & s' & u' & En & Es & Eu & ->).
           injection En as <-. injection Es as <-. injection Eu as <-. reflexivity.
      * split; [discriminate | intros (n' & s' & u' & _ & _ & Eu & _); discriminate Eu].
    + split; [discriminate | intros (n' & s' & u' & _ & Es & _); discriminate Es].
  - split; [discriminate | intros (n' & s' & u' & En & _); discriminate En].
Qed.

Lemma dedupeKey_text :
  forall (H : Host) (p : PrisjaktProduct) (n s u : string),
    name p = VStr n -> store p = VStr s -> storeUrl p = VStr u ->
    dedupeKey p = Ok (n ++ "|" ++ s ++ "|" ++ u)%string.
Proof.
  intros H p n s u En Es Eu. unfold dedupeKey. rewrite En, Es, Eu. reflexivity.
Qed.

(** C7. [dedupeProducts] is idempotent (running it on its own result changes
    nothing, and it throws on a list exactly when it threw before); its
    result is never longer than its input; it returns whenever the three
    key fields of every offer are strings; the identity key of an offer is
    the text of its name, of its store and of its store address joined by
    vertical bars, [name|store|storeUrl], and exists exactly when each of
    the three has a text; and for every offer [p] of the input, with [pre]
    before it and [post] after it: the result starts with the result for
    [pre], continues with [p] exactly when no offer of [pre] has the
    identity key of [p], and holds no later offer with that key. So of the
    offers that share a key the first one is kept, in its place. *)
Theorem dedupeProducts_first_occurrence_wins :
  forall (H : Host) (x : list PrisjaktProduct),
    (y <- dedupeProducts x ;; dedupeProducts y) = dedupeProducts x /\
    (forall y, dedupeProducts x = Ok y -> List.length y <= List.length x) /\
    (Forall textFields x -> exists y, dedupeProducts x = Ok y) /\
    (forall p k,
       dedupeKey p = Ok k <->
       exists n s u,
         toStr (name p) = Ok n /\ toStr (store p) = Ok s /\
         toStr (storeUrl p) = Ok u /\ k = (n ++ "|" ++ s ++ "|" ++ u)%string) /\
    (forall p n s u,
       name p = VStr n -> store p = VStr s -> storeUrl p = VStr u ->
       dedupeKey p = Ok (n ++ "|" ++ s ++ "|" ++ u)%string) /\
    (forall pre p post y,
       x = pre ++ p :: post -> dedupeProducts x = Ok y ->
       exists y0 y1 k,
         dedupeProducts pre = Ok y0 /\ dedupeKey p = Ok k /\
         (forall q, In q y1 -> dedupeKey q <> Ok k) /\
         ((exists q, In q pre /\ dedupeKey q = Ok k) /\ y = y0 ++ y1 \/
          (forall q, In q pre -> dedupeKey q <> Ok k) /\ y = y0 ++ p :: y1)).
Proof.
  intros H x. split; [|split; [|split; [|split; [|split]]]].
  - destruct (dedupeProducts x) as [y|] eqn:E; simpl; [|reflexivity].
    eapply dedupeProducts_fixed, E.
  - intros y E. unfold dedupeProducts in E.
    apply dedupeLoop_pick in E. destruct E as (ks & Hk & ->).
    etransitivity; [apply pick_length|].
    rewrite length_combine, (hasKeys_length _ _ Hk). lia.
  - apply dedupeProducts_returns.
  - intros p k. apply dedupeKey_spec.
  - intros p n s u. apply dedupeKey_text.
  - intros pre p post y -> E. unfold dedupeProducts in *.
    apply dedupeLoop_pick in E. destruct E as (ks & Hk & ->).
    apply Forall2_app_inv_l in Hk.
    destruct Hk as (ka & kb' & Ha & Hb & ->).
    inversion Hb as [|p' k post' kb Ek Hpost]; subst.
    rewrite (hasKeys_combine_app H pre (p :: post) ka (k :: kb) Ha).
    rewrite pick_app, (hasKeys_fst _ _ Ha), app_nil_r. simpl.
    exists (pick [] (combine ka pre)).
    assert (E0 : dedupeLoop pre [] [] = Ok (pick [] (combine ka pre))).
    { apply dedupeLoop_pick. exists ka. split; [exact Ha | reflexivity]. }
    assert (Hlater : forall seen q,
               In k seen -> In q (pick seen (combine kb post)) ->
               dedupeKey q <> Ok k).
    { intros seen q Hseen Hq Eq. apply pick_fresh in Hq.
      destruct Hq as (k' & Hin & Hn).
      pose proof (hasKeys_In _ _ _ _ Hpost Hin) as Ek'.
      rewrite Eq in Ek'. injection Ek' as <-. contradiction. }
    destruct (setHas k (rev ka)) eqn:Hs.
    + exists (pick (rev ka) (combine kb post)), k.
      apply setHas_In in Hs.
      repeat split; [exact E0 | exact Ek | |].
      * intros q Hq. eapply Hlater; eauto.
      * left. split; [|reflexivity].
        apply hasKeys_key_In with (ks := ka); [exact Ha|].
        apply in_rev. exact Hs.
    + exists (pick (k :: rev ka) (combine kb post)), k.
      repeat split; [exact E0 | exact Ek | |].
      * intros q Hq. eapply Hlater; [|exact Hq]. left. reflexivity.
      * right. split; [|reflexivity].
        intros q Hq Eq.
        assert (Hin : In k (rev ka)).
        { apply -> in_rev. eapply hasKeys_In_key; eauto. }
        apply setHas_In in Hin. congruence.
Qed.

(** ** [toAvailability] *)

(** C4, as stated, fails: fed the canonical value [not_available] the
    function answers [in_stock] (the text contains the token "available"),
    and fed [incoming] it answers [not_available]. *)
Lemma toAvailability_round_trip_fails :
  ~ (forall v : AvailabilityStatus, toAvailability (Some (statusText v)) = v).
Proof.
  intro Hall. specialize (Hall not_available). vm_compute in Hall. discriminate Hall.
Qed.

(** C4, amended. [toAvailability] is total: every string, the empty string
    and [undefined] are mapped to one of the three statuses, the last two to
    [not_available]. Of the three canonical values only [in_stock] is mapped
    to itself: [incoming] is mapped to [not_available] and [not_available]
    to [in_stock]. *)
Theorem toAvailability_total_in_stock_fixed :
  (forall avail : option string,
     toAvailability avail = in_stock \/
     toAvailability avail = incoming \/
     toAvailability avail = not_available) /\
  toAvailability None = not_available /\
  toAvailability (Some "") = not_available /\
  (forall v : AvailabilityStatus,
     toAvailability (Some (statusText v)) = v <-> v = in_stock) /\
  toAvailability (Some "incoming") = not_available /\
  toAvailability (Some "not_available") = in_stock.
Proof.
  repeat split.
  - intro avail. destruct (toAvailability avail); auto.
  - destruct v; vm_compute; intro E; discriminate E || reflexivity.
  - intros ->. reflexivity.
Qed.

(** ** Numbers *)

Lemma not_lessEq_zero_isPositive :
  forall n, isFinite n = true -> lessEq n zero = negb (isPositive n).
Proof.
  intros [| b | q] Hf; try discriminate Hf.
  unfold isPositive, zero, lessThan, lessEq, Qltb. rewrite negb_involutive. reflexivity.
Qed.

(** The guard [!Number.isFinite(price) || price <= 0] lets through the
    positive finite numbers, and only them. *)
Lemma price_guard :
  forall n,
    negb (isFinite n) || lessEq n zero = false <->
    isFinite n = true /\ isPositive n = true.
Proof.
  intro n. rewrite orb_false_iff, negb_false_iff. split.
  - intros (Hf & Hle). split; [exact Hf|].
    rewrite (not_lessEq_zero_isPositive n Hf) in Hle.
    apply negb_false_iff in Hle. exact Hle.
  - intros (Hf & Hp). split; [exact Hf|].
    rewrite (not_lessEq_zero_isPositive n Hf), Hp. reflexivity.
Qed.

(** ** [filterPrisjaktStore] *)

Section Filter.
Context {H : Host}.

Lemma filterPrisjaktStore_incl :
  forall l r, filterPrisjaktStore l = Ok r -> incl r l.
Proof.
  induction l as [|p rest IH]; intros r E; simpl in E.
  - injection E as <-. apply incl_refl.
  - bind_inv E. bind_inv E. injection E as <-.
    specialize (IH _ E1).
    destruct (test prisjaktRe x).
    + apply incl_tl, IH.
    + apply incl_cons; [left; reflexivity | apply incl_tl, IH].
Qed.

(** Offers whose store is the literal [Prisjakt] are all dropped. *)
Lemma filterPrisjaktStore_brand :
  forall l, Forall (fun p => store p = VStr "Prisjakt") l ->
    filterPrisjaktStore l = Ok [].
Proof.
  induction 1 as [|p rest Ep _ IH]; simpl; [reflexivity|].
  rewrite Ep, IH. reflexivity.
Qed.

(** The filter returns when every store is a string. *)
Lemma filterPrisjaktStore_returns :
  forall l, Forall textFields l -> exists r, filterPrisjaktStore l = Ok r.
Proof.
  induction 1 as [|p rest (n & s & u & _ & Es & _) _ (r & IH)]; simpl.
  - eauto.
  - rewrite Es, IH. simpl. eauto.
Qed.

End Filter.

(** ** Loops that skip *)

Lemma collectSome_In :
  forall (A B : Type) (f : A -> option B) (l : list A) (y : B),
    In y (collectSome f l) <-> exists x, In x l /\ f x = Some y.
Proof.
  intros A B f l y. induction l as [|a rest IH]; simpl.
  - split; [intros [] | intros (x & [] & _)].
  - destruct (f a) as [b|] eqn:Ea; simpl; rewrite IH; split.
    + intros [<-|(x & Hx & E)]; [exists a | exists x]; auto.
    + intros (x & [<-|Hx] & E); [left; congruence | right; eauto].
    + intros (x & Hx & E). exists x. auto.
    + intros (x & [<-|Hx] & E); [congruence | eauto].
Qed.

Lemma collectSome_Forall :
  forall (A B : Type) (f : A -> option B) (P : B -> Prop) (l : list A),
    (forall x y, f x = Some y -> P y) -> Forall P (collectSome f l).
Proof.
  intros A B f P l Hf. apply Forall_forall. intros y Hy.
  apply collectSome_In in Hy. destruct Hy as (x & _ & E). eauto.
Qed.

(** ** The naive pattern extractor *)

(** An anchor block yields an offer exactly when it has a title and a
    positive finite price; the offer then carries both, and the brand of the
    host as its store. *)
Lemma naiveOffer_Some :
  forall m p,
    naiveOffer m = Some p ->
    nonEmptyString (blockName (group 2 m)) = true /\
    isFinite (loosePrice (group 2 m)) = true /\
    isPositive (loosePrice (group 2 m)) = true /\
    name p = VStr (blockName (group 2 m)) /\
    price p = loosePrice (group 2 m) /\
    store p = VStr "Prisjakt" /\
    exists u, storeUrl p = VStr u.
Proof.
  unfold naiveOffer. intros m p E.
  destruct (nonEmptyString (blockName (group 2 m))) eqn:Hn; simpl in E;
    [|discriminate E].
  destruct (negb (isFinite (loosePrice (group 2 m)))
            || lessEq (loosePrice (group 2 m)) zero) eqn:Hp; [discriminate E|].
  apply price_guard in Hp. destruct Hp as (Hf & Hpos).
  injection E as <-. simpl. repeat split; eauto.
Qed.

Lemma naiveOffer_None :
  forall m,
    naiveOffer m = None <->
    nonEmptyString (blockName (group 2 m)) = false \/
    isFinite (loosePrice (group 2 m)) = false \/
    isPositive (loosePrice (group 2 m)) = false.
Proof.
  intro m. unfold naiveOffer.
  destruct (nonEmptyString (blockName (group 2 m))) eqn:Hn; simpl.
  - destruct (negb (isFinite (loosePrice (group 2 m)))
              || lessEq (loosePrice (group 2 m)) zero) eqn:Hp.
    + split; [intros _ | reflexivity]. right.
      destruct (isFinite (loosePrice (group 2 m))) eqn:Hf; [|left; reflexivity].
      right. simpl in Hp.
      rewrite (not_lessEq_zero_isPositive _ Hf) in Hp.
      apply negb_true_iff in Hp. exact Hp.
    + apply price_guard in Hp. destruct Hp as (Hf & Hpos).
      split; [discriminate | intros [E|[E|E]]; congruence].
  - split; [left; reflexivity | reflexivity].
Qed.

Lemma naiveOffer_wellFormed :
  forall m p, naiveOffer m = Some p -> wellFormed p /\ textFields p.
Proof.
  intros m p E. apply naiveOffer_Some in E.
  destruct E as (Hn & Hf & Hpos & En & Ep & Es & (u & Eu)).
  split.
  - unfold wellFormed, goodPrice. rewrite En, Ep, Es. repeat split; assumption.
  - exists (blockName (group 2 m)), "Prisjakt", u. auto.
Qed.

Lemma In_firstn :
  forall (A : Type) (n : nat) (l : list A) (x : A), In x (firstn n l) -> In x l.
Proof.
  intros A n l x Hx. rewrite <- (firstn_skipn n l).
  apply in_or_app. left. exact Hx.
Qed.

(** Distinct keys survive the cut to the first [n] elements. *)
Lemma hasKeys_firstn :
  forall (H : Host) n l ks,
    hasKeys l ks -> NoDup ks ->
    hasKeys (firstn n l) (firstn n ks) /\ NoDup (firstn n ks).
Proof.
  intros H n l ks Hk Hnd. split.
  - clear Hnd. revert n. unfold hasKeys in *.
    induction Hk as [|p k l' ks' E _ IH]; intros [|n]; simpl;
      constructor; [exact E | apply IH].
  - rewrite <- (firstn_skipn n ks) in Hnd. apply NoDup_app_remove_r in Hnd. exact Hnd.
Qed.

(** What [dedupeProducts] returns has pairwise different keys. *)
Lemma dedupeProducts_distinct :
  forall (H : Host) x y,
    dedupeProducts x = Ok y -> exists ks, hasKeys y ks /\ NoDup ks.
Proof.
  unfold dedupeProducts. intros H x y E.
  apply dedupeLoop_pick in E. destruct E as (ks & Hk & ->).
  destruct (pick_keys (combine ks x) []) as (kept & E & Hnd & _ & Hsub).
  exists (map fst kept). rewrite <- E. split; [|exact Hnd].
  apply hasKeys_of_pairs. intros k p Hin. eapply hasKeys_In; eauto.
Qed.

(** The naive extractor returns, at most ten offers, each from an anchor
    block of the document, with pairwise different identity keys. *)
Lemma naive_offers_from_blocks :
  forall (H : Host) (html : string),
    exists offers,
      extractProductsNaively html = Ok offers /\
      List.length offers <= 10 /\
      (forall p, In p offers ->
         wellFormed p /\
         exists m, In m (execAll productBlockRegex 0 html) /\
                   naiveOffer m = Some p) /\
      exists keys, hasKeys offers keys /\ NoDup keys.
Proof.
  intros H html. unfold extractProductsNaively.
  destruct (dedupeProducts_returns (naiveResults html)) as (y & Ey).
  { apply collectSome_Forall. intros m p E. apply naiveOffer_wellFormed in E. tauto. }
  rewrite Ey. simpl. exists (firstn 10 y).
  split; [reflexivity|]. split; [apply firstn_le_length|]. split.
  - intros p Hp. apply In_firstn in Hp.
    apply (dedupeProducts_incl _ _ Ey) in Hp.
    apply collectSome_In in Hp. destruct Hp as (m & Hm & E). split.
    + apply naiveOffer_wellFormed in E. apply E.
    + exists m. split; assumption.
  - destruct (dedupeProducts_distinct _ _ _ Ey) as (ks & Hk & Hnd).
    exists (firstn 10 ks). apply hasKeys_firstn; assumption.
Qed.

(** C8. For every document: an anchor block is skipped exactly when it
    lacks a non-empty title or a positive finite price; the extractor
    returns; it returns at most ten offers; each of them comes from an
    anchor block of the document and has a non-empty name and a positive
    finite price; and their identity keys are pairwise different. *)
Theorem extractProductsNaively_skips_dedupes_caps :
  forall (H : Host) (html : string),
    (forall m : matched,
       naiveOffer m = None <->
       nonEmptyString (blockName (group 2 m)) = false \/
       isFinite (loosePrice (group 2 m)) = false \/
       isPositive (loosePrice (group 2 m)) = false) /\
    exists offers,
      extractProductsNaively html = Ok offers /\
      List.length offers <= 10 /\
      (forall p, In p offers ->
         wellFormed p /\
         exists m, In m (execAll productBlockRegex 0 html) /\
                   naiveOffer m = Some p) /\
      exists keys, hasKeys offers keys /\ NoDup keys.
Proof.
  intros H html. split; [apply naiveOffer_None | apply naive_offers_from_blocks].
Qed.

(** C10. For every document the naive pattern extractor returns, every
    offer it returns has the store [Prisjakt], and the store filter leaves
    nothing of them: the value [fallback] of [scrapePrisjaktSearch] is the
    empty list, so the third stage never decides the result. *)
Theorem naive_stage_never_wins :
  forall (H : Host) (html : string),
    (exists offers,
       extractProductsNaively html = Ok offers /\
       Forall (fun p => store p = VStr "Prisjakt") offers) /\
    (naive <- extractProductsNaively html ;; filterPrisjaktStore naive) = Ok [].
Proof.
  intros H html.
  destruct (naive_offers_from_blocks H html) as (offers & E & _ & Hfrom & _).
  assert (Hstore : Forall (fun p => store p = VStr "Prisjakt") offers).
  { apply Forall_forall. intros p Hp.
    destruct (Hfrom p Hp) as (_ & m & _ & Em).
    apply naiveOffer_Some in Em. tauto. }
  split.
  - exists offers. split; assumption.
  - rewrite E. simpl. apply filterPrisjaktStore_brand, Hstore.
Qed.

(** ** The product-page offer extractor *)

(** On finite numbers [<] is a strict order whose complement is
    transitive. *)
Lemma lessThan_irrefl : forall n, lessThan n n = false.
Proof.
  intros [| [|] | q]; try reflexivity.
  unfold lessThan, Qltb. apply negb_false_iff, Qle_bool_iff, Qle_refl.
Qed.

Lemma lessThan_below :
  forall p q prev,
    isFinite p = true -> isFinite q = true -> isFinite prev = true ->
    lessThan p prev = true -> lessThan q prev = false -> lessThan q p = false.
Proof.
  intros [| b | p] [| b' | q] [| b'' | r] Hp Hq Hr; try discriminate.
  unfold lessThan, Qltb. rewrite negb_true_iff, !negb_false_iff.
  intros Hlt Hge. apply Qle_bool_iff. apply Qle_bool_iff in Hge.
  destruct (Qlt_le_dec q p) as [Hlt'|Hle]; [|exact Hle].
  exfalso. assert (Hrp : (r <= p)%Q).
  { apply Qle_trans with q; [exact Hge | apply Qlt_le_weak, Hlt']. }
  apply Qle_bool_iff in Hrp. congruence.
Qed.

(** A go-to-shop row yields an offer exactly when its store label is
    neither empty nor noise and its price label holds a positive finite
    number; the offer then carries that label, that price and the
    availability of its icons. *)
Lemma pageOffer_Some :
  forall name_ pageUrl m p,
    pageOffer name_ pageUrl m = Some p ->
    name p = VStr name_ /\
    store p = VStr (offerStore (group 2 m)) /\
    nonEmptyString (offerStore (group 2 m)) = true /\
    test offerNoiseRe (offerStore (group 2 m)) = false /\
    storeUrl p = VStr (group 1 m) /\
    availability p = iconAvailability (group 2 m) /\
    goodPrice p.
Proof.
  unfold pageOffer. intros name_ pageUrl m p E.
  destruct (nonEmptyString (offerStore (group 2 m))) eqn:Hs; simpl in E;
    [|discriminate E].
  destruct (test offerNoiseRe (offerStore (group 2 m))) eqn:Hn; [discriminate E|].
  destruct (search priceLabelRe (group 2 m)) as [pm|]; [|discriminate E].
  destruct (negb (isFinite (parsePrice (replaceAll nbspRe "" (group 1 pm))))
            || lessEq (parsePrice (replaceAll nbspRe "" (group 1 pm))) zero)
    eqn:Hp; [discriminate E|].
  apply price_guard in Hp. injection E as <-. simpl.
  repeat split; try reflexivity; apply Hp.
Qed.

(** Every offer of the array [out] has a string as its store, a non-empty
    one, and a positive finite price. *)
Lemma pageOffers_store_string :
  forall html pageUrl p,
    In p (pageOffers html pageUrl) ->
    exists s, store p = VStr s /\ nonEmptyString s = true /\ goodPrice p /\
              name p = VStr (pageName html) /\ exists u, storeUrl p = VStr u.
Proof.
  intros html pageUrl p Hp. apply collectSome_In in Hp.
  destruct Hp as (m & _ & E). apply pageOffer_Some in E.
  destruct E as (En & Es & Hne & _ & Eu & _ & Hg).
  exists (offerStore (group 2 m)). repeat split; eauto; apply Hg.
Qed.

Lemma mapGet_In : forall k v m, mapGet k m = Some v -> In (k, v) m.
Proof.
  intros k v. induction m as [|[k' v'] rest IH]; simpl; [discriminate|].
  destruct (String.eqb_spec k' k) as [->|Hne].
  - intro E. injection E as ->. left. reflexivity.
  - intro E. right. apply IH, E.
Qed.

Lemma mapGet_None : forall k m, mapGet k m = None <-> ~ In k (map fst m).
Proof.
  intros k. induction m as [|[k' v'] rest IH]; simpl; [tauto|].
  destruct (String.eqb_spec k' k) as [->|Hne].
  - split; [discriminate | intro Hn; exfalso; apply Hn; left; reflexivity].
  - rewrite IH. tauto.
Qed.

Lemma In_mapGet :
  forall k v m, NoDup (map fst m) -> In (k, v) m -> mapGet k m = Some v.
Proof.
  intros k v. induction m as [|[k' v'] rest IH]; simpl; intros Hnd Hin;
    [contradiction|].
  inversion Hnd as [|? ? Hk' Hnd']; subst.
  destruct Hin as [E|Hin].
  - injection E as -> ->. rewrite String.eqb_refl. reflexivity.
  - destruct (String.eqb_spec k' k) as [->|Hne]; [|apply IH; assumption].
    exfalso. apply Hk'. apply (in_map fst) in Hin. exact Hin.
Qed.

(** [set] on a key the map does not hold appends the entry. *)
Lemma mapSet_new :
  forall k p m, mapGet k m = None -> mapSet k p m = m ++ [(k, p)].
Proof.
  intros k p. induction m as [|[k' v'] rest IH]; simpl; [reflexivity|].
  destruct (String.eqb_spec k' k) as [->|Hne]; [discriminate|].
  intro E. f_equal. apply IH, E.
Qed.

(** [set] on a key the map holds replaces its value in place. *)
Lemma mapSet_keys :
  forall k p m, mapGet k m <> None -> map fst (mapSet k p m) = map fst m.
Proof.
  intros k p. induction m as [|[k' v'] rest IH]; simpl; [congruence|].
  destruct (String.eqb_spec k' k) as [->|Hne]; simpl; [reflexivity|].
  intro E. f_equal. apply IH, E.
Qed.

Lemma mapSet_In :
  forall k p m k' v',
    NoDup (map fst m) ->
    In (k', v') (mapSet k p m) ->
    (k' = k /\ v' = p) \/ (k' <> k /\ In (k', v') m).
Proof.
  intros k p. induction m as [|[k0 v0] rest IH]; simpl; intros k' v' Hnd Hin.
  - destruct Hin as [E|[]]. injection E as <- <-. left. split; reflexivity.
  - inversion Hnd as [|? ? Hk0 Hnd']; subst.
    destruct (String.eqb_spec k0 k) as [->|Hne].
    + destruct Hin as [E|Hin].
      * injection E as <- <-. left. split; reflexivity.
      * right. split; [|right; exact Hin].
        intros ->. apply Hk0. apply (in_map fst) in Hin. exact Hin.
    + destruct Hin as [E|Hin].
      * injection E as <- <-. right. split; [exact Hne | left; reflexivity].
      * destruct (IH _ _ Hnd' Hin) as [Hl|(Hne' & Hr)]; [left; exact Hl|].
        right. split; [exact Hne' | right; exact Hr].
Qed.

Lemma mapGet_mapSet :
  forall k p m k',
    mapGet k' (mapSet k p m) = if String.eqb k k' then Some p else mapGet k' m.
Proof.
  intros k p m k'. induction m as [|[k0 v0] rest IH]; simpl.
  - reflexivity.
  - destruct (String.eqb_spec k0 k) as [->|Hne]; simpl.
    + destruct (String.eqb k k'); reflexivity.
    + destruct (String.eqb_spec k0 k') as [->|Hne'].
      * destruct (String.eqb_spec k k') as [->|_]; [contradiction | reflexivity].
      * exact IH.
Qed.

Lemma storeInv_step :
  forall done m p,
    Forall (fun q => isFinite (price q) = true) (p :: done) ->
    storeInv done m -> storeInv (done ++ [p]) (byStoreStep m p).
Proof.
  intros done m p Hfin (Hnd & Hent & Hcov).
  inversion Hfin as [|? ? Hp Hdone]; subst.
  rewrite Forall_forall in Hdone.
  unfold byStoreStep.
  destruct (mapGet (storeKey p) m) as [prev|] eqn:Eg.
  - (* the store is known *)
    pose proof (mapGet_In _ _ _ Eg) as Hprev.
    destruct (Hent _ _ Hprev) as (Kprev & Dprev & Mprev).
    destruct (lessThan (price p) (price prev)) eqn:Hlt.
    + (* a lower price: the entry is replaced *)
      split; [|split].
      * rewrite mapSet_keys; [exact Hnd | congruence].
      * intros k v Hin. apply mapSet_In in Hin; [|exact Hnd].
        destruct Hin as [(-> & ->)|(Hne & Hin)].
        -- split; [reflexivity|]. split; [apply in_or_app; right; left; reflexivity|].
           intros q Hq Kq. apply in_app_or in Hq. destruct Hq as [Hq|[<-|[]]].
           ++ apply lessThan_below with (prev := price prev); auto.
           ++ apply lessThan_irrefl.
        -- destruct (Hent _ _ Hin) as (Kv & Dv & Mv).
           split; [exact Kv|]. split; [apply in_or_app; left; exact Dv|].
           intros q Hq Kq. apply in_app_or in Hq. destruct Hq as [Hq|[<-|[]]].
           ++ apply Mv; assumption.
           ++ congruence.
      * intros q Hq. rewrite mapGet_mapSet.
        destruct (String.eqb (storeKey p) (storeKey q)); [discriminate|].
        apply in_app_or in Hq. destruct Hq as [Hq|[<-|[]]]; [apply Hcov, Hq | congruence].
    + (* not a lower price: the map is left as it is *)
      split; [exact Hnd|split].
      * intros k v Hin. destruct (Hent _ _ Hin) as (Kv & Dv & Mv).
        split; [exact Kv|]. split; [apply in_or_app; left; exact Dv|].
        intros q Hq Kq. apply in_app_or in Hq. destruct Hq as [Hq|[<-|[]]].
        -- apply Mv; assumption.
        -- assert (v = prev) as ->.
           { subst k. apply In_mapGet in Hin; [|exact Hnd]. congruence. }
           exact Hlt.
      * intros q Hq. apply in_app_or in Hq.
        destruct Hq as [Hq|[<-|[]]]; [apply Hcov, Hq | congruence].
  - (* a new store: the entry is appended *)
    rewrite mapSet_new by exact Eg.
    pose proof (proj1 (mapGet_None _ _) Eg) as Hnew.
    split; [|split].
    + rewrite map_app. simpl. apply NoDup_app; [exact Hnd | repeat constructor; intros [] | ].
      intros k Hk [<-|[]]. contradiction.
    + intros k v Hin. apply in_app_or in Hin. destruct Hin as [Hin|[E|[]]].
      * destruct (Hent _ _ Hin) as (Kv & Dv & Mv).
        split; [exact Kv|]. split; [apply in_or_app; left; exact Dv|].
        intros q Hq Kq. apply in_app_or in Hq. destruct Hq as [Hq|[<-|[]]].
        -- apply Mv; assumption.
        -- exfalso. apply Hnew. rewrite Kq. apply (in_map fst) in Hin. exact Hin.
      * injection E as <- <-.
        split; [reflexivity|]. split; [apply in_or_app; right; left; reflexivity|].
        intros q Hq Kq. apply in_app_or in Hq. destruct Hq as [Hq|[<-|[]]].
        -- exfalso. apply (Hcov q Hq). rewrite Kq. exact Eg.
        -- apply lessThan_irrefl.
    + intros q Hq. apply in_app_or in Hq. destruct Hq as [Hq|[<-|[]]].
      * intro E. apply mapGet_None in E. apply (Hcov q Hq), mapGet_None.
        intro Hin. apply E. rewrite map_app. apply in_or_app. left. exact Hin.
      * intro E. apply mapGet_None in E. apply E. rewrite map_app.
        apply in_or_app. right. left. reflexivity.
Qed.

Lemma byStore_fold_inv :
  forall out done m,
    Forall (fun q => isFinite (price q) = true) (done ++ out) ->
    storeInv done m -> storeInv (done ++ out) (fold_left byStoreStep out m).
Proof.
  induction out as [|p rest IH]; intros done m Hfin Hinv; simpl.
  - rewrite app_nil_r. exact Hinv.
  - replace (done ++ p :: rest) with ((done ++ [p]) ++ rest) in *
      by (rewrite <- app_assoc; reflexivity).
    apply IH; [exact Hfin|].
    apply storeInv_step; [|exact Hinv].
    rewrite Forall_forall in *. intros q [<-|Hq]; apply Hfin.
    + apply in_or_app. left. apply in_or_app. right. left. reflexivity.
    + apply in_or_app. left. apply in_or_app. left. exact Hq.
Qed.

Lemma byStore_inv :
  forall out,
    Forall (fun q => isFinite (price q) = true) out -> storeInv out (byStore out).
Proof.
  intros out Hfin. apply (byStore_fold_inv out [] []); [exact Hfin|].
  split; [constructor|]. split; [intros k v [] | intros q []].
Qed.

(** Among the values of a map that has one entry per store key, those of a
    given store are the entry of that key, if there is one. *)
Lemma filter_by_key :
  forall (m : StoreMap) k0,
    NoDup (map fst m) ->
    (forall k v, In (k, v) m -> storeKey v = k) ->
    filter (fun r => String.eqb k0 (storeKey r)) (map snd m) =
    match mapGet k0 m with
    | Some v => [v]
    | None => []
    end.
Proof.
  induction m as [|[k v] rest IH]; intros k0 Hnd Hkey; simpl; [reflexivity|].
  inversion Hnd as [|? ? Hk Hnd']; subst.
  assert (Ev : storeKey v = k) by (apply Hkey; left; reflexivity).
  assert (Hkey' : forall k' v', In (k', v') rest -> storeKey v' = k')
    by (intros k' v' Hin; apply Hkey; right; exact Hin).
  rewrite Ev, (IH k0 Hnd' Hkey').
  destruct (String.eqb_spec k k0) as [->|Hne].
  - rewrite String.eqb_refl.
    destruct (mapGet k0 rest) eqn:Eg; [|reflexivity].
    exfalso. apply Hk. apply mapGet_In in Eg. apply (in_map fst) in Eg. exact Eg.
  - destruct (String.eqb_spec k0 k) as [->|_]; [contradiction | reflexivity].
Qed.

(** The map [byStore] holds, for the store of every offer that went in,
    exactly one offer: one that went in, of that store, than which none of
    that store is cheaper. *)
Lemma byStore_lowest :
  forall out c,
    Forall (fun q => isFinite (price q) = true) out -> In c out ->
    exists r,
      filter (sameStore c) (map snd (byStore out)) = [r] /\
      In r out /\ sameStore c r = true /\
      forall q, In q out -> sameStore c q = true ->
                lessThan (price q) (price r) = false.
Proof.
  intros out c Hfin Hc.
  destruct (byStore_inv out Hfin) as (Hnd & Hent & Hcov).
  destruct (mapGet (storeKey c) (byStore out)) as [r|] eqn:Eg;
    [|exfalso; exact (Hcov c Hc Eg)].
  destruct (Hent _ _ (mapGet_In _ _ _ Eg)) as (Kr & Dr & Mr).
  exists r. unfold sameStore. split; [|split; [exact Dr|split]].
  - rewrite (filter_by_key (byStore out) (storeKey c) Hnd), Eg; [reflexivity|].
    intros k v Hin. apply (Hent _ _ Hin).
  - rewrite Kr. apply String.eqb_refl.
  - intros q Hq Eq. apply String.eqb_eq in Eq. apply Mr; [exact Hq | congruence].
Qed.

Lemma byStore_incl :
  forall out,
    Forall (fun q => isFinite (price q) = true) out ->
    incl (map snd (byStore out)) out.
Proof.
  intros out Hfin r Hr. apply in_map_iff in Hr. destruct Hr as ([k v] & <- & Hin).
  destruct (byStore_inv out Hfin) as (_ & Hent & _).
  apply (Hent _ _ Hin).
Qed.

Lemma pageOffers_finite :
  forall html pageUrl,
    Forall (fun q => isFinite (price q) = true) (pageOffers html pageUrl).
Proof.
  intros html pageUrl. apply Forall_forall. intros p Hp.
  apply pageOffers_store_string in Hp.
  destruct Hp as (s & _ & _ & (Hf & _) & _). exact Hf.
Qed.

(** The loop pushes an offer for a row exactly when the row is accepted;
    the offer carries the store label and the price of the row. *)
Lemma pageOffer_accepted :
  forall html name_ pageUrl m,
    In m (execAll offerRegex 0 html) ->
    forall s n,
      acceptedRow html m s n <->
      exists c, pageOffer name_ pageUrl m = Some c /\
                store c = VStr s /\ price c = n.
Proof.
  intros html name_ pageUrl m Hm s n. unfold acceptedRow, pageOffer. split.
  - intros (_ & -> & Hs & Hn & pm & Ep & -> & Hf & Hp).
    rewrite Hs, Hn, Ep. cbn [negb orb].
    rewrite (proj2 (price_guard _) (conj Hf Hp)).
    eexists. split; [reflexivity|]. split; reflexivity.
  - intros (c & E & Es & En).
    destruct (nonEmptyString (offerStore (group 2 m))) eqn:Hs; cbn [negb orb] in E;
      [|discriminate E].
    destruct (test offerNoiseRe (offerStore (group 2 m))) eqn:Hn; [discriminate E|].
    destruct (search priceLabelRe (group 2 m)) as [pm|] eqn:Ep; [|discriminate E].
    destruct (negb (isFinite (parsePrice (replaceAll nbspRe "" (group 1 pm))))
              || lessEq (parsePrice (replaceAll nbspRe "" (group 1 pm))) zero)
      eqn:Hp; [discriminate E|].
    apply price_guard in Hp. destruct Hp as (Hf & Hpos).
    injection E as <-. cbn [store price] in Es, En. injection Es as <-. subst n.
    split; [exact Hm|]. split; [reflexivity|]. split; [exact Hs|].
    split; [exact Hn|]. exists pm. repeat split; assumption.
Qed.

Lemma storeKey_text :
  forall c s, store c = VStr s -> storeKey c = toLowerCase s.
Proof. intros c s E. unfold storeKey. rewrite E. reflexivity. Qed.

Lemma filter_ext_in_eq :
  forall (A : Type) (f g : A -> bool) (l : list A),
    (forall x, f x = g x) -> filter f l = filter g l.
Proof.
  intros A f g l E. induction l as [|a l IH]; simpl; [reflexivity|].
  rewrite (E a), IH. reflexivity.
Qed.

(** C5, amended. On a product page whose heading is not empty, for every
    go-to-shop row that the loop accepts (see [acceptedRow]), with store
    label [s]: the extractor returns exactly one offer whose store agrees
    with [s] up to the case of its letters; the store and the price of that
    offer are those of an accepted row of that store; and no accepted row
    of that store has a lower price. With two or more accepted rows of one
    store at different prices, the offer returned carries the lowest of
    their prices. *)
Theorem product_page_one_offer_per_store_lowest_price :
  forall (html pageUrl : string) (m : matched) (s : string) (n : number),
    nonEmptyString (pageName html) = true ->
    acceptedRow html m s n ->
    exists r,
      filter (fun q => String.eqb (toLowerCase s) (storeKey q))
             (extractOffersFromProductPageNaively html pageUrl) = [r] /\
      (exists m' s',
         acceptedRow html m' s' (price r) /\ store r = VStr s' /\
         toLowerCase s' = toLowerCase s) /\
      (forall m' s' n',
         acceptedRow html m' s' n' -> toLowerCase s' = toLowerCase s ->
         lessThan n' (price r) = false).
Proof.
  intros html pageUrl m s n Hname Hrow.
  pose proof Hrow as (Hm & _).
  destruct (proj1 (pageOffer_accepted html (pageName html) pageUrl m Hm s n) Hrow)
    as (c & Ec & Es & En).
  assert (Hc : In c (pageOffers html pageUrl)).
  { apply collectSome_In. exists m. split; assumption. }
  destruct (byStore_lowest _ c (pageOffers_finite html pageUrl) Hc)
    as (r & Ef & Hr & Hs & Hmin).
  assert (Hkey : forall q, sameStore c q = String.eqb (toLowerCase s) (storeKey q)).
  { intro q. unfold sameStore. rewrite (storeKey_text c s Es). reflexivity. }
  assert (Hfrom : exists m' s',
            acceptedRow html m' s' (price r) /\ store r = VStr s' /\
            toLowerCase s' = toLowerCase s).
  { apply collectSome_In in Hr. destruct Hr as (m' & Hm' & Er).
    destruct (pageOffers_store_string html pageUrl r) as (s' & Es' & _).
    { apply collectSome_In. exists m'. split; assumption. }
    exists m', s'. split; [|split; [exact Es'|]].
    - apply (pageOffer_accepted html (pageName html) pageUrl m' Hm').
      exists r. repeat split; assumption.
    - rewrite Hkey, (storeKey_text r s' Es') in Hs.
      apply String.eqb_eq in Hs. symmetry. exact Hs. }
  assert (Hlow : forall m' s' n',
            acceptedRow html m' s' n' -> toLowerCase s' = toLowerCase s ->
            lessThan n' (price r) = false).
  { intros m' s' n' Hrow' Hs'. pose proof Hrow' as (Hm' & _).
    destruct (proj1 (pageOffer_accepted html (pageName html) pageUrl m' Hm' s' n')
                Hrow') as (q & Eq & Eqs & <-).
    apply Hmin.
    - apply collectSome_In. exists m'. split; assumption.
    - rewrite Hkey, (storeKey_text q s' Eqs), Hs'. apply String.eqb_refl. }
  unfold extractOffersFromProductPageNaively. rewrite Hname. cbn [negb].
  rewrite (filter_ext_in_eq _ _ _ _ Hkey) in Ef.
  destruct (test noStockRe html).
  - exists (markNotAvailable r). split; [|split; [exact Hfrom | exact Hlow]].
    assert (Hmap : forall l,
              filter (fun q => String.eqb (toLowerCase s) (storeKey q))
                     (map markNotAvailable l)
              = map markNotAvailable
                  (filter (fun q => String.eqb (toLowerCase s) (storeKey q)) l)).
    { induction l as [|p rest IH]; [reflexivity|]. cbn [map filter].
      change (storeKey (markNotAvailable p)) with (storeKey p).
      destruct (String.eqb (toLowerCase s) (storeKey p)); cbn [map]; rewrite IH;
        reflexivity. }
    rewrite Hmap, Ef. reflexivity.
  - exists r. split; [exact Ef|]. split; [exact Hfrom | exact Hlow].
Qed.

(** C5, on an example: the rows under a heading. The first row is an
    accepted row of the store Inet at 1200; of that store one offer is
    returned, which is the offer of an accepted row of it, and no accepted
    row of the store is cheaper. *)
Lemma product_page_two_prices_witness :
  exists m,
    acceptedRow twoPricesPage m "Inet" (Fin 1200) /\
    exists r,
      filter (fun q => String.eqb (toLowerCase "Inet") (storeKey q))
             (extractOffersFromProductPageNaively twoPricesPage "u") = [r] /\
      (exists m' s',
         acceptedRow twoPricesPage m' s' (price r) /\ store r = VStr s' /\
         toLowerCase s' = toLowerCase "Inet") /\
      (forall m' s' n',
         acceptedRow twoPricesPage m' s' n' -> toLowerCase s' = toLowerCase "Inet" ->
         lessThan n' (price r) = false).
Proof.
  assert (Hrow : exists m, acceptedRow twoPricesPage m "Inet" (Fin 1200)).
  { unfold acceptedRow. eexists. split; [vm_compute; left; reflexivity|].
    split; [vm_compute; reflexivity|]. split; [reflexivity|].
    split; [vm_compute; reflexivity|].
    eexists. split; [vm_compute; reflexivity|].
    split; [vm_compute; reflexivity|]. split; reflexivity. }
  destruct Hrow as (m & Hrow). exists m. split; [exact Hrow|].
  apply (product_page_one_offer_per_store_lowest_price
           twoPricesPage "u" m "Inet" (Fin 1200)); [vm_compute; reflexivity | exact Hrow].
Defined.

(** C5, as stated, fails, in three ways. The rows of the example, two of
    them offers of one store at different prices, stand on a page without a
    heading: the extractor returns nothing. On a page with a heading, two
    rows of one store at different prices whose name holds a noise word
    ([butik]) are both skipped: again nothing is returned. And on a page
    with a heading, of two rows of one store at 1 299 kr and at
    1 199,50 kr the second is skipped, because its price label holds a
    comma: the one offer returned carries 1299, not the lowest price. *)
Lemma product_page_same_store_offers_lost :
  ((exists c1 c2 rest,
      pageOffers twoPricesRows "u" = c1 :: c2 :: rest /\
      sameStore c1 c2 = true /\ price c1 = Fin 1200 /\ price c2 = Fin 1100) /\
   extractOffersFromProductPageNaively twoPricesRows "u" = []) /\
  ((exists m1 m2,
      execAll offerRegex 0 noisyStorePage = [m1; m2] /\
      offerStore (group 2 m1) = "Teknikbutiken" /\
      offerStore (group 2 m2) = "Teknikbutiken" /\
      parsePrice (matchGroup priceLabelRe 1 (group 2 m1)) = Fin 1200 /\
      parsePrice (matchGroup priceLabelRe 1 (group 2 m2)) = Fin 1100) /\
   nonEmptyString (pageName noisyStorePage) = true /\
   extractOffersFromProductPageNaively noisyStorePage "u" = []) /\
  ((exists m1 m2,
      execAll offerRegex 0 decimalPage = [m1; m2] /\
      offerStore (group 2 m1) = "Inet" /\
      offerStore (group 2 m2) = "Inet" /\
      includes ("PriceLabel" ++ dq ++ ">1 299 kr</") (group 2 m1) = true /\
      includes ("PriceLabel" ++ dq ++ ">1 199,50 kr</") (group 2 m2) = true /\
      parsePrice "1 299 kr" = Fin 1299 /\
      parsePrice "1 199,50 kr" = Fin (2399 # 2) /\
      search priceLabelRe (group 2 m2) = None) /\
   nonEmptyString (pageName decimalPage) = true /\
   map (fun r => (store r, price r))
       (extractOffersFromProductPageNaively decimalPage "u")
   = [(VStr "Inet", Fin 1299)]).
Proof.
  split; [split|split; [split|split]].
  - do 3 eexists. split; [vm_compute; reflexivity|].
    repeat split; reflexivity.
  - vm_compute. reflexivity.
  - do 2 eexists. split; [vm_compute; reflexivity|].
    repeat split; vm_compute; reflexivity.
  - split; vm_compute; reflexivity.
  - do 2 eexists. split; [vm_compute; reflexivity|].
    repeat split; vm_compute; reflexivity.
  - split; vm_compute; reflexivity.
Qed.

(** What the extractor returns for the page of the example. *)
Example product_page_two_prices_result :
  map (fun r => (store r, price r, availability r))
      (extractOffersFromProductPageNaively twoPricesPage "u")
  = [ (VStr "INET", Fin 1100, incoming);
      (VStr "Komplett", Fin 999, not_available) ].
Proof. vm_compute. reflexivity. Qed.

(** Two rows of one store whose labels are read as the same double: the
    second is not cheaper ([p.price < prev.price] is false), and the first
    row stays in the map. *)
Example product_page_equal_doubles_keep_first :
  map (fun r => (price r, storeUrl r, availability r))
      (extractOffersFromProductPageNaively tiePage "u")
  = [ (Fin (inject_Z (2 ^ 53)), VStr "https://www.prisjakt.nu/go-to-shop/1", in_stock) ].
Proof. vm_compute. reflexivity. Qed.

(** C6. With the page-wide no-stock marker in the document every returned
    offer is [not_available]. Without it every returned offer is the offer
    of a go-to-shop row of the document and has the availability of the
    stock icons of that row: [in_stock] when the in-stock icon class occurs
    in the row, else [incoming] when the incoming icon class occurs in it,
    else [not_available]. *)
Theorem product_page_availability :
  forall (html pageUrl : string),
    (test noStockRe html = true ->
     Forall (fun r => availability r = not_available)
            (extractOffersFromProductPageNaively html pageUrl)) /\
    (test noStockRe html = false ->
     Forall (fun r =>
               exists m,
                 In m (execAll offerRegex 0 html) /\
                 pageOffer (pageName html) pageUrl m = Some r /\
                 availability r =
                   if test inStockRe (group 2 m) then in_stock
                   else if test incomingRe (group 2 m) then incoming
                   else not_available)
            (extractOffersFromProductPageNaively html pageUrl)).
Proof.
  intros html pageUrl. unfold extractOffersFromProductPageNaively.
  destruct (nonEmptyString (pageName html)); simpl;
    [|split; intros _; constructor].
  split; intros ->.
  - apply Forall_forall. intros r Hr.
    apply in_map_iff in Hr. destruct Hr as (o & <- & _). reflexivity.
  - apply Forall_forall. intros r Hr.
    apply (byStore_incl _ (pageOffers_finite html pageUrl)) in Hr.
    apply collectSome_In in Hr. destruct Hr as (m & Hm & E).
    exists m. split; [exact Hm|]. split; [exact E|].
    apply pageOffer_Some in E.
    destruct E as (_ & _ & _ & _ & _ & Ea & _). exact Ea.
Qed.

(** The page of the example with the marker added: the offers are the
    same, all of them [not_available]. *)
Example product_page_marker_result :
  map (fun r => (store r, price r, availability r))
      (extractOffersFromProductPageNaively
         (twoPricesPage ++ "<p>Ingen butik har produkten i lager</p>") "u")
  = [ (VStr "INET", Fin 1100, not_available);
      (VStr "Komplett", Fin 999, not_available) ].
Proof. vm_compute. reflexivity. Qed.

(** ** The structured-data extractor *)

Lemma append_inj_l :
  forall a b c : string, (a ++ b)%string = (a ++ c)%string -> b = c.
Proof.
  induction a as [|x a IH]; simpl; intros b c E; [exact E|].
  injection E as E. apply IH, E.
Qed.

Section LdOffers.
Context {H : Host}.

(** What an offer of a Product node becomes when it is not skipped. *)
Lemma ldOffer_Some :
  forall obj offer p,
    ldOffer obj offer = Ok (Some p) ->
    exists pre suf,
      ldIdPrefix obj = Ok pre /\ ldIdSuffix offer = Ok suf /\
      id p = (pre ++ suf)%string /\
      name p = get obj "name" /\
      store p = orValue (sellerName offer) (VStr "Unknown") /\
      goodPrice p.
Proof.
  intros obj offer p E. unfold ldOffer in E.
  assert (Hbody :
    (numericPrice <-
       match get offer "price" with
       | VNum n => Ok n
       | v => s <- toStr v ;; Ok (parsePrice s)
       end ;;
     if negb (isFinite numericPrice) || lessEq numericPrice zero then Ok None
     else
       pre <- ldIdPrefix obj ;;
       suf <- ldIdSuffix offer ;;
       avail <- toAvailabilityOf (get offer "availability") ;;
       Ok (Some {|
         id := (pre ++ suf)%string;
         name := get obj "name";
         price := numericPrice;
         currency := orValue (get offer "priceCurrency") (VStr "SEK");
         store := orValue (sellerName offer) (VStr "Unknown");
         storeUrl := orValue (get offer "url") (orValue (get obj "url") (VStr ""));
         availability := avail;
         imageUrl := match get obj "image" with
                     | VArr items => nth 0 items VUndef
                     | v => v
                     end |})) = Ok (Some p)).
  { destruct offer; try discriminate E; exact E. }
  clear E. bind_inv Hbody.
  destruct (negb (isFinite x) || lessEq x zero) eqn:Hp; [discriminate Hbody|].
  apply price_guard in Hp.
  bind_inv Hbody. bind_inv Hbody. bind_inv Hbody. injection Hbody as <-.
  exists x0, x1. simpl. repeat split; auto; apply Hp.
Qed.

Lemma validOffers_In :
  forall obj offers l,
    validOffers obj offers = Ok l ->
    forall p, In p l ->
      exists offer, In offer offers /\ ldOffer obj offer = Ok (Some p).
Proof.
  intros obj. induction offers as [|o rest IH]; intros l E p Hp; simpl in E.
  - injection E as <-. contradiction.
  - bind_inv E. bind_inv E. injection E as <-.
    destruct x as [q|].
    + destruct Hp as [<-|Hp].
      * exists o. split; [left; reflexivity | exact E0].
      * destruct (IH _ E1 _ Hp) as (o' & Ho' & E'). exists o'. split; [right|]; assumption.
    + destruct (IH _ E1 _ Hp) as (o' & Ho' & E'). exists o'. split; [right|]; assumption.
Qed.

Lemma nodeOffers_In :
  forall obj l,
    nodeOffers obj = Ok l ->
    forall p, In p l ->
      isNamedProduct obj = true /\
      exists offer, In offer (normalizeOffers (get obj "offers")) /\
                    ldOffer obj offer = Ok (Some p).
Proof.
  intros obj l E p Hp. unfold nodeOffers in E.
  destruct (isNamedProduct obj) eqn:Hn.
  - split; [reflexivity|]. eapply validOffers_In; eauto.
  - injection E as <-. contradiction.
Qed.

End LdOffers.

(** C9, as stated, fails: a Product node with two offers that carry the
    same [url] produces two offers with the same id (the sellers differ, so
    both also survive [dedupeProducts]). *)
Lemma ld_ids_not_unique :
  @nodeOffers offlineHost sameUrlProduct
    = Ok [sameUrlOffer "Alfa" (Fin 100); sameUrlOffer "Beta" (Fin 120)] /\
  id (sameUrlOffer "Alfa" (Fin 100)) = id (sameUrlOffer "Beta" (Fin 120)) /\
  sameUrlOffer "Alfa" (Fin 100) <> sameUrlOffer "Beta" (Fin 120) /\
  @dedupeProducts offlineHost
     [sameUrlOffer "Alfa" (Fin 100); sameUrlOffer "Beta" (Fin 120)]
    = Ok [sameUrlOffer "Alfa" (Fin 100); sameUrlOffer "Beta" (Fin 120)].
Proof.
  split; [vm_compute; reflexivity|]. split; [reflexivity|].
  split; [discriminate | vm_compute; reflexivity].
Qed.

(** C9, amended. Every offer produced from a Product node comes from one of
    the offers of the node, and two offers produced from the same node
    share an id exactly when the second parts of their ids, the text of
    [offer.url || offer.seller?.name || ''], are equal. Offers whose second
    parts are pairwise different get pairwise different ids. *)
Theorem ld_ids_equal_iff_second_parts_equal :
  forall (H : Host) (obj : value) (l : list PrisjaktProduct)
         (p1 p2 : PrisjaktProduct),
    nodeOffers obj = Ok l -> In p1 l -> In p2 l ->
    exists o1 o2 s1 s2,
      In o1 (normalizeOffers (get obj "offers")) /\
      In o2 (normalizeOffers (get obj "offers")) /\
      ldOffer obj o1 = Ok (Some p1) /\ ldOffer obj o2 = Ok (Some p2) /\
      ldIdSuffix o1 = Ok s1 /\ ldIdSuffix o2 = Ok s2 /\
      (id p1 = id p2 <-> s1 = s2).
Proof.
  intros H obj l p1 p2 E H1 H2.
  destruct (nodeOffers_In _ _ E p1 H1) as (_ & o1 & Ho1 & E1).
  destruct (nodeOffers_In _ _ E p2 H2) as (_ & o2 & Ho2 & E2).
  destruct (ldOffer_Some _ _ _ E1) as (pre1 & s1 & Ep1 & Es1 & Ei1 & _).
  destruct (ldOffer_Some _ _ _ E2) as (pre2 & s2 & Ep2 & Es2 & Ei2 & _).
  exists o1, o2, s1, s2. repeat split; try assumption.
  - rewrite Ei1, Ei2. rewrite Ep1 in Ep2. injection Ep2 as <-. apply append_inj_l.
  - intros ->. rewrite Ei1, Ei2. rewrite Ep1 in Ep2. injection Ep2 as <-. reflexivity.
Qed.

(** C9, on an example: for the node with two offers of the same URL both
    second parts are that URL, and the ids are equal. *)
Lemma ld_ids_same_url_witness :
  exists o1 o2 s1 s2,
    In o1 (normalizeOffers (get sameUrlProduct "offers")) /\
    In o2 (normalizeOffers (get sameUrlProduct "offers")) /\
    @ldOffer offlineHost sameUrlProduct o1 = Ok (Some (sameUrlOffer "Alfa" (Fin 100))) /\
    @ldOffer offlineHost sameUrlProduct o2 = Ok (Some (sameUrlOffer "Beta" (Fin 120))) /\
    @ldIdSuffix offlineHost o1 = Ok s1 /\ @ldIdSuffix offlineHost o2 = Ok s2 /\
    (id (sameUrlOffer "Alfa" (Fin 100)) = id (sameUrlOffer "Beta" (Fin 120))
     <-> s1 = s2).
Proof.
  apply (ld_ids_equal_iff_second_parts_equal offlineHost sameUrlProduct
           [sameUrlOffer "Alfa" (Fin 100); sameUrlOffer "Beta" (Fin 120)]).
  - vm_compute. reflexivity.
  - left. reflexivity.
  - right. left. reflexivity.
Defined.

(** Induction on a value, with the induction hypothesis for every element
    of an array and every property value of an object. *)
Section ValueInduction.
Variable P : value -> Prop.
Hypothesis HUndef : P VUndef.
Hypothesis HNull : P VNull.
Hypothesis HBool : forall b, P (VBool b).
Hypothesis HNum : forall n, P (VNum n).
Hypothesis HStr : forall s, P (VStr s).
Hypothesis HArr : forall items, Forall P items -> P (VArr items).
Hypothesis HObj :
  forall fields, Forall (fun kv => P (snd kv)) fields -> P (VObj fields).

Fixpoint value_nested_ind (v : value) : P v :=
  match v with
  | VUndef => HUndef
  | VNull => HNull
  | VBool b => HBool b
  | VNum n => HNum n
  | VStr s => HStr s
  | VArr items =>
      HArr items
        ((fix all (l : list value) : Forall P l :=
            match l with
            | [] => Forall_nil P
            | x :: rest => Forall_cons x (value_nested_ind x) (all rest)
            end) items)
  | VObj fields =>
      HObj fields
        ((fix all (l : list (string * value))
            : Forall (fun kv => P (snd kv)) l :=
            match l with
            | [] => Forall_nil _
            | kv :: rest =>
                Forall_cons kv (value_nested_ind (snd kv)) (all rest)
            end) fields)
  end.
End ValueInduction.

Section Walk.
Context {H : Host}.

Lemma collect_unfold :
  forall obj out,
    collectProductsFromLdObject obj out =
    match obj with
    | VObj fields =>
        match nodeOffers obj with
        | Throw => Aborted out
        | Ok valid => forEach (fun kv => visitValue (snd kv)) fields (out ++ valid)
        end
    | VArr items => forEach visitValue items out
    | _ => Completed out
    end.
Proof. intros [| | | | | items | fields] out; reflexivity. Qed.

Lemma fold_left_preserves :
  forall (A B : Type) (Q : A -> Prop) (f : A -> B -> A) (l : list B) (a : A),
    (forall a b, Q a -> Q (f a b)) -> Q a -> Q (fold_left f l a).
Proof.
  intros A B Q f l. induction l as [|b rest IH]; intros a Hf Ha; simpl; auto.
Qed.

End Walk.

(** ** The entry points *)




Lemma ldResults_unparsed :
  forall (H : Host) (html : string),
    (forall text, JSON_parse text = None) -> ldResults html = [].
Proof.
  intros H html Hparse. unfold ldResults.
  apply (fold_left_preserves _ _ (fun r => r = [])); [|reflexivity].
  intros results m ->. unfold ldBlock. rewrite Hparse. reflexivity.
Qed.

(** C2. Whatever the platform does, both entry points return a list: an
    exception thrown in the [try] block gives the empty list; so does a
    query that cannot be encoded, a rejected fetch, a response that is not
    ok and a body that cannot be read. When no structured-data block of a
    page parses, the structured-data extractor returns the empty list. *)
Theorem scrape_never_throws :
  forall (H : Host) (input : string),
    (exists l, scrapePrisjaktSearch input = Ok l) /\
    (exists l, scrapePrisjaktProduct input = Ok l) /\
    (scrapePrisjaktSearch_try input = Throw ->
     scrapePrisjaktSearch input = Ok []) /\
    (scrapePrisjaktProduct_try input = Throw ->
     scrapePrisjaktProduct input = Ok []) /\
    (encodeURIComponent input = None -> scrapePrisjaktSearch input = Ok []) /\
    (forall q, encodeURIComponent input = Some q ->
       fetchFailed (fetch (hostUrl ++ "/search?query=" ++ q)%string) = true ->
       scrapePrisjaktSearch input = Ok []) /\
    (startsWith "http" input = true ->
     fetchFailed (fetch input) = true ->
     scrapePrisjaktProduct input = Ok []) /\
    (forall e, startsWith "http" input = false ->
       encodeURIComponent (replaceAll nonDigitRe "" input) = Some e ->
       fetchFailed (fetch (hostUrl ++ "/produkt.php?p=" ++ e)%string) = true ->
       scrapePrisjaktProduct input = Ok []) /\
    ((forall text, JSON_parse text = None) ->
     forall html, extractProductsFromJsonLd html = Ok []).
Proof.
  intros H input.
  assert (Hfetch : forall url, fetchFailed (fetch url) = true ->
            fetchPage url = Throw \/ fetchPage url = Ok None).
  { intros url Hf. unfold fetchPage.
    destruct (fetch url) as [|[|] [html|]]; try discriminate Hf; auto. }
  split; [apply tryCatch_returns|]. split; [apply tryCatch_returns|].
  split; [intro E; unfold scrapePrisjaktSearch; rewrite E; reflexivity|].
  split; [intro E; unfold scrapePrisjaktProduct; rewrite E; reflexivity|].
  split; [|split; [|split; [|split]]].
  - intro E. unfold scrapePrisjaktSearch, scrapePrisjaktSearch_try, encode.
    rewrite E. reflexivity.
  - intros q E Hf. unfold scrapePrisjaktSearch, scrapePrisjaktSearch_try, encode.
    rewrite E. cbn [bind].
    destruct (Hfetch _ Hf) as [-> | ->]; reflexivity.
  - intros Hs Hf. unfold scrapePrisjaktProduct, scrapePrisjaktProduct_try.
    rewrite Hs. cbn [bind].
    destruct (Hfetch _ Hf) as [-> | ->]; reflexivity.
  - intros e Hs E Hf. unfold scrapePrisjaktProduct, scrapePrisjaktProduct_try, encode.
    rewrite Hs, E. cbn [bind].
    destruct (Hfetch _ Hf) as [-> | ->]; reflexivity.
  - intros Hparse html. unfold extractProductsFromJsonLd.
    rewrite (ldResults_unparsed H html Hparse). reflexivity.
Qed.

(** C3. [scrapePrisjaktSearch] is the fallback chain of the specification:
    the primary-card extractor, the structured-data extractor and the naive
    pattern extractor are tried in this order, the output of each is
    store-filtered, and the first stage whose filtered output is not empty
    is the result; only when all three came out empty is the first
    product-detail link of the page scraped with [scrapePrisjaktProduct],
    and the outcome of that store-filtered; an exception anywhere gives the
    empty list. *)
Theorem scrapePrisjaktSearch_is_fallback_chain :
  forall (H : Host) (query : string),
    scrapePrisjaktSearch query = scrapeSearch_spec query.
Proof.
  intros H query.
  unfold scrapePrisjaktSearch, scrapeSearch_spec, scrapePrisjaktSearch_try.
  f_equal.
  destruct (encode query) as [q|]; cbn [bind]; [|reflexivity].
  destruct (fetchPage (hostUrl ++ "/search?query=" ++ q)) as [[html|]|];
    cbn [bind]; try reflexivity.
  unfold searchStages. cbn [firstAccepted bind].
  destruct (filterPrisjaktStore (extractPrimarySearchItems html)) as [focused|];
    cbn [bind]; [|reflexivity].
  destruct (nonEmpty focused); cbn [bind]; [reflexivity|].
  destruct (extractProductsFromJsonLd html) as [fromJsonLd|];
    cbn [bind]; [|reflexivity].
  destruct (filterPrisjaktStore fromJsonLd) as [productsFromJsonLd|];
    cbn [bind]; [|reflexivity].
  destruct (nonEmpty productsFromJsonLd); cbn [bind]; [reflexivity|].
  destruct (extractProductsNaively html) as [naive|]; cbn [bind]; [|reflexivity].
  destruct (filterPrisjaktStore naive) as [fallback|]; cbn [bind]; [|reflexivity].
  destruct (nonEmpty fallback); cbn [bind]; [reflexivity|].
  unfold followFirstLink, firstProductLink, matchGroup.
  destruct (search productLinkRe html) as [m|]; reflexivity.
Qed.

(** ** The entry points on the pages of the examples *)

(** The primary card wins. *)
Example search_primary_card :
  option_map (map (fun r => (name r, store r, price r, availability r)))
    (match @scrapePrisjaktSearch (staticHost (servedPage cardPage) None) "CMH48GX5M2B7000C36" with
     | Ok l => Some l
     | Throw => None
     end)
  = Some [ (VStr "Corsair X", VStr "MJ Multimedia", Fin 2095, in_stock) ].
Proof. vm_compute. reflexivity. Qed.

(** All three stages come out empty and the first product link is
    followed: the offers of the product page are returned. *)
Example search_follows_first_link :
  option_map (map (fun r => (store r, price r, availability r)))
    (match @scrapePrisjaktSearch (staticHost (servedPage linkedPage) None) "CMH48GX5M2B7000C36" with
     | Ok l => Some l
     | Throw => None
     end)
  = Some [ (VStr "INET", Fin 1100, incoming);
           (VStr "Komplett", Fin 999, not_available) ].
Proof. vm_compute. reflexivity. Qed.

(** A response that is not ok, and a rejected fetch: the empty list. *)
Example search_http_500 :
  @scrapePrisjaktSearch (staticHost (Response false None) None) "CMH48GX5M2B7000C36" = Ok []
  /\ @scrapePrisjaktProduct (staticHost (Response false None) None) "12" = Ok []
  /\ @scrapePrisjaktSearch offlineHost "CMH48GX5M2B7000C36" = Ok []
  /\ @scrapePrisjaktProduct offlineHost "12" = Ok [].
Proof. repeat split. Qed.

(** ** The normalisers and the naive extractor on examples *)

(** The third offer has the identity key of the first and a lower price:
    the first one is kept. *)
Example dedupe_keeps_first :
  @dedupeProducts offlineHost
    [ sameUrlOffer "Alfa" (Fin 100); sameUrlOffer "Beta" (Fin 120);
      sameUrlOffer "Alfa" (Fin 90) ]
  = Ok [ sameUrlOffer "Alfa" (Fin 100); sameUrlOffer "Beta" (Fin 120) ].
Proof. vm_compute. reflexivity. Qed.

(** Of three anchor blocks the one with a title and a price becomes an
    offer, of the store [Prisjakt], and the store filter drops it. *)
Example naive_extractor_on_anchors :
  option_map (map (fun r => (id r, name r, price r, store r, storeUrl r)))
    (match @extractProductsNaively offlineHost anchorsPage with
     | Ok l => Some l
     | Throw => None
     end)
  = Some [ ("/x?a=1&b=2", VStr "Kit A", Fin 10, VStr "Prisjakt",
            VStr "https://www.prisjakt.nu/x?a=1&b=2") ]
  /\ (naive <- @extractProductsNaively offlineHost anchorsPage ;;
      @filterPrisjaktStore offlineHost naive) = Ok [].
Proof. split; vm_compute; reflexivity. Qed.

(** * Further properties *)

(** ** When an expression matches *)

Section Success.
Context {R1 R2 : Type}.

Lemma orElse_succeeds :
  forall (R : Type) (a : option R) (b : unit -> option R),
    succeeds (orElse a b) = succeeds a || succeeds (b tt).
Proof. intros R [x|] b; reflexivity. Qed.

Lemma repGreedy_succeeds :
  forall p s lo hi (k1 : string -> option R1) (k2 : string -> option R2),
    (forall s', succeeds (k1 s') = succeeds (k2 s')) ->
    succeeds (repGreedy p lo hi s k1) = succeeds (repGreedy p lo hi s k2).
Proof.
  intros p. induction s as [|c t IH]; intros lo hi k1 k2 Hk; simpl.
  - destruct lo; [apply Hk | reflexivity].
  - destruct (canRepeat hi && p c).
    + rewrite !orElse_succeeds. rewrite (IH _ _ k1 k2 Hk).
      destruct lo; [rewrite Hk|]; reflexivity.
    + destruct lo; [apply Hk | reflexivity].
Qed.

Lemma repLazy_succeeds :
  forall p s lo hi (k1 : string -> option R1) (k2 : string -> option R2),
    (forall s', succeeds (k1 s') = succeeds (k2 s')) ->
    succeeds (repLazy p lo hi s k1) = succeeds (repLazy p lo hi s k2).
Proof.
  intros p. induction s as [|c t IH]; intros lo hi k1 k2 Hk; simpl.
  - destruct lo; [|reflexivity]. rewrite !orElse_succeeds, Hk. reflexivity.
  - destruct lo.
    + rewrite !orElse_succeeds, Hk.
      destruct (canRepeat hi && p c); [rewrite (IH _ _ k1 k2 Hk)|]; reflexivity.
    + destruct (canRepeat hi && p c); [apply IH, Hk | reflexivity].
Qed.
End Success.

(** Whether an expression matches does not depend on what is done with
    the match, nor on the groups captured so far. *)
Lemma run_succeeds :
  forall r (R1 R2 : Type) s cs1 cs2
         (k1 : string -> captures -> option R1)
         (k2 : string -> captures -> option R2),
    (forall s' c1 c2, succeeds (k1 s' c1) = succeeds (k2 s' c2)) ->
    succeeds (run r s cs1 k1) = succeeds (run r s cs2 k2).
Proof.
  induction r as [| p | g p lo hi | r1 IH1 r2 IH2 | r1 IH1 r2 IH2 | r1 IH1 | n r1 IH1];
    intros R1 R2 s cs1 cs2 k1 k2 Hk; simpl.
  - apply Hk.
  - destruct s as [|c t]; [reflexivity|]. destruct (p c); [apply Hk | reflexivity].
  - destruct g; [apply repGreedy_succeeds | apply repLazy_succeeds];
      intro s'; apply Hk.
  - apply IH1. intros s' c1 c2. apply IH2, Hk.
  - rewrite !orElse_succeeds.
    rewrite (IH1 R1 R2 s cs1 cs2 k1 k2 Hk), (IH2 R1 R2 s cs1 cs2 k1 k2 Hk).
    reflexivity.
  - rewrite !orElse_succeeds.
    rewrite (IH1 R1 R2 s cs1 cs2 k1 k2 Hk), (Hk s cs1 cs2). reflexivity.
  - apply IH1. intros s' c1 c2. apply Hk.
Qed.

Lemma test_unfold :
  forall r s,
    test r s = matchesHere r s ||
               match s with
               | EmptyString => false
               | String _ t => test r t
               end.
Proof.
  intros r s. unfold test, matchesHere. destruct s as [|c t]; simpl.
  - destruct (matchHere r ""); reflexivity.
  - destruct (matchHere r (String c t)); reflexivity.
Qed.

Lemma matchesHere_run :
  forall r s, matchesHere r s = succeeds (run r s [] (fun _ _ => Some tt)).
Proof.
  intros r s. unfold matchesHere, matchHere. apply run_succeeds. reflexivity.
Qed.

Lemma matchesHere_Grp :
  forall n r s, matchesHere (Grp n r) s = matchesHere r s.
Proof.
  intros n r s. rewrite !matchesHere_run. simpl.
  apply run_succeeds. reflexivity.
Qed.

Lemma matchesHere_Alt :
  forall a b s, matchesHere (Alt a b) s = matchesHere a s || matchesHere b s.
Proof.
  intros a b s. rewrite !matchesHere_run. simpl. apply orElse_succeeds.
Qed.

Lemma test_Grp : forall n r s, test (Grp n r) s = test r s.
Proof.
  intros n r. induction s as [|c t IH]; rewrite (test_unfold (Grp n r)), (test_unfold r),
    matchesHere_Grp; [reflexivity | rewrite IH; reflexivity].
Qed.

Lemma test_Alt : forall a b s, test (Alt a b) s = test a s || test b s.
Proof.
  intros a b. induction s as [|c t IH];
    rewrite (test_unfold (Alt a b)), (test_unfold a), (test_unfold b), matchesHere_Alt.
  - rewrite !orb_false_r. reflexivity.
  - rewrite IH.
    destruct (matchesHere a (String c t)), (matchesHere b (String c t)),
      (test a t), (test b t); reflexivity.
Qed.

(** A literal under the [i] flag matches where the lower-cased text starts
    with the lower-cased literal. *)
Lemma run_liti :
  forall (R : Type) w s cs (k : string -> captures -> option R),
    run (liti w) s cs k =
    if prefix (toLowerCase w) (toLowerCase s) then k (dropStr (String.length w) s) cs
    else None.
Proof.
  intros R. induction w as [|c w IH]; intros s cs k; simpl.
  - destruct s; reflexivity.
  - destruct s as [|x t]; simpl; [reflexivity|].
    unfold chi.
    destruct (Ascii.eqb_spec (lowerChar x) (lowerChar c)) as [E|E].
    + rewrite IH. destruct (ascii_dec (lowerChar c) (lowerChar x)) as [_|N];
        [reflexivity | congruence].
    + destruct (ascii_dec (lowerChar c) (lowerChar x)) as [E'|_];
        [congruence | reflexivity].
Qed.

Lemma matchesHere_liti :
  forall w s, matchesHere (liti w) s = prefix (toLowerCase w) (toLowerCase s).
Proof.
  intros w s. rewrite matchesHere_run, run_liti.
  destruct (prefix (toLowerCase w) (toLowerCase s)); reflexivity.
Qed.

(** [/literal/i.test(s)] is containment of the lower-cased literal in the
    lower-cased text. *)
Lemma test_liti :
  forall w s, test (liti w) s = includes (toLowerCase w) (toLowerCase s).
Proof.
  intros w. induction s as [|c t IH]; rewrite test_unfold, matchesHere_liti.
  - simpl. rewrite orb_false_r. reflexivity.
  - rewrite IH. reflexivity.
Qed.

(** ** The store filter, again *)

(** The store filter tests containment of the brand. *)
Lemma test_prisjaktRe :
  forall s, test prisjaktRe s = includes "prisjakt" (toLowerCase s).
Proof.
  intro s. unfold prisjaktRe. rewrite test_Grp, test_liti. reflexivity.
Qed.

(** Lower-casing a character and lower-casing it as an ASCII letter differ
    outside the ASCII range only. *)
Lemma lowerChar_lowerAscii :
  forall x,
    lowerChar x = lowerAscii x \/
    (isAscii (lowerChar x) = false /\ isAscii (lowerAscii x) = false).
Proof.
  intros [[] [] [] [] [] [] [] []]; vm_compute; auto.
Qed.

Lemma prefix_lowerAscii :
  forall w s,
    allChars isAscii w = true ->
    prefix w (toLowerCase s) = prefix w (toLowerAscii s).
Proof.
  induction w as [|c w IH]; intros s Hw; [destruct s; reflexivity|].
  cbn [allChars] in Hw. apply andb_true_iff in Hw. destruct Hw as (Hc & Hw).
  destruct s as [|x s]; [reflexivity|]. cbn [toLowerCase toLowerAscii prefix].
  destruct (lowerChar_lowerAscii x) as [->|(H1 & H2)].
  - rewrite (IH s Hw). reflexivity.
  - destruct (ascii_dec c (lowerChar x)) as [E|_]; [congruence|].
    destruct (ascii_dec c (lowerAscii x)) as [E|_]; [congruence | reflexivity].
Qed.

Lemma includes_lowerAscii :
  forall w s,
    allChars isAscii w = true ->
    includes w (toLowerCase s) = includes w (toLowerAscii s).
Proof.
  intros w s Hw. induction s as [|x s IH].
  - reflexivity.
  - change (toLowerCase (String x s)) with (String (lowerChar x) (toLowerCase s)).
    change (toLowerAscii (String x s)) with (String (lowerAscii x) (toLowerAscii s)).
    cbn [includes]. rewrite IH.
    change (String (lowerChar x) (toLowerCase s)) with (toLowerCase (String x s)).
    change (String (lowerAscii x) (toLowerAscii s)) with (toLowerAscii (String x s)).
    rewrite (prefix_lowerAscii w (String x s) Hw). reflexivity.
Qed.

(** The store filter tests containment of the brand written with ASCII
    letters in either case. *)
Lemma test_prisjaktRe_ascii :
  forall s, test prisjaktRe s = includes "prisjakt" (toLowerAscii s).
Proof.
  intro s. rewrite test_prisjaktRe. apply includes_lowerAscii. reflexivity.
Qed.

(** X1. On offers whose name, store and store address are strings the
    filter returns, keeping in their order exactly the offers whose store
    does not hold the eight letters of [prisjakt] in a row, each as the
    small or the capital ASCII letter. *)
Theorem filterPrisjaktStore_is_containment_filter :
  forall (H : Host) (l : list PrisjaktProduct),
    Forall textFields l ->
    filterPrisjaktStore l
    = Ok (filter (fun p => negb (includes "prisjakt" (storeAscii p))) l).
Proof.
  intros H l Hl. induction Hl as [|p rest (n & s & u & _ & Es & _) _ IH]; simpl.
  - reflexivity.
  - rewrite Es, IH. simpl. unfold storeAscii. rewrite Es, test_prisjaktRe_ascii.
    destruct (includes "prisjakt" (toLowerAscii s)); reflexivity.
Qed.

Lemma filterPrisjaktStore_containment_witness :
  @filterPrisjaktStore offlineHost
     [sameUrlOffer "Alfa" (Fin 100); brandOffer; sameUrlOffer "Beta" (Fin 120)]
  = Ok (filter (fun p => negb (includes "prisjakt" (storeAscii p)))
          [sameUrlOffer "Alfa" (Fin 100); brandOffer; sameUrlOffer "Beta" (Fin 120)]).
Proof.
  apply (filterPrisjaktStore_is_containment_filter offlineHost).
  repeat (apply Forall_cons; [do 3 eexists; repeat split; reflexivity|]).
  apply Forall_nil.
Defined.

Lemma filterPrisjaktStore_fixed :
  forall (H : Host) l r, filterPrisjaktStore l = Ok r -> filterPrisjaktStore r = Ok r.
Proof.
  intros H. induction l as [|p rest IH]; intros r E; simpl in E.
  - injection E as <-. reflexivity.
  - bind_inv E. bind_inv E. injection E as <-.
    specialize (IH _ E1).
    destruct (test prisjaktRe x) eqn:Ht; [exact IH|].
    simpl. rewrite E0, IH. simpl. rewrite Ht. reflexivity.
Qed.

Lemma filterPrisjaktStore_length :
  forall (H : Host) l r,
    filterPrisjaktStore l = Ok r -> List.length r <= List.length l.
Proof.
  intros H. induction l as [|p rest IH]; intros r E; simpl in E.
  - injection E as <-. simpl. lia.
  - bind_inv E. bind_inv E. injection E as <-. specialize (IH _ E1).
    destruct (test prisjaktRe x); simpl; lia.
Qed.

(** X2. The store filter is idempotent, and its result is never longer than
    its input and holds only offers of its input. *)
Theorem filterPrisjaktStore_idempotent :
  forall (H : Host) (l : list PrisjaktProduct),
    (r <- filterPrisjaktStore l ;; filterPrisjaktStore r) = filterPrisjaktStore l /\
    (forall r, filterPrisjaktStore l = Ok r ->
               List.length r <= List.length l /\ incl r l).
Proof.
  intros H l. split.
  - destruct (filterPrisjaktStore l) as [r|] eqn:E; simpl; [|reflexivity].
    eapply filterPrisjaktStore_fixed, E.
  - intros r E. split.
    + eapply filterPrisjaktStore_length, E.
    + eapply filterPrisjaktStore_incl, E.
Qed.

(** Offers whose stores are strings that the filter expression does not
    match all pass the filter. *)
Lemma filterPrisjaktStore_keeps :
  forall (H : Host) l,
    Forall (fun p => exists s, store p = VStr s /\ test prisjaktRe s = false) l ->
    filterPrisjaktStore l = Ok l.
Proof.
  intros H l Hl. induction Hl as [|p rest (s & Es & Ht) _ IH]; simpl.
  - reflexivity.
  - rewrite Es, IH. simpl. rewrite Ht. reflexivity.
Qed.

Lemma primaryNoise_covers_brand :
  forall s, test primaryNoiseRe s = false -> test prisjaktRe s = false.
Proof.
  intros s E. unfold primaryNoiseRe in E. simpl alts in E.
  rewrite test_Grp, test_Alt in E. apply orb_false_iff in E.
  unfold prisjaktRe. rewrite test_Grp. apply E.
Qed.

Lemma offerNoise_covers_brand :
  forall s, test offerNoiseRe s = false -> test prisjaktRe s = false.
Proof.
  intros s E. unfold offerNoiseRe in E. simpl alts in E.
  rewrite test_Grp, test_Alt in E. apply orb_false_iff in E.
  unfold prisjaktRe. rewrite test_Grp. apply E.
Qed.

(** X3. The primary-card extractor returns at most one offer; the offer is
    in stock, links to the product page named by its id, and passes the
    store filter. *)
Theorem extractPrimarySearchItems_single_unfiltered :
  forall (H : Host) (html : string),
    List.length (extractPrimarySearchItems html) <= 1 /\
    Forall (fun p => availability p = in_stock /\
                     storeUrl p = VStr (hostUrl ++ id p) /\
                     exists s, store p = VStr s /\ test primaryNoiseRe s = false)
           (extractPrimarySearchItems html) /\
    filterPrisjaktStore (extractPrimarySearchItems html)
    = Ok (extractPrimarySearchItems html).
Proof.
  intros H html.
  assert (Hshape :
    List.length (extractPrimarySearchItems html) <= 1 /\
    Forall (fun p => availability p = in_stock /\
                     storeUrl p = VStr (hostUrl ++ id p) /\
                     exists s, store p = VStr s /\ test primaryNoiseRe s = false)
           (extractPrimarySearchItems html)).
  { unfold extractPrimarySearchItems.
    destruct (search primaryLinkRe html) as [lm|]; [|split; [simpl; lia | constructor]].
    destruct (search primaryPriceRe html) as [pm|]; [|split; [simpl; lia | constructor]].
    destruct (search primaryStoreRe html) as [sm|]; [|split; [simpl; lia | constructor]].
    match goal with |- context [if test primaryNoiseRe ?s then _ else _] =>
      destruct (test primaryNoiseRe s) eqn:Hn; [split; [simpl; lia | constructor]|]
    end.
    match goal with |- context [if ?c then _ else _] =>
      destruct c; [|split; [simpl; lia | constructor]]
    end.
    split; [simpl; lia|]. constructor; [|constructor].
    simpl. repeat split. eexists. split; [reflexivity | exact Hn]. }
  destruct Hshape as (Hlen & Hall). split; [exact Hlen|]. split; [exact Hall|].
  apply filterPrisjaktStore_keeps.
  eapply Forall_impl; [|exact Hall].
  intros p (_ & _ & s & Es & Hn). exists s. split; [exact Es|].
  apply primaryNoise_covers_brand, Hn.
Qed.

(** ** The product-page extractor, again *)

Lemma pageOffer_id :
  forall name_ pageUrl m p,
    pageOffer name_ pageUrl m = Some p ->
    id p = (pageUrl ++ "::" ++ offerStore (group 2 m))%string.
Proof.
  unfold pageOffer. intros name_ pageUrl m p E.
  destruct (negb (nonEmptyString (offerStore (group 2 m)))
            || test offerNoiseRe (offerStore (group 2 m))); [discriminate E|].
  destruct (search priceLabelRe (group 2 m)) as [pm|]; [|discriminate E].
  destruct (negb (isFinite (parsePrice (replaceAll nbspRe "" (group 1 pm))))
            || lessEq (parsePrice (replaceAll nbspRe "" (group 1 pm))) zero);
    [discriminate E|].
  injection E as <-. reflexivity.
Qed.

Lemma mapSet_length :
  forall k p m, List.length (mapSet k p m) <= S (List.length m).
Proof.
  intros k p. induction m as [|[k' v'] rest IH]; simpl; [lia|].
  destruct (String.eqb k' k); simpl; lia.
Qed.

Lemma byStore_fold_length :
  forall out m,
    List.length (fold_left byStoreStep out m) <= List.length m + List.length out.
Proof.
  induction out as [|p rest IH]; intro m; simpl; [lia|].
  specialize (IH (byStoreStep m p)).
  assert (List.length (byStoreStep m p) <= S (List.length m)).
  { unfold byStoreStep. destruct (mapGet (storeKey p) m) as [prev|].
    - destruct (lessThan (price p) (price prev)); [apply mapSet_length | lia].
    - apply mapSet_length. }
  lia.
Qed.

Lemma NoDup_map_finer :
  forall (A B C : Type) (f : A -> B) (g : A -> C) (l : list A),
    NoDup (map f l) ->
    (forall x y, In x l -> In y l -> g x = g y -> f x = f y) ->
    NoDup (map g l).
Proof.
  intros A B C f g. induction l as [|a rest IH]; simpl; intros Hnd Hfg.
  - constructor.
  - inversion Hnd as [|? ? Ha Hnd']; subst. constructor.
    + intro Hin. apply in_map_iff in Hin. destruct Hin as (y & Ey & Hy).
      apply Ha. apply in_map_iff. exists y. split; [|exact Hy].
      symmetry. apply Hfg; [left; reflexivity | right; exact Hy | symmetry; exact Ey].
    + apply IH; [exact Hnd'|]. intros x y Hx Hy. apply Hfg; right; assumption.
Qed.

(** What every offer of the map [byStore] looks like. *)
Lemma byStore_offers :
  forall html pageUrl p,
    In p (map snd (byStore (pageOffers html pageUrl))) ->
    exists s, store p = VStr s /\ id p = (pageUrl ++ "::" ++ s)%string /\
              test offerNoiseRe s = false.
Proof.
  intros html pageUrl p Hp.
  apply (byStore_incl _ (pageOffers_finite html pageUrl)) in Hp.
  apply collectSome_In in Hp. destruct Hp as (m & _ & E).
  pose proof (pageOffer_id _ _ _ _ E) as Ei.
  apply pageOffer_Some in E. destruct E as (_ & Es & _ & Hn & _).
  exists (offerStore (group 2 m)). auto.
Qed.

(** X4. The product-page extractor returns at most as many offers as rows
    were collected, with pairwise different stores (up to case) and ids,
    and all of them pass the store filter. *)
Theorem product_page_offers_distinct_unfiltered :
  forall (H : Host) (html pageUrl : string),
    NoDup (map storeKey (extractOffersFromProductPageNaively html pageUrl)) /\
    NoDup (map id (extractOffersFromProductPageNaively html pageUrl)) /\
    List.length (extractOffersFromProductPageNaively html pageUrl)
      <= List.length (pageOffers html pageUrl) /\
    filterPrisjaktStore (extractOffersFromProductPageNaively html pageUrl)
    = Ok (extractOffersFromProductPageNaively html pageUrl).
Proof.
  intros H html pageUrl.
  set (offers := map snd (byStore (pageOffers html pageUrl))).
  assert (Hkeys : NoDup (map storeKey offers)).
  { destruct (byStore_inv _ (pageOffers_finite html pageUrl)) as (Hnd & Hent & _).
    replace (map storeKey offers) with (map fst (byStore (pageOffers html pageUrl)));
      [exact Hnd|].
    unfold offers. rewrite map_map. apply map_ext_in.
    intros [k v] Hin. simpl. symmetry. apply (Hent _ _ Hin). }
  assert (Hids : NoDup (map id offers)).
  { apply (NoDup_map_finer _ _ _ storeKey id); [exact Hkeys|].
    intros x y Hx Hy E.
    destruct (byStore_offers _ _ _ Hx) as (sx & Esx & Eix & _).
    destruct (byStore_offers _ _ _ Hy) as (sy & Esy & Eiy & _).
    rewrite Eix, Eiy in E. apply append_inj_l in E.
    simpl in E. injection E as E. unfold storeKey. rewrite Esx, Esy, E. reflexivity. }
  assert (Hlen : List.length offers <= List.length (pageOffers html pageUrl)).
  { unfold offers. rewrite length_map.
    apply (byStore_fold_length (pageOffers html pageUrl) []). }
  assert (Hpass : Forall (fun p => exists s, store p = VStr s /\
                                             test prisjaktRe s = false) offers).
  { apply Forall_forall. intros p Hp.
    destruct (byStore_offers _ _ _ Hp) as (s & Es & _ & Hn).
    exists s. split; [exact Es | apply offerNoise_covers_brand, Hn]. }
  unfold extractOffersFromProductPageNaively. fold offers.
  destruct (nonEmptyString (pageName html)); simpl.
  - destruct (test noStockRe html).
    + rewrite !map_map. simpl.
      change (map (fun x => storeKey (markNotAvailable x)) offers)
        with (map storeKey offers).
      change (map (fun x => id x) offers) with (map id offers).
      rewrite length_map. repeat split; try assumption.
      apply filterPrisjaktStore_keeps. apply Forall_forall. intros p Hp.
      apply in_map_iff in Hp. destruct Hp as (o & <- & Ho).
      rewrite Forall_forall in Hpass. exact (Hpass o Ho).
    + repeat split; try assumption. apply filterPrisjaktStore_keeps, Hpass.
  - repeat split; try constructor. lia.
Qed.

(** ** The walk over structured data, again *)

Section WalkMore.
Context {H : Host}.

Lemma after_nil : forall w, after_ [] w = w.
Proof. intros [l|l]; reflexivity. Qed.

Lemma after_after :
  forall a b w, after_ a (after_ b w) = after_ (a ++ b) w.
Proof. intros a b [l|l]; simpl; rewrite app_assoc; reflexivity. Qed.

Lemma forEach_after :
  forall (A : Type) (f : A -> list PrisjaktProduct -> walk) (xs : list A),
    Forall (fun x => forall out, f x out = after_ out (f x [])) xs ->
    forall out, forEach f xs out = after_ out (forEach f xs []).
Proof.
  intros A f xs Hxs. induction Hxs as [|x rest Hx _ IH]; intro out; simpl.
  - rewrite app_nil_r. reflexivity.
  - rewrite (Hx out). destruct (f x []) as [added|added]; simpl.
    + rewrite (IH (out ++ added)), (IH added), after_after. reflexivity.
    + reflexivity.
Qed.

Lemma collect_visit_after :
  forall obj,
    (forall out, collectProductsFromLdObject obj out
                 = after_ out (collectProductsFromLdObject obj [])) /\
    (forall out, visitValue obj out = after_ out (visitValue obj [])).
Proof.
  induction obj as [| | b | n | s | items IH | fields IH] using value_nested_ind;
    try (split; intro out; simpl; rewrite app_nil_r; reflexivity).
  - split; intro out.
    + rewrite !collect_unfold. apply forEach_after.
      eapply Forall_impl; [|exact IH]. intros v Hv. apply Hv.
    + simpl. apply forEach_after.
      eapply Forall_impl; [|exact IH]. intros v Hv. apply Hv.
  - assert (Hc : forall out, collectProductsFromLdObject (VObj fields) out
                 = after_ out (collectProductsFromLdObject (VObj fields) [])).
    { intro out. rewrite !collect_unfold.
      destruct (nodeOffers (VObj fields)) as [valid|];
        [|simpl; rewrite app_nil_r; reflexivity].
      assert (Hf : forall o, forEach (fun kv => visitValue (snd kv)) fields o
                   = after_ o (forEach (fun kv => visitValue (snd kv)) fields [])).
      { apply forEach_after. eapply Forall_impl; [|exact IH].
        intros kv Hkv. apply Hkv. }
      rewrite (Hf (out ++ valid)), (Hf ([] ++ valid)), after_after. reflexivity. }
    split; [exact Hc | exact Hc].
Qed.

(** The offers a completed loop has pushed include those of each turn. *)
Lemma forEach_completed :
  forall (A : Type) (f : A -> list PrisjaktProduct -> walk) (xs : list A),
    Forall (fun x => forall out, f x out = after_ out (f x [])) xs ->
    forall out res x,
      forEach f xs out = Completed res -> In x xs ->
      incl out res /\
      exists added, f x [] = Completed added /\ incl added res.
Proof.
  intros A f xs Hxs. induction Hxs as [|a rest Ha Hrest IH]; intros out res x E Hx;
    simpl in *; [contradiction|].
  rewrite (Ha out) in E. destruct (f a []) as [added|added] eqn:Ea; simpl in E;
    [|discriminate E].
  destruct rest as [|b rest'].
  - simpl in E. injection E as <-. destruct Hx as [<-|[]].
    split; [apply incl_appl, incl_refl|].
    exists added. split; [exact Ea | apply incl_appr, incl_refl].
  - assert (Hgrow : incl (out ++ added) res).
    { destruct (IH (out ++ added) res b E (or_introl eq_refl)) as (Hi & _). exact Hi. }
    split; [intros y Hy; apply Hgrow, in_or_app; left; exact Hy|].
    destruct Hx as [<-|Hx].
    + exists added. split; [exact Ea|].
      intros y Hy. apply Hgrow, in_or_app. right. exact Hy.
    + destruct (IH _ _ _ E Hx) as (_ & Hex). exact Hex.
Qed.

Lemma collect_reaches :
  forall root node,
    inside node root ->
    forall fields, node = VObj fields ->
    (forall res, collectProductsFromLdObject root [] = Completed res ->
       exists l, nodeOffers node = Ok l /\ incl l res) /\
    (forall res, visitValue root [] = Completed res ->
       exists l, nodeOffers node = Ok l /\ incl l res).
Proof.
  intros root node Hin. induction Hin as [| items x Hx Hin IH | flds k x Hx Hin IH];
    intros fields Enode.
  - subst node.
    assert (Hc : forall res,
               collectProductsFromLdObject (VObj fields) [] = Completed res ->
               exists l, nodeOffers (VObj fields) = Ok l /\ incl l res).
    { intros res E. rewrite collect_unfold in E.
      destruct (nodeOffers (VObj fields)) as [valid|]; [|discriminate E].
      exists valid. split; [reflexivity|]. simpl in E.
      destruct fields as [|kv rest].
      - simpl in E. injection E as <-. apply incl_refl.
      - refine (proj1 (forEach_completed _ _ (kv :: rest) _ valid res kv E
                         (or_introl eq_refl))).
        apply Forall_forall. intros y _. apply collect_visit_after. }
    split; [exact Hc | exact Hc].
  - destruct (IH fields Enode) as (IHc & IHv). split; intros res E.
    + rewrite collect_unfold in E.
      destruct (forEach_completed _ visitValue items
                  (proj2 (Forall_forall _ _) (fun y _ => proj2 (collect_visit_after y)))
                  [] res x E Hx) as (_ & added & Ea & Hsub).
      destruct (IHv _ Ea) as (l & El & Hl).
      exists l. split; [exact El | eapply incl_tran; eassumption].
    + simpl in E.
      destruct (forEach_completed _ collectProductsFromLdObject items
                  (proj2 (Forall_forall _ _) (fun y _ => proj1 (collect_visit_after y)))
                  [] res x E Hx) as (_ & added & Ea & Hsub).
      destruct (IHc _ Ea) as (l & El & Hl).
      exists l. split; [exact El | eapply incl_tran; eassumption].
  - destruct (IH fields Enode) as (IHc & IHv).
    assert (Hc : forall res,
               collectProductsFromLdObject (VObj flds) [] = Completed res ->
               exists l, nodeOffers node = Ok l /\ incl l res).
    { intros res E. rewrite collect_unfold in E.
      destruct (nodeOffers (VObj flds)) as [valid|]; [|discriminate E].
      simpl in E.
      destruct (forEach_completed _ (fun kv => visitValue (snd kv)) flds
                  (proj2 (Forall_forall _ _)
                     (fun y _ => proj2 (collect_visit_after (snd y))))
                  valid res (k, x) E Hx) as (_ & added & Ea & Hsub).
      simpl in Ea. destruct (IHv _ Ea) as (l & El & Hl).
      exists l. split; [exact El | eapply incl_tran; eassumption]. }
    split; [exact Hc | exact Hc].
Qed.
End WalkMore.

(** X5. The walk only appends: what [collectProductsFromLdObject] leaves in
    the array is the array it was given followed by what the same walk
    leaves when started on the empty array, and it is cut short in the one
    case exactly when it is in the other. Offers pushed before the walk are
    never dropped or reordered, also when an exception cuts the walk
    short. *)
Theorem collectProductsFromLdObject_only_appends :
  forall (H : Host) (obj : value) (out : list PrisjaktProduct),
    collectProductsFromLdObject obj out
    = after_ out (collectProductsFromLdObject obj []).
Proof.
  intros H obj out. apply collect_visit_after.
Qed.

(** X6. A walk that runs to its end reaches every object nested in the
    value it starts on, at any depth of arrays and properties: the offers
    of that node are among the offers pushed. *)
Theorem collectProductsFromLdObject_reaches_nested_nodes :
  forall (H : Host) (root : value) (fields : list (string * value))
         (res : list PrisjaktProduct),
    inside (VObj fields) root ->
    collectProductsFromLdObject root [] = Completed res ->
    exists l, nodeOffers (VObj fields) = Ok l /\ incl l res.
Proof.
  intros H root fields res Hin E.
  destruct (collect_reaches root (VObj fields) Hin fields eq_refl) as (Hc & _).
  apply Hc, E.
Qed.

(** The Product node of the example inside a graph: both of its offers are
    pushed. *)
Lemma collect_reaches_graph_witness :
  exists l,
    @nodeOffers offlineHost sameUrlProduct = Ok l /\
    incl l [sameUrlOffer "Alfa" (Fin 100); sameUrlOffer "Beta" (Fin 120)].
Proof.
  apply (collectProductsFromLdObject_reaches_nested_nodes offlineHost graphDocument).
  - eapply inside_field; [right; left; reflexivity|].
    eapply inside_item; [right; left; reflexivity|].
    apply inside_here.
  - vm_compute. reflexivity.
Defined.

(** ** Prices *)

Lemma substring_0_0 : forall s, substring 0 0 s = "".
Proof. intros [|c t]; reflexivity. Qed.

Lemma consumed_one : forall c t, consumed (String c t) t = String c "".
Proof.
  intros c t. unfold consumed.
  change (String.length (String c t)) with (S (String.length t)).
  rewrite Nat.sub_succ_l by apply Nat.le_refl. rewrite Nat.sub_diag.
  simpl. rewrite substring_0_0. reflexivity.
Qed.

(** Replacing every single character that satisfies [p] by nothing keeps
    the characters that do not satisfy it. *)
Lemma replaceAll_Cls :
  forall p s, replaceAll (Cls p) "" s = keepChars (fun c => negb (p c)) s.
Proof.
  intros p. unfold replaceAll. induction s as [|c t IH]; [reflexivity|].
  cbn [replaceAllFrom keepChars]. unfold matchHere. cbn [run].
  destruct (p c); cbn [negb].
  - cbn [whole]. rewrite consumed_one. simpl. exact IH.
  - rewrite IH. reflexivity.
Qed.

Lemma keepChars_ext :
  forall p q s, (forall c, p c = q c) -> keepChars p s = keepChars q s.
Proof.
  intros p q s E. induction s as [|c t IH]; simpl; [reflexivity|].
  rewrite E, IH. reflexivity.
Qed.

Lemma clean_numeric :
  forall s, replaceAll nonNumericRe "" s = keepChars numericChar s.
Proof.
  intro s. unfold nonNumericRe. rewrite replaceAll_Cls.
  apply keepChars_ext. intro c. apply negb_involutive.
Qed.

Lemma clean_digits :
  forall s, replaceAll nonDigitRe "" s = keepChars isDigit s.
Proof.
  intro s. unfold nonDigitRe. rewrite replaceAll_Cls.
  apply keepChars_ext. intro c. apply negb_involutive.
Qed.

Lemma Qred_integer : forall z, Qred (inject_Z z) = inject_Z z.
Proof.
  intro z. unfold Qred, inject_Z.
  pose proof (Z.ggcd_gcd z 1) as Hg. pose proof (Z.ggcd_correct_divisors z 1) as Hd.
  destruct (Z.ggcd z 1) as (g & a & b). simpl in Hg. rewrite Z.gcd_1_r in Hg.
  subst g. destruct Hd as (Ha & Hb). rewrite Z.mul_1_l in Ha, Hb. subst a b.
  reflexivity.
Qed.

Lemma Qred_whole :
  forall (r : Q) (z : Z), (r == inject_Z z)%Q -> Qred r = inject_Z z.
Proof.
  intros r z E. rewrite (Qred_complete _ _ E). apply Qred_integer.
Qed.

Lemma roundHalfEven_nonneg :
  forall num den, (0 <= num)%Z -> (0 < den)%Z -> (0 <= roundHalfEven num den)%Z.
Proof.
  intros num den Hn Hd. unfold roundHalfEven.
  assert (0 <= num / den)%Z by (apply Z.div_pos; lia).
  destruct (2 * (num mod den) ?= den)%Z; [destruct (Z.even (num / den))| |]; lia.
Qed.

Lemma roundHalfEven_whole : forall num, roundHalfEven num 1 = num.
Proof.
  intro num. unfold roundHalfEven. rewrite Z.mod_1_r, Z.div_1_r. reflexivity.
Qed.

Lemma floorLog2_whole :
  forall a, (0 < a)%Z -> floorLog2 a 1 = Z.log2 a.
Proof.
  intros a Ha. unfold floorLog2. change (Z.log2 1) with 0%Z. rewrite Z.sub_0_r.
  pose proof (Z.log2_nonneg a) as Hl. pose proof (Z.log2_spec a Ha) as (Hs & _).
  destruct (Z.leb_spec 0 (Z.log2 a)); [|lia].
  destruct (Z.leb_spec (2 ^ Z.log2 a * 1) a); [reflexivity | lia].
Qed.

Lemma nearestDouble_nonneg :
  forall q, nearestDouble q = Inf false \/
            exists q', nearestDouble q = Fin q' /\ (0 <= q')%Q.
Proof.
  intro q. unfold nearestDouble.
  destruct (Z.leb_spec (Qnum q) 0) as [_|Hn].
  - right. exists 0%Q. split; [reflexivity | apply Qle_refl].
  - cbv zeta.
    set (ex := (Z.max (floorLog2 (Qnum q) (Z.pos (Qden q))) (-1022) - 52)%Z).
    match goal with |- context [Qle_bool _ ?r] => set (res := r) end.
    destruct (Qle_bool (inject_Z (2 ^ 1024)) res); [left; reflexivity|].
    right. exists (Qred res). split; [reflexivity|].
    rewrite Qred_correct. subst res.
    destruct (Z.ltb_spec ex 0) as [Hex|Hex].
    + assert (Hm : (0 <= roundHalfEven (Qnum q * 2 ^ (- ex)) (Z.pos (Qden q)))%Z).
      { apply roundHalfEven_nonneg; [|lia].
        apply Z.mul_nonneg_nonneg; [lia|]. apply Z.pow_nonneg. lia. }
      unfold Qle. cbn [Qnum Qden]. lia.
    + assert (Hm : (0 <= roundHalfEven (Qnum q) (Z.pos (Qden q) * 2 ^ ex) * 2 ^ ex)%Z).
      { apply Z.mul_nonneg_nonneg; [|apply Z.pow_nonneg; lia].
        apply roundHalfEven_nonneg; [lia|].
        apply Z.mul_pos_pos; [lia|]. apply Z.pow_pos_nonneg; lia. }
      unfold Qle, inject_Z. cbn [Qnum Qden]. lia.
Qed.

(** The double nearest to a whole number is a whole number, or Infinity. *)
Lemma nearestDouble_natural :
  forall a : N,
    nearestDouble (inject_Z (Z.of_N a)) = Inf false \/
    exists b : N, nearestDouble (inject_Z (Z.of_N a)) = Fin (inject_Z (Z.of_N b)).
Proof.
  intro a. unfold nearestDouble. cbn [Qnum Qden inject_Z].
  destruct (Z.leb_spec (Z.of_N a) 0) as [_|Ha].
  - right. exists 0%N. reflexivity.
  - cbv zeta.
    set (ex := (Z.max (floorLog2 (Z.of_N a) 1) (-1022) - 52)%Z).
    match goal with |- context [Qle_bool _ ?r] => set (res := r) end.
    destruct (Qle_bool (inject_Z (2 ^ 1024)) res); [left; reflexivity|].
    right. subst res. destruct (Z.ltb_spec ex 0) as [Hex|Hex].
    + exists a. f_equal. apply Qred_whole.
      rewrite roundHalfEven_whole. unfold Qeq, inject_Z. cbn [Qnum Qden].
      rewrite Z2Pos.id by (apply Z.pow_pos_nonneg; lia). lia.
    + set (m := roundHalfEven (Z.of_N a) (1 * 2 ^ ex)).
      assert (Hm : (0 <= m)%Z).
      { apply roundHalfEven_nonneg; [lia|].
        apply Z.mul_pos_pos; [lia|]. apply Z.pow_pos_nonneg; lia. }
      exists (Z.to_N (m * 2 ^ ex)). rewrite Qred_integer, Z2N.id; [reflexivity|].
      apply Z.mul_nonneg_nonneg; [exact Hm | apply Z.pow_nonneg; lia].
Qed.

(** A whole number below 2^53 is a double. *)
Lemma nearestDouble_integer :
  forall n : N, (n < 2 ^ 53)%N ->
    nearestDouble (inject_Z (Z.of_N n)) = Fin (inject_Z (Z.of_N n)).
Proof.
  intros n Hn.
  assert (Hz : (0 <= Z.of_N n < 2 ^ 53)%Z).
  { split; [lia|]. change (2 ^ 53)%Z with (Z.of_N (2 ^ 53)). lia. }
  unfold nearestDouble. cbn [Qnum Qden inject_Z].
  destruct (Z.leb_spec (Z.of_N n) 0) as [H0|Ha].
  - assert (Z.of_N n = 0)%Z as -> by lia. reflexivity.
  - cbv zeta. rewrite (floorLog2_whole _ Ha).
    assert (Hl : (0 <= Z.log2 (Z.of_N n) < 53)%Z).
    { split; [apply Z.log2_nonneg|]. apply Z.log2_lt_pow2; lia. }
    rewrite Z.max_l by lia.
    set (ex := (Z.log2 (Z.of_N n) - 52)%Z).
    match goal with |- context [Qle_bool _ ?r] => set (res := r) end.
    assert (Hval : (res == inject_Z (Z.of_N n))%Q).
    { subst res. destruct (Z.ltb_spec ex 0) as [Hex|Hex].
      - rewrite roundHalfEven_whole. unfold Qeq, inject_Z. cbn [Qnum Qden].
        rewrite Z2Pos.id by (apply Z.pow_pos_nonneg; lia). lia.
      - assert (ex = 0)%Z as -> by lia. cbn [Z.pow Z.mul Pos.mul].
        rewrite roundHalfEven_whole, Z.mul_1_r. reflexivity. }
    destruct (Qle_bool (inject_Z (2 ^ 1024)) res) eqn:Eo.
    + exfalso. apply Qle_bool_iff in Eo.
      assert (Eo' : (inject_Z (2 ^ 1024) <= inject_Z (Z.of_N n))%Q).
      { eapply Qle_trans; [exact Eo|]. apply Qle_lteq. right. exact Hval. }
      rewrite <- Zle_Qle in Eo'.
      assert (2 ^ 53 < 2 ^ 1024)%Z by (vm_compute; reflexivity). lia.
    + f_equal. apply Qred_whole, Hval.
Qed.

(** Numerals that are not doubles go to the nearest double, the even one
    of two that are equally near: 2^53 + 1 goes to 2^53 and 2^53 + 3 to
    2^53 + 4; one tenth goes to 3602879701896397 / 2^55; 1299.50 is a
    double; the largest double plus half a unit in its last place goes to
    Infinity, and half the smallest double to 0. *)
Example nearestDouble_rounds :
  nearestDouble (inject_Z 9007199254740993) = Fin (inject_Z 9007199254740992) /\
  nearestDouble (inject_Z 9007199254740995) = Fin (inject_Z 9007199254740996) /\
  nearestDouble (Qmake 1 10) = Fin (Qmake 3602879701896397 36028797018963968) /\
  nearestDouble (Qmake 129950 100) = Fin (Qmake 2599 2) /\
  nearestDouble (inject_Z (2 ^ 1024 - 2 ^ 970)) = Inf false /\
  nearestDouble (Qmake 1 (2 ^ 1075)) = Fin 0.
Proof. repeat split; vm_compute; reflexivity. Qed.

(** [Number] never yields a negative number. *)
Lemma Number_nonneg :
  forall s,
    Number s = NaN \/ Number s = Inf false \/
    exists q, Number s = Fin q /\ (0 <= q)%Q.
Proof.
  intro s. unfold Number. destruct s as [|c t].
  - right. right. exists 0%Q. split; [reflexivity | apply Qle_refl].
  - destruct (splitDot (String c t)) as [ip [fp|]].
    + destruct (digits ip) as [a|]; [|left; reflexivity].
      destruct (digits fp) as [b|]; [|left; reflexivity].
      destruct ((String.length ip =? 0) && (String.length fp =? 0))%nat;
        [left; reflexivity|].
      right. apply nearestDouble_nonneg.
    + destruct (digits ip) as [a|]; [|left; reflexivity].
      right. apply nearestDouble_nonneg.
Qed.

(** X7. A price depends only on the digits, full stops and commas of its
    text, in their order, and is never negative: every other character, a
    minus sign included, is dropped before the number is read. *)
Theorem parsePrice_reads_numeric_characters_only :
  forall s1 s2 : string,
    (keepChars numericChar s1 = keepChars numericChar s2 ->
     parsePrice s1 = parsePrice s2) /\
    (parsePrice s1 = NaN \/ parsePrice s1 = Inf false \/
     exists q, parsePrice s1 = Fin q /\ (0 <= q)%Q).
Proof.
  intros s1 s2. unfold parsePrice. rewrite !clean_numeric. split.
  - intros ->. reflexivity.
  - apply Number_nonneg.
Qed.

Lemma substring_all_tail :
  forall t, substring 0 (String.length t) t = t.
Proof. induction t as [|c t IH]; simpl; [reflexivity | rewrite IH; reflexivity]. Qed.

(** [s.replace(',', '.')], one character at a time. *)
Lemma replaceFirst_comma :
  forall c t,
    replaceFirst "," "." (String c t) =
    if Ascii.eqb c ","%char then String "."%char t
    else String c (replaceFirst "," "." t).
Proof.
  intros c t. cbn [replaceFirst prefix].
  destruct (ascii_dec ","%char c) as [<-|N].
  - rewrite Ascii.eqb_refl.
    assert (Hp : prefix "" t = true) by (destruct t; reflexivity).
    rewrite Hp. simpl. rewrite Nat.sub_0_r, substring_all_tail. reflexivity.
  - destruct (Ascii.eqb_spec c ","%char) as [->|_]; [congruence | reflexivity].
Qed.

Lemma separator_not_digit : forall c, separator c = true -> isDigit c = false.
Proof.
  intros c Hc. unfold separator in Hc. simpl in Hc.
  rewrite orb_false_r in Hc. apply orb_true_iff in Hc.
  destruct Hc as [E|E]; apply Ascii.eqb_eq in E; subst; reflexivity.
Qed.

(** A run of digits holds no separator. *)
Lemma digitsFrom_separator :
  forall s acc, 1 <= countChars separator s -> digitsFrom acc s = None.
Proof.
  induction s as [|c t IH]; intros acc Hc; simpl in *; [lia|].
  destruct (isDigit c) eqn:Ed; [|reflexivity].
  apply IH. destruct (separator c) eqn:Es; [|simpl in Hc; lia].
  apply separator_not_digit in Es. congruence.
Qed.

(** In a cleaned text with a comma turned into a full stop, everything
    after the first full stop counts one separator less when no comma
    stands before it. *)
Lemma splitDot_after_first :
  forall r,
    2 <= countChars separator r ->
    (forall ip fp, splitDot r = (ip, fp) -> countChars (ch ","%char) ip = 0) ->
    exists ip fp, splitDot r = (ip, Some fp) /\ 1 <= countChars separator fp.
Proof.
  induction r as [|c t IH]; intros Hc Hno; simpl in *; [lia|].
  destruct (Ascii.eqb_spec c "."%char) as [->|Ndot].
  - exists "", t. split; [reflexivity|]. simpl in Hc. lia.
  - destruct (splitDot t) as [a b] eqn:Et.
    assert (Ecomma : Ascii.eqb c ","%char = false).
    { specialize (Hno (String c a) b eq_refl). simpl in Hno. unfold ch in Hno.
      destruct (Ascii.eqb c ","%char); [discriminate Hno | reflexivity]. }
    assert (Es : separator c = false).
    { unfold separator. simpl. rewrite Ecomma.
      destruct (Ascii.eqb_spec c "."%char); [contradiction | reflexivity]. }
    rewrite Es in Hc. simpl in Hc.
    destruct (IH Hc) as (ip & fp & E & Hfp).
    { intros ip fp E. injection E as <- <-.
      specialize (Hno (String c a) b eq_refl). simpl in Hno.
      destruct (ch ","%char c); [discriminate Hno | exact Hno]. }
    injection E as <- ->. exists (String c a), fp. split; [reflexivity | exact Hfp].
Qed.

(** After [replace(',', '.')] no comma stands before the first full stop,
    and as many separators are left. *)
Lemma replaceFirst_comma_shape :
  forall s,
    countChars separator (replaceFirst "," "." s) = countChars separator s /\
    (forall ip fp, splitDot (replaceFirst "," "." s) = (ip, fp) ->
                   countChars (ch ","%char) ip = 0).
Proof.
  induction s as [|c t (IHc & IHs)].
  - split; [reflexivity|]. intros ip fp E. simpl in E. injection E as <- <-. reflexivity.
  - rewrite replaceFirst_comma.
    destruct (Ascii.eqb_spec c ","%char) as [->|Ncomma].
    + split; [reflexivity|]. intros ip fp E. simpl in E. injection E as <- <-. reflexivity.
    + split.
      * simpl. rewrite IHc. reflexivity.
      * intros ip fp E. simpl in E.
        destruct (Ascii.eqb c "."%char).
        -- injection E as <- <-. reflexivity.
        -- destruct (splitDot (replaceFirst "," "." t)) as [a b] eqn:Et.
           injection E as <- <-. simpl. unfold ch at 1.
           destruct (Ascii.eqb_spec c ","%char) as [->|_]; [contradiction|].
           simpl. apply (IHs a b eq_refl).
Qed.

Lemma countChars_keep :
  forall s, countChars separator (keepChars numericChar s) = countChars separator s.
Proof.
  induction s as [|c t IH]; simpl; [reflexivity|].
  destruct (numericChar c) eqn:En; simpl; rewrite IH; [reflexivity|].
  unfold numericChar in En. apply orb_false_iff in En. destruct En as (_ & En).
  unfold separator. rewrite En. reflexivity.
Qed.

(** X8. A text with two or more separators (full stops and commas together)
    is not a price: only the first comma is turned into a decimal point,
    so [1.299,00] and [1,299.00] both read as NaN. *)
Theorem parsePrice_two_separators_NaN :
  forall s, 2 <= countChars separator s -> parsePrice s = NaN.
Proof.
  intros s Hs. unfold parsePrice. rewrite clean_numeric.
  destruct (replaceFirst_comma_shape (keepChars numericChar s)) as (Hc & Hno).
  rewrite countChars_keep in Hc.
  destruct (splitDot_after_first (replaceFirst "," "." (keepChars numericChar s)))
    as (ip & fp & E & Hfp); [lia | exact Hno |].
  unfold Number. rewrite E.
  destruct (replaceFirst "," "." (keepChars numericChar s)) as [|c t] eqn:Er.
  - simpl in E. discriminate E.
  - unfold digits at 2. rewrite (digitsFrom_separator fp 0%N Hfp).
    destruct (digits ip); reflexivity.
Qed.

Lemma parsePrice_two_separators_witness : parsePrice "1.299,00 kr" = NaN.
Proof.
  apply parsePrice_two_separators_NaN. vm_compute. lia.
Defined.

(** Reading a decimal numeral digit by digit gives back the number. *)
Lemma digitsFrom_numeral :
  forall d acc,
    digitsFrom acc (DecimalString.NilEmpty.string_of_uint d)
    = Some match acc with
           | N0 => Pos.of_uint d
           | Npos a => Npos (Pos.of_uint_acc d a)
           end.
Proof.
  induction d as [|d IH|d IH|d IH|d IH|d IH|d IH|d IH|d IH|d IH|d IH];
    intros acc; cbn [DecimalString.NilEmpty.string_of_uint digitsFrom];
    [destruct acc; reflexivity|..];
    change (isDigit _) with true; cbn iota;
    rewrite IH; (destruct acc as [|a]; [reflexivity|]);
    cbn [Pos.of_uint_acc];
    match goal with
    | |- Some (match ?x with _ => _ end) = Some (N.pos (Pos.of_uint_acc _ ?q)) =>
        replace x with (N.pos q)
          by (match goal with
              | |- context [N.of_nat ?e] =>
                  let v := eval vm_compute in (N.of_nat e) in
                  change (N.of_nat e) with v
              end; lia)
    end; reflexivity.
Qed.

Lemma digits_decimal : forall n, digits (decimal n) = Some n.
Proof.
  intro n. unfold digits, decimal. rewrite digitsFrom_numeral.
  change (Pos.of_uint (N.to_uint n)) with (N.of_uint (N.to_uint n)).
  rewrite DecimalN.Unsigned.of_to. reflexivity.
Qed.

Lemma numeral_no_separator :
  forall d, countChars separator (DecimalString.NilEmpty.string_of_uint d) = 0.
Proof. induction d; simpl; auto. Qed.

Lemma numeral_nonempty : forall n, decimal n <> "".
Proof.
  intros [|p]; unfold decimal; [discriminate|].
  intro E. pose proof (digits_decimal (Npos p)) as D. unfold decimal in D.
  rewrite E in D. discriminate D.
Qed.

(** A text without full stop and comma is left as it is by
    [replace(',', '.')] and has nothing after a full stop. *)
Lemma replaceFirst_no_separator :
  forall s, countChars separator s = 0 -> replaceFirst "," "." s = s.
Proof.
  induction s as [|c t IH]; intros Hc; [reflexivity|].
  rewrite replaceFirst_comma. simpl in Hc.
  destruct (separator c) eqn:Es; [discriminate Hc|].
  unfold separator in Es. simpl in Es. rewrite orb_false_r in Es.
  apply orb_false_iff in Es. destruct Es as (_ & ->). rewrite (IH Hc). reflexivity.
Qed.

Lemma splitDot_no_separator :
  forall s, countChars separator s = 0 -> splitDot s = (s, None).
Proof.
  induction s as [|c t IH]; intros Hc; [reflexivity|]. simpl in *.
  destruct (separator c) eqn:Es; [discriminate Hc|].
  unfold separator in Es. simpl in Es. rewrite orb_false_r in Es.
  apply orb_false_iff in Es. destruct Es as (-> & _). rewrite (IH Hc). reflexivity.
Qed.

(** X9. A price written as a whole number below 2^53, with any grouping of
    its digits by spaces or other characters and any text around it other
    than digits, full stops and commas, is read as that number. *)
Theorem parsePrice_reads_grouped_integer :
  forall (n : N) (s : string),
    (n < 2 ^ 53)%N ->
    keepChars numericChar s = decimal n ->
    parsePrice s = Fin (inject_Z (Z.of_N n)).
Proof.
  intros n s Hn Hs. unfold parsePrice. rewrite clean_numeric, Hs.
  assert (Hsep : countChars separator (decimal n) = 0) by apply numeral_no_separator.
  rewrite (replaceFirst_no_separator _ Hsep).
  unfold Number. rewrite (splitDot_no_separator _ Hsep), digits_decimal.
  destruct (decimal n) eqn:Ed; [exfalso; eapply numeral_nonempty, Ed|].
  apply nearestDouble_integer, Hn.
Qed.

Lemma parsePrice_grouped_integer_witness :
  parsePrice "fr 2 095 kr" = Fin (inject_Z 2095).
Proof.
  apply (parsePrice_reads_grouped_integer 2095 "fr 2 095 kr").
  - vm_compute. reflexivity.
  - vm_compute. reflexivity.
Defined.

(** ** Product ids *)

(** X10. A product id that does not start with [http] is reduced to its
    digits before the page is requested: two such ids with the same digits
    give the same result, on every platform. An address in capitals is
    such an id. *)
Theorem scrapePrisjaktProduct_reads_id_digits_only :
  forall (H : Host) (id1 id2 : string),
    startsWith "http" id1 = false ->
    startsWith "http" id2 = false ->
    keepChars isDigit id1 = keepChars isDigit id2 ->
    scrapePrisjaktProduct id1 = scrapePrisjaktProduct id2.
Proof.
  intros H id1 id2 H1 H2 E.
  unfold scrapePrisjaktProduct, scrapePrisjaktProduct_try.
  rewrite H1, H2, !clean_digits, E. reflexivity.
Qed.

Lemma scrapePrisjaktProduct_id_digits_witness :
  @scrapePrisjaktProduct offlineHost "p=5 281 003"
  = @scrapePrisjaktProduct offlineHost "HTTPS://www.prisjakt.nu/produkt.php?p=5281003".
Proof.
  apply (scrapePrisjaktProduct_reads_id_digits_only offlineHost);
    vm_compute; reflexivity.
Defined.

(** ** Availability texts *)

Lemma lowerChar_idempotent : forall c, lowerChar (lowerChar c) = lowerChar c.
Proof.
  intros [[] [] [] [] [] [] [] []]; vm_compute; reflexivity.
Qed.

Lemma toLowerCase_idempotent : forall s, toLowerCase (toLowerCase s) = toLowerCase s.
Proof.
  induction s as [|c t IH]; simpl; [reflexivity|].
  rewrite lowerChar_idempotent, IH. reflexivity.
Qed.

Lemma toLowerCase_app :
  forall s t, toLowerCase (s ++ t)%string = (toLowerCase s ++ toLowerCase t)%string.
Proof.
  induction s as [|c s IH]; intro t; simpl; [reflexivity|]. rewrite IH. reflexivity.
Qed.

Lemma prefix_app : forall w s y, prefix w s = true -> prefix w (s ++ y)%string = true.
Proof.
  induction w as [|c w IH]; intros s y Hp; [destruct (s ++ y)%string; reflexivity|].
  destruct s as [|x s]; simpl in *; [discriminate Hp|].
  destruct (ascii_dec c x); [apply IH, Hp | discriminate Hp].
Qed.

Lemma includes_app_r :
  forall w s y, includes w s = true -> includes w (s ++ y)%string = true.
Proof.
  intros w. induction s as [|c s IH]; intros y Hi.
  - simpl in Hi. rewrite orb_false_r in Hi.
    destruct w; [|discriminate Hi]. destruct y; reflexivity.
  - cbn [includes] in Hi. apply orb_true_iff in Hi.
    change (String c s ++ y)%string with (String c (s ++ y)%string). cbn [includes].
    apply orb_true_iff. destruct Hi as [Hp|Hi].
    + left. apply (prefix_app w (String c s) y Hp).
    + right. apply IH, Hi.
Qed.

Lemma includes_app_l :
  forall w x s, includes w s = true -> includes w (x ++ s)%string = true.
Proof.
  intros w. induction x as [|c x IH]; intros s Hi; [exact Hi|].
  change (String c x ++ s)%string with (String c (x ++ s)%string). cbn [includes].
  rewrite (IH s Hi). apply orb_true_r.
Qed.

Lemma includes_embedded :
  forall w x s y, includes w s = true -> includes w (x ++ s ++ y)%string = true.
Proof. intros. apply includes_app_l, includes_app_r. assumption. Qed.

Lemma nonEmptyString_embedded :
  forall x s y, nonEmptyString s = true -> nonEmptyString (x ++ s ++ y)%string = true.
Proof. intros [|c x] [|d s] y E; simpl in *; congruence. Qed.

Lemma nonEmptyString_toLowerCase :
  forall s, nonEmptyString (toLowerCase s) = nonEmptyString s.
Proof. intros [|c s]; reflexivity. Qed.

(** X11. The availability of a text does not depend on the case of its
    letters. A text read as in stock is read as in stock inside any longer
    text, and a text read as incoming is never read as not available
    inside a longer text. *)
Theorem toAvailability_case_and_context :
  forall a x y : string,
    toAvailability (Some (toLowerCase a)) = toAvailability (Some a) /\
    (toAvailability (Some a) = in_stock ->
     toAvailability (Some (x ++ a ++ y)%string) = in_stock) /\
    (toAvailability (Some a) = incoming ->
     toAvailability (Some (x ++ a ++ y)%string) <> not_available).
Proof.
  intros a x y. split; [|split].
  - unfold toAvailability.
    rewrite nonEmptyString_toLowerCase, toLowerCase_idempotent. reflexivity.
  - unfold toAvailability.
    destruct (nonEmptyString a) eqn:Ea; cbn [negb]; [|discriminate].
    rewrite (nonEmptyString_embedded x a y Ea). cbn [negb].
    rewrite !toLowerCase_app. cbv zeta.
    destruct (includes "instock" (toLowerCase a)
              || includes "in_stock" (toLowerCase a)
              || includes "in stock" (toLowerCase a)
              || includes "available" (toLowerCase a)) eqn:Ei.
    + intros _.
      repeat (apply orb_true_iff in Ei; destruct Ei as [Ei|Ei]);
        rewrite (includes_embedded _ (toLowerCase x) _ (toLowerCase y) Ei);
        rewrite ?orb_true_r; reflexivity.
    + destruct (includes "preorder" (toLowerCase a)
                || includes "pre-order" (toLowerCase a)
                || includes "backorder" (toLowerCase a)); discriminate.
  - unfold toAvailability.
    destruct (nonEmptyString a) eqn:Ea; cbn [negb]; [|discriminate].
    rewrite (nonEmptyString_embedded x a y Ea). cbn [negb].
    rewrite !toLowerCase_app. cbv zeta.
    destruct (includes "instock" (toLowerCase a)
              || includes "in_stock" (toLowerCase a)
              || includes "in stock" (toLowerCase a)
              || includes "available" (toLowerCase a)); [discriminate|].
    destruct (includes "preorder" (toLowerCase a)
              || includes "pre-order" (toLowerCase a)
              || includes "backorder" (toLowerCase a)) eqn:Ei; [|discriminate].
    intros _.
    match goal with |- (if ?c then _ else _) <> _ => destruct c; [discriminate|] end.
    repeat (apply orb_true_iff in Ei; destruct Ei as [Ei|Ei]);
      rewrite (includes_embedded _ (toLowerCase x) _ (toLowerCase y) Ei);
      rewrite ?orb_true_r; discriminate.
Qed.

Lemma prefix_refl : forall w, prefix w w = true.
Proof.
  induction w as [|c w IH]; [reflexivity|]. cbn [prefix].
  destruct (ascii_dec c c); [exact IH | contradiction].
Qed.

Lemma includes_refl : forall w, includes w w = true.
Proof. intros [|c w]; cbn [includes]; rewrite prefix_refl; reflexivity. Qed.

(** X12. A text that holds one of the words [instock], [in_stock],
    [in stock] and [available], in any case of its letters and anywhere
    in it, is read as in stock, whatever else it holds: so are
    [Unavailable] and [Not available], and a text that holds a word for
    incoming as well. *)
Theorem toAvailability_in_stock_words_win :
  forall x w y : string,
    In (toLowerCase w) ["instock"; "in_stock"; "in stock"; "available"] ->
    toAvailability (Some (x ++ w ++ y)%string) = in_stock.
Proof.
  intros x w y Hw. unfold toAvailability.
  assert (Hne : nonEmptyString w = true).
  { destruct w; [|reflexivity]. cbn in Hw.
    destruct Hw as [E|[E|[E|[E|[]]]]]; discriminate E. }
  rewrite (nonEmptyString_embedded x w y Hne). cbn [negb]. cbv zeta.
  rewrite !toLowerCase_app.
  assert (Hi : forall t, toLowerCase w = t ->
                 includes t (toLowerCase x ++ toLowerCase w ++ toLowerCase y)%string
                 = true).
  { intros t <-. apply includes_embedded, includes_refl. }
  destruct Hw as [E|[E|[E|[E|[]]]]]; rewrite (Hi _ (eq_sym E));
    rewrite ?orb_true_r; reflexivity.
Qed.

Lemma toAvailability_unavailable_witness :
  toAvailability (Some "Currently UNAVAILABLE (preorder)") = in_stock.
Proof.
  apply (toAvailability_in_stock_words_win "Currently UN" "AVAILABLE" " (preorder)").
  right. right. right. left. reflexivity.
Defined.

(** ** Script blocks *)

Section Blocks.
Context {H : Host}.

Lemma outOf_after :
  forall out w, outOf (after_ out w) = out ++ outOf w.
Proof. intros out [l|l]; reflexivity. Qed.

(** A script block adds its offers after those of the blocks before it. *)
Lemma ldBlock_appends :
  forall results m, ldBlock results m = results ++ ldBlock [] m.
Proof.
  intros results m. unfold ldBlock.
  destruct (JSON_parse (trim (group 1 m))) as [data|];
    [|rewrite app_nil_r; reflexivity].
  rewrite forEach_after, outOf_after; [reflexivity|].
  apply Forall_forall. intros x _. apply collect_visit_after.
Qed.

Lemma fold_ldBlock :
  forall ms results,
    fold_left ldBlock ms results = results ++ List.concat (map (ldBlock []) ms).
Proof.
  induction ms as [|m ms IH]; intro results; simpl.
  - rewrite app_nil_r. reflexivity.
  - rewrite IH, (ldBlock_appends results m), <- app_assoc. reflexivity.
Qed.

Lemma validOffers_null :
  forall obj offers, In VNull offers -> validOffers obj offers = Throw.
Proof.
  intros obj. induction offers as [|o rest IH]; intros Hin; [contradiction|].
  simpl. destruct Hin as [->|Hin]; [reflexivity|].
  destruct (ldOffer obj o) as [x|]; [|reflexivity]. simpl.
  rewrite (IH Hin). reflexivity.
Qed.
End Blocks.

(** X13. The script blocks of a page contribute independently: the offers
    the structured-data extractor collects before removing duplicates are
    the offers of each block taken alone, in the order of the blocks. A
    block that does not parse, or whose walk is cut short, takes nothing
    away from the blocks before and after it. *)
Theorem extractProductsFromJsonLd_blockwise :
  forall (H : Host) (html : string),
    ldResults html = List.concat (map (ldBlock []) (execAll scriptRegex 0 html)) /\
    extractProductsFromJsonLd html
    = dedupeProducts (List.concat (map (ldBlock []) (execAll scriptRegex 0 html))).
Proof.
  intros H html.
  assert (E : ldResults html
              = List.concat (map (ldBlock []) (execAll scriptRegex 0 html))).
  { unfold ldResults. rewrite fold_ldBlock. reflexivity. }
  split; [exact E|]. unfold extractProductsFromJsonLd. rewrite E. reflexivity.
Qed.

(** X14. A [null] among the offers of a named Product node cuts the walk
    short at that node: none of the offers of the node is pushed, not even
    the valid ones before the [null], and the array is left as it was. *)
Theorem collectProductsFromLdObject_null_offer_aborts :
  forall (H : Host) (fields : list (string * value)) (out : list PrisjaktProduct),
    isNamedProduct (VObj fields) = true ->
    In VNull (normalizeOffers (get (VObj fields) "offers")) ->
    collectProductsFromLdObject (VObj fields) out = Aborted out.
Proof.
  intros H fields out Hp Hin. rewrite collect_unfold.
  unfold nodeOffers. rewrite Hp, (validOffers_null _ _ Hin). reflexivity.
Qed.

Lemma collect_null_offer_witness :
  @collectProductsFromLdObject offlineHost nullOfferProduct [brandOffer]
  = Aborted [brandOffer].
Proof.
  apply (collectProductsFromLdObject_null_offer_aborts offlineHost).
  - reflexivity.
  - right. left. reflexivity.
Defined.

(** ** Texts without the first character of an expression *)

Lemma run_firstIn :
  forall (A : ascii -> bool) (r : regex),
    firstIn A r ->
    forall (R : Type) s cs (k : string -> captures -> option R),
      match s with
      | EmptyString => True
      | String c _ => A c = false
      end ->
      run r s cs k = None.
Proof.
  intros A. induction r as [|p|g p lo hi|r1 IH1 r2 IH2|r1 IH1 r2 IH2|r1 IH1|n r1 IH1];
    intros Hf R s cs k Hs; cbn [firstIn] in Hf; try contradiction.
  - cbn [run]. destruct s as [|c t]; [reflexivity|].
    destruct (p c) eqn:Ep; [|reflexivity]. rewrite (Hf c Ep) in Hs. discriminate Hs.
  - destruct Hf as (Hlo & Hp). destruct lo as [|lo]; [lia|].
    assert (Hc : forall c t, s = String c t -> p c = false).
    { intros c t ->. destruct (p c) eqn:Ep; [|reflexivity].
      rewrite (Hp c Ep) in Hs. discriminate Hs. }
    cbn [run]. destruct g, s as [|c t]; cbn; try reflexivity;
      rewrite (Hc c t eq_refl), andb_false_r; reflexivity.
  - cbn [run]. apply IH1; assumption.
  - destruct Hf as (Hf1 & Hf2). cbn [run].
    rewrite (IH1 Hf1), (IH2 Hf2); [reflexivity | exact Hs | exact Hs].
  - cbn [run]. apply IH1; assumption.
Qed.

Lemma countChars_head :
  forall A s, countChars A s = 0 ->
    match s with
    | EmptyString => True
    | String c _ => A c = false
    end.
Proof.
  intros A [|c t] Hc; [exact I|]. simpl in Hc.
  destruct (A c); [discriminate Hc | reflexivity].
Qed.

Lemma countChars_tail :
  forall A c t, countChars A (String c t) = 0 -> countChars A t = 0.
Proof. intros A c t Hc. simpl in Hc. destruct (A c); [discriminate Hc | exact Hc]. Qed.

Lemma matchHere_lacks :
  forall A r s, firstIn A r -> countChars A s = 0 -> matchHere r s = None.
Proof.
  intros A r s Hf Hc. unfold matchHere.
  apply (run_firstIn A r Hf), countChars_head, Hc.
Qed.

Lemma search_lacks :
  forall A r s, firstIn A r -> countChars A s = 0 -> search r s = None.
Proof.
  intros A r s Hf. induction s as [|c t IH]; intros Hc; cbn [search];
    rewrite (matchHere_lacks A r _ Hf Hc); [reflexivity|].
  apply IH. eapply countChars_tail, Hc.
Qed.

Lemma execAll_lacks :
  forall A r s, firstIn A r -> countChars A s = 0 -> execAll r 0 s = [].
Proof.
  intros A r s Hf. induction s as [|c t IH]; intros Hc; cbn [execAll];
    rewrite (matchHere_lacks A r _ Hf Hc); [reflexivity|].
  apply IH. eapply countChars_tail, Hc.
Qed.

Lemma replaceAll_lacks :
  forall A r by_ s, firstIn A r -> countChars A s = 0 -> replaceAll r by_ s = s.
Proof.
  intros A r by_ s Hf. unfold replaceAll.
  induction s as [|c t IH]; intros Hc; cbn [replaceAllFrom];
    rewrite (matchHere_lacks A r _ Hf Hc); [reflexivity|].
  rewrite IH; [reflexivity|]. eapply countChars_tail, Hc.
Qed.


(** Under the [i] flag the less-than sign still matches itself only. *)
Lemma chi_lt : forall c, chi "<" c = true -> ch "<" c = true.
Proof.
  intros [[] [] [] [] [] [] [] []]; vm_compute; intro E;
    first [reflexivity | discriminate E].
Qed.

Section Tagless.
Context {H : Host}.
Variable html : string.
Hypothesis tagless : countChars (ch "<") html = 0.

Lemma tagless_primary : extractPrimarySearchItems html = [].
Proof.
  unfold extractPrimarySearchItems.
  rewrite (search_lacks (ch "<") primaryLinkRe html); [reflexivity | | exact tagless].
  exact chi_lt.
Qed.

Lemma tagless_jsonLd : extractProductsFromJsonLd html = Ok [].
Proof.
  unfold extractProductsFromJsonLd, ldResults.
  rewrite (execAll_lacks (ch "<") scriptRegex html); [reflexivity | | exact tagless].
  exact chi_lt.
Qed.

Lemma tagless_naive : extractProductsNaively html = Ok [].
Proof.
  unfold extractProductsNaively, naiveResults.
  rewrite (execAll_lacks (ch "<") productBlockRegex html); [reflexivity | | exact tagless].
  exact chi_lt.
Qed.

Lemma tagless_pageName : pageName html = "".
Proof.
  unfold pageName, matchGroup.
  rewrite (search_lacks (ch "<") h1Re html); [reflexivity | | exact tagless].
  exact chi_lt.
Qed.

Lemma tagless_pageOffers :
  forall url, extractOffersFromProductPageNaively html url = [].
Proof.
  intro url. unfold extractOffersFromProductPageNaively.
  rewrite tagless_pageName. reflexivity.
Qed.

Lemma tagless_heading : forall url, headingOffer html url = [].
Proof.
  intro url. unfold headingOffer. rewrite tagless_pageName. reflexivity.
Qed.
End Tagless.

(** X15. On a text without a less-than sign no extractor finds an offer: the
    primary-card, structured-data, naive and product-page extractors and
    the heading fallback all return the empty list, whatever prices the
    text holds. *)
Theorem extractors_find_nothing_without_markup :
  forall (H : Host) (html url : string),
    countChars (ch "<") html = 0 ->
    extractPrimarySearchItems html = [] /\
    extractProductsFromJsonLd html = Ok [] /\
    extractProductsNaively html = Ok [] /\
    extractOffersFromProductPageNaively html url = [] /\
    headingOffer html url = [].
Proof.
  intros H html url Hc. repeat split.
  - apply tagless_primary, Hc.
  - apply tagless_jsonLd, Hc.
  - apply tagless_naive, Hc.
  - apply tagless_pageOffers, Hc.
  - apply tagless_heading, Hc.
Qed.

Lemma extractors_without_markup_witness :
  @extractPrimarySearchItems plainPage = [] /\
  @extractProductsFromJsonLd offlineHost plainPage = Ok [] /\
  @extractProductsNaively offlineHost plainPage = Ok [] /\
  extractOffersFromProductPageNaively plainPage "u" = [] /\
  headingOffer plainPage "u" = [].
Proof.
  apply (extractors_find_nothing_without_markup offlineHost plainPage "u").
  vm_compute. reflexivity.
Defined.

(** X16. On a platform whose pages hold no less-than sign, both entry points
    return the empty list for every query and every product id. *)
Theorem scrapers_return_nothing_without_markup :
  forall (H : Host),
    (forall url html, fetch url = Response true (Some html) ->
                      countChars (ch "<") html = 0) ->
    forall q : string,
      scrapePrisjaktSearch q = Ok [] /\ scrapePrisjaktProduct q = Ok [].
Proof.
  intros H Hpages.
  assert (Hprod : forall q, scrapePrisjaktProduct q = Ok []).
  { intro q. unfold scrapePrisjaktProduct, scrapePrisjaktProduct_try.
    destruct (if startsWith "http" q then Ok q
              else e <- encode (replaceAll nonDigitRe "" q) ;;
                   Ok (hostUrl ++ "/produkt.php?p=" ++ e)%string) as [url|];
      [|reflexivity].
    cbn [bind]. unfold fetchPage.
    destruct (fetch url) as [|[] [html|]] eqn:Ef; try reflexivity.
    cbn [bind]. pose proof (Hpages _ _ Ef) as Hc.
    rewrite (tagless_jsonLd html Hc). cbn.
    rewrite (tagless_pageOffers html Hc). cbn.
    rewrite (tagless_heading html Hc). reflexivity. }
  intro q. split; [|apply Hprod].
  unfold scrapePrisjaktSearch, scrapePrisjaktSearch_try.
  destruct (encode q) as [e|]; [|reflexivity]. cbn [bind]. unfold fetchPage.
  destruct (fetch (hostUrl ++ "/search?query=" ++ e)%string) as [|[] [html|]] eqn:Ef;
    try reflexivity.
  cbn [bind]. pose proof (Hpages _ _ Ef) as Hc.
  rewrite (tagless_primary html Hc). cbn.
  rewrite (tagless_jsonLd html Hc). cbn.
  rewrite (tagless_naive html Hc). cbn.
  destruct (nonEmptyString (firstProductLink html)); [|reflexivity].
  rewrite Hprod. reflexivity.
Qed.

Lemma scrapers_without_markup_witness :
  @scrapePrisjaktSearch (staticHost (servedPage plainPage) None) "ddr5" = Ok [] /\
  @scrapePrisjaktProduct (staticHost (servedPage plainPage) None) "ddr5" = Ok [].
Proof.
  apply (scrapers_return_nothing_without_markup
           (staticHost (servedPage plainPage) None)).
  intros url html E. injection E as <-. vm_compute. reflexivity.
Defined.

(** ** What the matcher finds is a match *)

Lemma within_succ :
  forall hi n,
    canRepeat hi = true -> within (option_map pred hi) n -> within hi (S n).
Proof.
  intros [[|h]|] n Hc Hw; simpl in *; [discriminate Hc | lia | exact I].
Qed.

Lemma within_zero : forall hi, within hi 0.
Proof. intros [h|]; simpl; [lia | exact I]. Qed.

Lemma repGreedy_sound :
  forall (R : Type) p (k : string -> option R) x s lo hi,
    repGreedy p lo hi s k = Some x ->
    exists u s',
      s = (u ++ s')%string /\ allChars p u = true /\ lo <= String.length u /\
      within hi (String.length u) /\ k s' = Some x.
Proof.
  intros R p k x. induction s as [|c t IH]; intros lo hi E.
  - cbn in E. destruct lo; [|discriminate E].
    exists "", "". repeat split; [lia | apply within_zero | exact E].
  - cbn [repGreedy] in E.
    assert (Hstop : match lo with 0 => k (String c t) | S _ => None end = Some x ->
                    exists u s', String c t = (u ++ s')%string /\ allChars p u = true /\
                      lo <= String.length u /\ within hi (String.length u) /\
                      k s' = Some x).
    { intro E'. destruct lo; [|discriminate E'].
      exists "", (String c t). repeat split; [lia | apply within_zero | exact E']. }
    destruct (canRepeat hi && p c) eqn:Ec; [|apply Hstop, E].
    apply andb_true_iff in Ec. destruct Ec as (Hcan & Hp).
    destruct (repGreedy p (pred lo) (option_map pred hi) t k) as [y|] eqn:Er;
      [|apply Hstop, E].
    cbn in E. injection E as ->.
    destruct (IH _ _ Er) as (u & s' & -> & Hu & Hlo & Hhi & Hk).
    exists (String c u), s'. repeat split.
    + cbn. rewrite Hp, Hu. reflexivity.
    + cbn. lia.
    + cbn [String.length]. apply within_succ; assumption.
    + exact Hk.
Qed.

Lemma repLazy_sound :
  forall (R : Type) p (k : string -> option R) x s lo hi,
    repLazy p lo hi s k = Some x ->
    exists u s',
      s = (u ++ s')%string /\ allChars p u = true /\ lo <= String.length u /\
      within hi (String.length u) /\ k s' = Some x.
Proof.
  intros R p k x. induction s as [|c t IH]; intros lo hi E.
  - cbn in E. destruct lo; [|discriminate E].
    destruct (k "") eqn:Ek; [|discriminate E]. cbn in E. injection E as ->.
    exists "", "". repeat split; [lia | apply within_zero | exact Ek].
  - cbn [repLazy] in E.
    assert (Hmore : (if canRepeat hi && p c
                     then repLazy p (pred lo) (option_map pred hi) t k
                     else None) = Some x ->
                    exists u s', String c t = (u ++ s')%string /\ allChars p u = true /\
                      lo <= String.length u /\ within hi (String.length u) /\
                      k s' = Some x).
    { intro E'. destruct (canRepeat hi && p c) eqn:Ec; [|discriminate E'].
      apply andb_true_iff in Ec. destruct Ec as (Hcan & Hp).
      destruct (IH _ _ E') as (u & s' & -> & Hu & Hlo & Hhi & Hk).
      exists (String c u), s'. repeat split.
      + cbn. rewrite Hp, Hu. reflexivity.
      + cbn. lia.
      + cbn [String.length]. apply within_succ; assumption.
      + exact Hk. }
    destruct lo as [|lo]; [|apply Hmore, E].
    destruct (k (String c t)) as [y|] eqn:Ek.
    + cbn in E. injection E as ->.
      exists "", (String c t). repeat split; [lia | apply within_zero | exact Ek].
    + cbn [orElse] in E. apply Hmore, E.
Qed.

(** The matcher is sound: when it succeeds, the continuation was given the
    end of a match and the captures of that match. *)
Lemma run_sound :
  forall r (R : Type) s cs (k : string -> captures -> option R) x,
    run r s cs k = Some x ->
    exists s' cs', matches r s cs s' cs' /\ k s' cs' = Some x.
Proof.
  induction r as [|p|g p lo hi|r1 IH1 r2 IH2|r1 IH1 r2 IH2|r1 IH1|n r1 IH1];
    intros R s cs k x E; cbn [run] in E.
  - exists s, cs. split; [constructor | exact E].
  - destruct s as [|c t]; [discriminate E|].
    destruct (p c) eqn:Ep; [|discriminate E].
    exists t, cs. split; [constructor; exact Ep | exact E].
  - assert (Hex : exists u s', s = (u ++ s')%string /\ allChars p u = true /\
                    lo <= String.length u /\ within hi (String.length u) /\
                    k s' cs = Some x).
    { destruct g; [apply repGreedy_sound in E | apply repLazy_sound in E]; exact E. }
    destruct Hex as (u & s' & -> & Hu & Hlo & Hhi & Hk).
    exists s', cs. split; [constructor; assumption | exact Hk].
  - destruct (IH1 _ _ _ _ _ E) as (s1 & cs1 & M1 & E1).
    destruct (IH2 _ _ _ _ _ E1) as (s2 & cs2 & M2 & E2).
    exists s2, cs2. split; [econstructor; eassumption | exact E2].
  - destruct (run r1 s cs k) as [y|] eqn:E1; cbn [orElse] in E.
    + injection E as ->. destruct (IH1 _ _ _ _ _ E1) as (s' & cs' & M & Ek).
      exists s', cs'. split; [apply matches_Alt_l, M | exact Ek].
    + destruct (IH2 _ _ _ _ _ E) as (s' & cs' & M & Ek).
      exists s', cs'. split; [apply matches_Alt_r, M | exact Ek].
  - destruct (run r1 s cs k) as [y|] eqn:E1; cbn [orElse] in E.
    + injection E as ->. destruct (IH1 _ _ _ _ _ E1) as (s' & cs' & M & Ek).
      exists s', cs'. split; [apply matches_Opt_some, M | exact Ek].
    + exists s, cs. split; [apply matches_Opt_none | exact E].
  - destruct (IH1 _ _ _ _ _ E) as (s' & cs' & M & Ek).
    exists s', ((n, consumed s s') :: cs'). split; [constructor; exact M | exact Ek].
Qed.

Lemma matchHere_sound :
  forall r s m,
    matchHere r s = Some m ->
    matches r s [] (after m) (groups m) /\ whole m = consumed s (after m).
Proof.
  intros r s m E. unfold matchHere in E.
  destruct (run_sound _ _ _ _ _ _ E) as (s' & cs' & M & Ek).
  injection Ek as <-. split; [exact M | reflexivity].
Qed.

Lemma search_sound :
  forall r s m,
    search r s = Some m -> exists t, suffixOf t s /\ matchHere r t = Some m.
Proof.
  intros r. induction s as [|c t IH]; intros m E; cbn [search] in E.
  - destruct (matchHere r "") as [m'|] eqn:Em; [|discriminate E].
    injection E as ->. exists "". split; [constructor | exact Em].
  - destruct (matchHere r (String c t)) as [m'|] eqn:Em.
    + injection E as ->. exists (String c t). split; [constructor | exact Em].
    + destruct (IH _ E) as (u & Hu & Hm). exists u. split; [constructor; exact Hu | exact Hm].
Qed.

Lemma execAll_sound :
  forall r s n m,
    In m (execAll r n s) -> exists t, suffixOf t s /\ matchHere r t = Some m.
Proof.
  intros r. induction s as [|c t IH]; intros n m Hin.
  - destruct n as [|n]; cbn [execAll] in Hin; [|contradiction].
    destruct (matchHere r "") as [m'|] eqn:Em; [|contradiction].
    destruct Hin as [<-|[]]. exists "". split; [constructor | exact Em].
  - destruct n as [|n]; cbn [execAll] in Hin.
    + destruct (matchHere r (String c t)) as [m'|] eqn:Em.
      * destruct Hin as [<-|Hin].
        -- exists (String c t). split; [constructor | exact Em].
        -- destruct (IH _ _ Hin) as (u & Hu & Hm).
           exists u. split; [constructor; exact Hu | exact Hm].
      * destruct (IH _ _ Hin) as (u & Hu & Hm).
        exists u. split; [constructor; exact Hu | exact Hm].
    + destruct (IH _ _ Hin) as (u & Hu & Hm).
      exists u. split; [constructor; exact Hu | exact Hm].
Qed.

(** ** Reading a match *)

Lemma length_append :
  forall u s, String.length (u ++ s)%string = String.length u + String.length s.
Proof. induction u as [|c u IH]; intro s; simpl; [reflexivity | rewrite IH; reflexivity]. Qed.

Lemma substring_prefix :
  forall u s, substring 0 (String.length u) (u ++ s)%string = u.
Proof.
  induction u as [|c u IH]; intro s; simpl.
  - destruct s; reflexivity.
  - rewrite IH. reflexivity.
Qed.

Lemma consumed_app : forall u s, consumed (u ++ s)%string s = u.
Proof.
  intros u s. unfold consumed. rewrite length_append.
  replace (String.length u + String.length s - String.length s)
    with (String.length u) by lia.
  apply substring_prefix.
Qed.

Lemma append_assoc :
  forall a b c : string, ((a ++ b) ++ c = a ++ (b ++ c))%string.
Proof. induction a as [|x a IH]; intros b c; simpl; [reflexivity | rewrite IH; reflexivity]. Qed.

Lemma append_nil_r : forall a : string, (a ++ "")%string = a.
Proof. induction a as [|x a IH]; simpl; [reflexivity | rewrite IH; reflexivity]. Qed.

Lemma matches_Seq_inv :
  forall r1 r2 s cs s2 cs2,
    matches (Seq r1 r2) s cs s2 cs2 ->
    exists s1 cs1, matches r1 s cs s1 cs1 /\ matches r2 s1 cs1 s2 cs2.
Proof. intros * M. inversion M; subst. eauto. Qed.

Lemma matches_Grp_inv :
  forall n r1 s cs s' cs',
    matches (Grp n r1) s cs s' cs' ->
    exists cs0, matches r1 s cs s' cs0 /\ cs' = (n, consumed s s') :: cs0.
Proof. intros * M. inversion M; subst. eauto. Qed.

Lemma matches_Rep_inv :
  forall g p lo hi s cs s' cs',
    matches (Rep g p lo hi) s cs s' cs' ->
    exists u, s = (u ++ s')%string /\ allChars p u = true /\
              lo <= String.length u /\ cs' = cs.
Proof. intros * M. inversion M; subst. eauto. Qed.

Lemma matches_Cls_inv :
  forall p s cs s' cs',
    matches (Cls p) s cs s' cs' -> exists c, s = String c s' /\ p c = true /\ cs' = cs.
Proof. intros * M. inversion M; subst. eauto. Qed.

Lemma matches_Eps_inv :
  forall s cs s' cs', matches Eps s cs s' cs' -> s' = s /\ cs' = cs.
Proof. intros * M. inversion M; subst. auto. Qed.

(** A match consumes a prefix of the text. *)
Lemma matches_consumes :
  forall r s cs s' cs', matches r s cs s' cs' -> exists u, s = (u ++ s')%string.
Proof.
  intros r s cs s' cs' M. induction M.
  - exists "". reflexivity.
  - exists (String c ""). reflexivity.
  - exists u. reflexivity.
  - destruct IHM1 as (u1 & ->). destruct IHM2 as (u2 & ->).
    exists (u1 ++ u2)%string. rewrite append_assoc. reflexivity.
  - exact IHM.
  - exact IHM.
  - exact IHM.
  - exists "". reflexivity.
  - exact IHM.
Qed.

(** An expression without groups leaves the captures as they are. *)
Lemma matches_noGrp :
  forall r s cs s' cs', matches r s cs s' cs' -> noGrp r = true -> cs' = cs.
Proof.
  intros r s cs s' cs' M. induction M; intro Hn; cbn [noGrp] in Hn;
    try reflexivity; try discriminate Hn;
    try (apply andb_true_iff in Hn; destruct Hn as (Hn1 & Hn2)); auto.
  rewrite (IHM2 Hn2). apply IHM1, Hn1.
Qed.

(** A literal under the [i] flag consumes a text that differs from the
    literal in case only. *)
Lemma matches_liti :
  forall w s cs s' cs',
    matches (liti w) s cs s' cs' ->
    exists u, s = (u ++ s')%string /\ toLowerCase u = toLowerCase w /\ cs' = cs.
Proof.
  induction w as [|c w IH]; intros s cs s' cs' M; cbn [liti] in M.
  - apply matches_Eps_inv in M. destruct M as (-> & ->). exists "". auto.
  - apply matches_Seq_inv in M. destruct M as (s1 & cs1 & M1 & M2).
    apply matches_Cls_inv in M1. destruct M1 as (x & -> & Hx & ->).
    destruct (IH _ _ _ _ M2) as (u & -> & Hu & ->).
    exists (String x u). repeat split. cbn. rewrite Hu.
    unfold chi in Hx. apply Ascii.eqb_eq in Hx. rewrite Hx. reflexivity.
Qed.

(** ** What the groups of a match hold *)

Lemma grpSpec_keeps :
  forall n P r s cs s' cs',
    matches r s cs s' cs' -> grpSpec n P r ->
    P (lookupGroup n cs) -> P (lookupGroup n cs').
Proof.
  intros n P r s cs s' cs' M. induction M; intros Hg Hstart; cbn [grpSpec] in Hg; auto.
  - destruct Hg as (Hg1 & Hg2). auto.
  - destruct Hg as (Hg1 & Hg2). auto.
  - destruct Hg as (Hg1 & Hg2). auto.
  - destruct Hg as (Hg1 & Hhere). cbn [lookupGroup].
    destruct (Nat.eqb_spec n0 n) as [E|_]; [eapply Hhere; eassumption | auto].
Qed.

Lemma grpSpec_sets :
  forall n P r s cs s' cs',
    matches r s cs s' cs' -> grpSpec n P r -> sets n r -> P (lookupGroup n cs').
Proof.
  intros n P r s cs s' cs' M. induction M; intros Hg Hs;
    cbn [grpSpec] in Hg; cbn [sets] in Hs; try contradiction.
  - destruct Hg as (Hg1 & Hg2). destruct Hs as [Hs|Hs].
    + eapply grpSpec_keeps; [exact M2 | exact Hg2 | auto].
    + auto.
  - destruct Hg as (Hg1 & Hg2). destruct Hs as (Hs1 & Hs2). auto.
  - destruct Hg as (Hg1 & Hg2). destruct Hs as (Hs1 & Hs2). auto.
  - destruct Hg as (Hg1 & Hhere). cbn [lookupGroup].
    destruct (Nat.eqb_spec n0 n) as [E|N]; [eapply Hhere; eassumption|].
    destruct Hs as [Hs|Hs]; [contradiction | auto].
Qed.

Lemma search_group :
  forall n P r s m,
    grpSpec n P r -> sets n r -> search r s = Some m -> P (group n m).
Proof.
  intros n P r s m Hg Hs E. apply search_sound in E. destruct E as (t & _ & E).
  apply matchHere_sound in E. destruct E as (M & _).
  unfold group. eapply grpSpec_sets; eassumption.
Qed.

Lemma execAll_group :
  forall n P r s k m,
    grpSpec n P r -> sets n r -> In m (execAll r k s) -> P (group n m).
Proof.
  intros n P r s k m Hg Hs E. apply execAll_sound in E. destruct E as (t & _ & E).
  apply matchHere_sound in E. destruct E as (M & _).
  unfold group. eapply grpSpec_sets; eassumption.
Qed.

Lemma plus_consumed :
  forall g p lo hi s cs s' cs',
    matches (Rep g p lo hi) s cs s' cs' ->
    allChars p (consumed s s') = true /\ lo <= String.length (consumed s s').
Proof.
  intros * M. apply matches_Rep_inv in M. destruct M as (u & -> & Hu & Hlo & _).
  rewrite consumed_app. auto.
Qed.

Lemma literalThen_consumed :
  forall w p s cs s' cs',
    matches (Seq (liti w) (plus p)) s cs s' cs' ->
    literalThen w p (consumed s s').
Proof.
  intros * M. apply matches_Seq_inv in M. destruct M as (s1 & cs1 & M1 & M2).
  apply matches_liti in M1. destruct M1 as (pre & -> & Hpre & _).
  apply matches_Rep_inv in M2. destruct M2 as (rest & -> & Hrest & Hlo & _).
  rewrite <- append_assoc, consumed_app.
  exists pre, rest. repeat split; [exact Hpre | | exact Hrest].
  intros ->. simpl in Hlo. lia.
Qed.

(** ** Prices of the card and of the offer rows *)

Lemma allChars_replaceAll_empty :
  forall p r s n, allChars p s = true -> allChars p (replaceAllFrom r "" n s) = true.
Proof.
  intros p r. induction s as [|c t IH]; intros n Hs.
  - destruct n; cbn [replaceAllFrom]; [destruct (matchHere r "")|]; reflexivity.
  - cbn [allChars] in Hs. apply andb_true_iff in Hs. destruct Hs as (Hc & Ht).
    destruct n as [|n]; cbn [replaceAllFrom]; [|apply IH, Ht].
    destruct (matchHere r (String c t)) as [m|].
    + cbn [append]. destruct (String.length (whole m)).
      * cbn [allChars]. rewrite Hc, (IH 0 Ht). reflexivity.
      * apply IH, Ht.
    + cbn [allChars]. rewrite Hc, (IH 0 Ht). reflexivity.
Qed.

Lemma priceChar_separator : forall c, priceChar c = true -> separator c = false.
Proof.
  intros [[] [] [] [] [] [] [] []]; vm_compute; intro E;
    first [reflexivity | discriminate E].
Qed.

Lemma keepChars_priceChars :
  forall s, allChars priceChar s = true ->
    allChars isDigit (keepChars numericChar s) = true.
Proof.
  induction s as [|c t IH]; intro Hs; [reflexivity|].
  cbn [allChars] in Hs. apply andb_true_iff in Hs. destruct Hs as (Hc & Ht).
  cbn [keepChars]. unfold numericChar at 1.
  pose proof (priceChar_separator c Hc) as Hsep. unfold separator in Hsep.
  rewrite Hsep, orb_false_r.
  destruct (isDigit c) eqn:Ed; [cbn [allChars]; rewrite Ed|]; apply IH, Ht.
Qed.

Lemma allDigits_no_separator :
  forall s, allChars isDigit s = true -> countChars separator s = 0.
Proof.
  induction s as [|c t IH]; intro Hs; [reflexivity|].
  cbn [allChars] in Hs. apply andb_true_iff in Hs. destruct Hs as (Hc & Ht).
  cbn [countChars]. destruct (separator c) eqn:Es; [|apply IH, Ht].
  apply separator_not_digit in Es. congruence.
Qed.

Lemma digitsFrom_allDigits :
  forall s acc, allChars isDigit s = true -> exists a, digitsFrom acc s = Some a.
Proof.
  induction s as [|c t IH]; intros acc Hs; [exists acc; reflexivity|].
  cbn [allChars] in Hs. apply andb_true_iff in Hs. destruct Hs as (Hc & Ht).
  cbn [digitsFrom]. rewrite Hc. apply IH, Ht.
Qed.

(** A text of digits, white space and the letters of the no-break-space
    entity is read as a natural number or as Infinity. *)
Lemma parsePrice_priceChars :
  forall g, allChars priceChar g = true ->
    parsePrice (replaceAll nbspRe "" g) = Inf false \/
    exists b : N, parsePrice (replaceAll nbspRe "" g) = Fin (inject_Z (Z.of_N b)).
Proof.
  intros g Hg. unfold parsePrice. rewrite clean_numeric.
  pose proof (keepChars_priceChars _ (allChars_replaceAll_empty _ nbspRe _ 0 Hg)) as Hd.
  fold (replaceAll nbspRe "" g) in Hd.
  set (d := keepChars numericChar (replaceAll nbspRe "" g)) in *.
  pose proof (allDigits_no_separator d Hd) as Hsep.
  rewrite (replaceFirst_no_separator d Hsep). unfold Number.
  rewrite (splitDot_no_separator d Hsep).
  destruct (digitsFrom_allDigits d 0%N Hd) as (a & Ea). unfold digits. rewrite Ea.
  destruct d; [right; exists 0%N; reflexivity | apply nearestDouble_natural].
Qed.

Lemma wholePrice_guard :
  forall g,
    allChars priceChar g = true ->
    isFinite (parsePrice (replaceAll nbspRe "" g)) = true ->
    isPositive (parsePrice (replaceAll nbspRe "" g)) = true ->
    wholePrice (parsePrice (replaceAll nbspRe "" g)).
Proof.
  intros g Hg Hf Hp.
  destruct (parsePrice_priceChars g Hg) as [E|(b & E)]; rewrite E in *;
    [discriminate Hf|].
  exists (Z.of_N b). split; [|reflexivity].
  unfold isPositive, lessThan, zero, Qltb in Hp. apply negb_true_iff in Hp.
  destruct (Z.of_N b) as [|q|q] eqn:Eb; [discriminate Hp | lia | lia].
Qed.

Lemma primaryPrice_group :
  forall s m, search primaryPriceRe s = Some m -> allChars priceChar (group 1 m) = true.
Proof.
  intros s m E.
  apply (search_group 1 (fun v => allChars priceChar v = true) primaryPriceRe s m);
    [| | exact E].
  - cbn. repeat split; try exact I; try discriminate.
    intros _ * M. apply (plus_consumed _ _ _ _ _ _ _ _ M).
  - cbn. tauto.
Qed.

Lemma priceLabel_group :
  forall s m, search priceLabelRe s = Some m -> allChars priceChar (group 1 m) = true.
Proof.
  intros s m E.
  apply (search_group 1 (fun v => allChars priceChar v = true) priceLabelRe s m);
    [| | exact E].
  - cbn. repeat split; try exact I; try discriminate.
    intros _ * M. apply (plus_consumed _ _ _ _ _ _ _ _ M).
  - cbn. tauto.
Qed.

Lemma pageOffer_price :
  forall name_ pageUrl m p,
    pageOffer name_ pageUrl m = Some p ->
    wholePrice (price p) /\ currency p = VStr "SEK".
Proof.
  unfold pageOffer. intros name_ pageUrl m p E.
  destruct (negb (nonEmptyString (offerStore (group 2 m)))
            || test offerNoiseRe (offerStore (group 2 m))); [discriminate E|].
  destruct (search priceLabelRe (group 2 m)) as [pm|] eqn:Es; [|discriminate E].
  destruct (negb (isFinite (parsePrice (replaceAll nbspRe "" (group 1 pm))))
            || lessEq (parsePrice (replaceAll nbspRe "" (group 1 pm))) zero) eqn:Hp;
    [discriminate E|].
  apply price_guard in Hp. destruct Hp as (Hf & Hpos).
  injection E as <-. cbn [price currency]. split; [|reflexivity].
  apply wholePrice_guard; [eapply priceLabel_group, Es | exact Hf | exact Hpos].
Qed.

(** What holds of every offer built from a go-to-shop row holds of every
    offer the product-page extractor returns, when it does not depend on
    the availability. *)
Lemma page_offers_from_rows :
  forall (P : PrisjaktProduct -> Prop) html pageUrl,
    (forall p, P p -> P (markNotAvailable p)) ->
    (forall m p, In m (execAll offerRegex 0 html) ->
                 pageOffer (pageName html) pageUrl m = Some p -> P p) ->
    Forall P (extractOffersFromProductPageNaively html pageUrl).
Proof.
  intros P html pageUrl Hmark Hrow.
  assert (Hall : Forall P (map snd (byStore (pageOffers html pageUrl)))).
  { apply Forall_forall. intros q Hq.
    apply (byStore_incl _ (pageOffers_finite html pageUrl)) in Hq.
    apply collectSome_In in Hq. destruct Hq as (m & Hm & E). eapply Hrow; eassumption. }
  unfold extractOffersFromProductPageNaively.
  destruct (negb (nonEmptyString (pageName html))); [constructor|].
  destruct (test noStockRe html); [|exact Hall].
  apply Forall_forall. intros p Hp. apply in_map_iff in Hp.
  destruct Hp as (q & <- & Hq). apply Hmark.
  eapply (proj1 (Forall_forall _ _)); eassumption.
Qed.

(** X17. The primary card and the rows of a product page never give a price
    with decimals: every price these two extractors return is a whole
    number greater than zero. *)
Theorem card_and_row_prices_are_whole_numbers :
  forall html pageUrl : string,
    Forall (fun p => wholePrice (price p)) (extractPrimarySearchItems html) /\
    Forall (fun p => wholePrice (price p))
           (extractOffersFromProductPageNaively html pageUrl).
Proof.
  intros html pageUrl. split.
  - unfold extractPrimarySearchItems.
    destruct (search primaryLinkRe html) as [lm|]; [|constructor].
    destruct (search primaryPriceRe html) as [pm|] eqn:Ep; [|constructor].
    destruct (search primaryStoreRe html) as [sm|]; [|constructor].
    match goal with |- context [if test primaryNoiseRe ?s then _ else _] =>
      destruct (test primaryNoiseRe s); [constructor|]
    end.
    match goal with |- context [if ?c then _ else _] =>
      destruct c eqn:Hc; [|constructor]
    end.
    apply andb_true_iff in Hc. destruct Hc as (Hc & _).
    apply andb_true_iff in Hc. destruct Hc as (Hc & _).
    apply andb_true_iff in Hc. destruct Hc as (Hf & Hpos).
    constructor; [|constructor]. cbn [price].
    apply wholePrice_guard; [eapply primaryPrice_group, Ep | exact Hf | exact Hpos].
  - apply page_offers_from_rows.
    + intros p Hp. exact Hp.
    + intros m p _ E. apply (pageOffer_price _ _ _ _ E).
Qed.

Lemma offerRegex_group :
  forall s k m,
    In m (execAll offerRegex k s) ->
    literalThen "https://www.prisjakt.nu/go-to-shop/" notQuote (group 1 m).
Proof.
  intros s k m E.
  apply (execAll_group 1
           (literalThen "https://www.prisjakt.nu/go-to-shop/" notQuote)
           offerRegex s k m); [| | exact E].
  - cbn. repeat split; try exact I; try discriminate.
    intros _ * M.
    apply (literalThen_consumed "https://www.prisjakt.nu/go-to-shop/" notQuote _ _ _ _ M).
  - cbn. tauto.
Qed.

(** X18. Every offer of the product-page extractor carries the heading of
    the page as its name, SEK as its currency, and as its link a
    go-to-shop address of the host: the address [https://www.prisjakt.nu/go-to-shop/]
    in any case of its letters, followed by one or more characters other
    than the double quote. *)
Theorem product_page_offers_link_to_go_to_shop :
  forall html pageUrl : string,
    Forall (fun p =>
              name p = VStr (pageName html) /\
              currency p = VStr "SEK" /\
              exists u, storeUrl p = VStr u /\
                        literalThen "https://www.prisjakt.nu/go-to-shop/" notQuote u)
           (extractOffersFromProductPageNaively html pageUrl).
Proof.
  intros html pageUrl. apply page_offers_from_rows.
  - intros p Hp. exact Hp.
  - intros m p Hm E. split; [|split].
    + apply (pageOffer_Some _ _ _ _ E).
    + apply (pageOffer_price _ _ _ _ E).
    + exists (group 1 m). split; [apply (pageOffer_Some _ _ _ _ E)|].
      eapply offerRegex_group, Hm.
Qed.

Lemma primaryLink_group :
  forall s m,
    search primaryLinkRe s = Some m ->
    literalThen "/produkt.php?p=" isDigit (group 1 m).
Proof.
  intros s m E.
  apply (search_group 1 (literalThen "/produkt.php?p=" isDigit) primaryLinkRe s m);
    [| | exact E].
  - cbn. repeat split; try exact I; try discriminate.
    intros _ * M.
    apply (literalThen_consumed "/produkt.php?p=" isDigit _ _ _ _ M).
  - cbn. tauto.
Qed.

Lemma productLink_group :
  forall s m,
    search productLinkRe s = Some m ->
    literalThen "/produkt.php?p=" isDigit (group 1 m).
Proof.
  intros s m E.
  apply (search_group 1 (literalThen "/produkt.php?p=" isDigit) productLinkRe s m);
    [| | exact E].
  - cbn. repeat split; try exact I; try discriminate.
    intros _ * M.
    apply (literalThen_consumed "/produkt.php?p=" isDigit _ _ _ _ M).
  - cbn. tauto.
Qed.

(** X19. The product links of a search page name a product by digits: the
    id of the offer of the primary card, and the link the search follows
    as its last resort when there is one, are [/produkt.php?p=] in any case
    of its letters followed by one or more digits; the offer of the card
    links to the host address followed by its id. *)
Theorem search_product_links_are_numeric :
  forall html : string,
    Forall (fun p => literalThen "/produkt.php?p=" isDigit (id p) /\
                     storeUrl p = VStr (hostUrl ++ id p))
           (extractPrimarySearchItems html) /\
    (firstProductLink html = EmptyString \/
     literalThen "/produkt.php?p=" isDigit (firstProductLink html)).
Proof.
  intro html. split.
  - unfold extractPrimarySearchItems.
    destruct (search primaryLinkRe html) as [lm|] eqn:El; [|constructor].
    destruct (search primaryPriceRe html) as [pm|]; [|constructor].
    destruct (search primaryStoreRe html) as [sm|]; [|constructor].
    match goal with |- context [if test primaryNoiseRe ?s then _ else _] =>
      destruct (test primaryNoiseRe s); [constructor|]
    end.
    match goal with |- context [if ?c then _ else _] =>
      destruct c; [|constructor]
    end.
    constructor; [|constructor]. cbn [id storeUrl].
    split; [eapply primaryLink_group, El | reflexivity].
  - unfold firstProductLink, matchGroup.
    destruct (search productLinkRe html) as [m|] eqn:Em; [|left; reflexivity].
    right. eapply productLink_group, Em.
Qed.

(** ** [stripTags] *)

Lemma countChars_app :
  forall p a b, countChars p (a ++ b)%string = countChars p a + countChars p b.
Proof.
  intros p. induction a as [|c a IH]; intro b; [reflexivity|].
  cbn [append countChars]. rewrite IH. lia.
Qed.

Lemma countChars_replaceAll :
  forall p r by_,
    countChars p by_ = 0 ->
    forall s n, countChars p (replaceAllFrom r by_ n s) <= countChars p s.
Proof.
  intros p r by_ Hby. induction s as [|c t IH]; intro n.
  - destruct n; cbn [replaceAllFrom]; [|cbn; lia].
    destruct (matchHere r ""); [rewrite countChars_app, Hby|]; cbn; lia.
  - destruct n as [|n]; cbn [replaceAllFrom].
    + destruct (matchHere r (String c t)) as [m|].
      * rewrite countChars_app, Hby. destruct (String.length (whole m)).
        -- cbn [countChars]. pose proof (IH 0). lia.
        -- cbn [countChars]. pose proof (IH n). lia.
      * cbn [countChars]. pose proof (IH 0). lia.
    + cbn [countChars]. pose proof (IH n). lia.
Qed.

Lemma noTag_tail : forall c t, noTag (String c t) = true -> noTag t = true.
Proof. intros c t E. cbn [noTag] in E. apply andb_true_iff in E. apply E. Qed.

Lemma noTag_cons :
  forall c t,
    noTag t = true ->
    (c = "<"%char -> countChars (ch ">") t = 0) ->
    noTag (String c t) = true.
Proof.
  intros c t Ht Hc. cbn [noTag]. rewrite Ht, andb_true_r.
  destruct (Ascii.eqb_spec c "<"%char) as [E|_]; [|reflexivity].
  cbn [negb orb]. rewrite (Hc E). reflexivity.
Qed.

Lemma noTag_head :
  forall t, noTag (String "<" t) = true -> countChars (ch ">") t = 0.
Proof.
  intros t E. cbn [noTag] in E. apply andb_true_iff in E. destruct E as (E & _).
  cbn in E. apply Nat.eqb_eq in E. exact E.
Qed.

(** The first greater-than sign of a text that has one. *)
Lemma first_gt :
  forall t, countChars (ch ">") t <> 0 ->
    exists u v, t = (u ++ String ">" v)%string /\ allChars notGt u = true.
Proof.
  induction t as [|c t IH]; intro Hc; [contradiction Hc; reflexivity|].
  destruct (Ascii.eqb_spec c ">"%char) as [->|N].
  - exists "", t. split; reflexivity.
  - cbn [countChars] in Hc. unfold ch at 1 in Hc.
    destruct (Ascii.eqb_spec c ">"%char) as [E|_]; [contradiction|].
    destruct (IH Hc) as (u & v & -> & Hu). exists (String c u), v.
    split; [reflexivity|]. cbn [allChars]. rewrite Hu, andb_true_r.
    unfold notGt, notCh. destruct (Ascii.eqb_spec c ">"%char); [contradiction | reflexivity].
Qed.

Lemma repGreedy_reaches :
  forall (R : Type) p (k : string -> option R) u s',
    allChars p u = true -> succeeds (k s') = true ->
    succeeds (repGreedy p 0 None (u ++ s')%string k) = true.
Proof.
  intros R p k. induction u as [|c u IH]; intros s' Hu Hk.
  - cbn [append]. destruct s' as [|c t]; cbn [repGreedy]; [exact Hk|].
    destruct (canRepeat None && p c); [|exact Hk].
    rewrite orElse_succeeds, Hk. apply orb_true_r.
  - cbn [allChars] in Hu. apply andb_true_iff in Hu. destruct Hu as (Hc & Hu).
    cbn [append repGreedy]. rewrite Hc. cbn [canRepeat andb].
    rewrite orElse_succeeds. cbn [pred option_map]. rewrite (IH _ Hu Hk). reflexivity.
Qed.

(** The tag expression matches at a less-than sign that has a greater-than
    sign after it. *)
Lemma tagRe_matches :
  forall t, countChars (ch ">") t <> 0 -> matchHere tagRe (String "<" t) <> None.
Proof.
  intros t Hc. destruct (first_gt t Hc) as (u & v & -> & Hu).
  assert (Hs : matchesHere tagRe (String "<" (u ++ String ">" v)) = true).
  { rewrite matchesHere_run. unfold tagRe. cbn [seqs lit run].
    change (ch "<" "<"%char) with true. cbn iota.
    apply repGreedy_reaches; [exact Hu | reflexivity]. }
  unfold matchesHere in Hs. intro E. rewrite E in Hs. discriminate Hs.
Qed.

(** A match of the tag expression starts with a less-than sign and holds a
    greater-than sign. *)
Lemma tagRe_sound :
  forall s m, matchHere tagRe s = Some m ->
    exists t, s = String "<" t /\ countChars (ch ">") t <> 0.
Proof.
  intros s m E. apply matchHere_sound in E. destruct E as (M & _).
  unfold tagRe in M. cbn [seqs lit] in M.
  apply matches_Seq_inv in M. destruct M as (s1 & cs1 & M1 & M).
  apply matches_Seq_inv in M1. destruct M1 as (s2 & cs2 & M1 & M1').
  apply matches_Cls_inv in M1. destruct M1 as (c & -> & Hc & _).
  apply matches_Eps_inv in M1'. destruct M1' as (-> & _).
  apply matches_Seq_inv in M. destruct M as (s3 & cs3 & M2 & M).
  apply matches_Rep_inv in M2. destruct M2 as (u & -> & _).
  apply matches_Seq_inv in M. destruct M as (s4 & cs4 & M3 & _).
  apply matches_Seq_inv in M3. destruct M3 as (s5 & cs5 & M3 & _).
  apply matches_Cls_inv in M3. destruct M3 as (d & -> & Hd & _).
  unfold ch in Hc, Hd. apply Ascii.eqb_eq in Hc, Hd. subst c d.
  exists (u ++ String ">" s5)%string. split; [reflexivity|].
  rewrite countChars_app. cbn. lia.
Qed.

Lemma noTag_untag :
  forall s n, noTag (replaceAllFrom tagRe "" n s) = true.
Proof.
  induction s as [|c t IH]; intro n.
  - destruct n; cbn [replaceAllFrom]; [destruct (matchHere tagRe "")|]; reflexivity.
  - destruct n as [|n]; cbn [replaceAllFrom]; [|apply IH].
    destruct (matchHere tagRe (String c t)) as [m|] eqn:Em.
    + cbn [append]. destruct (String.length (whole m)) eqn:El; [|apply IH].
      exfalso. apply (matchHere_nonempty tagRe _ m eq_refl Em).
      destruct (whole m); [reflexivity | discriminate El].
    + apply noTag_cons; [apply IH|]. intros ->.
      destruct (Nat.eq_dec (countChars (ch ">") t) 0) as [E0|N].
      * pose proof (countChars_replaceAll (ch ">") tagRe "" eq_refl t 0). lia.
      * exfalso. apply (tagRe_matches t N), Em.
Qed.

Lemma noTag_replaceAll_blank :
  forall r s n, noTag s = true -> noTag (replaceAllFrom r " " n s) = true.
Proof.
  intros r. induction s as [|c t IH]; intros n Hs.
  - destruct n; cbn [replaceAllFrom]; [destruct (matchHere r "")|]; reflexivity.
  - pose proof (noTag_tail _ _ Hs) as Ht.
    assert (Hkeep : noTag (String c (replaceAllFrom r " " 0 t)) = true).
    { apply noTag_cons; [apply IH, Ht|]. intros ->.
      pose proof (noTag_head _ Hs).
      pose proof (countChars_replaceAll (ch ">") r " " eq_refl t 0). lia. }
    destruct n as [|n]; cbn [replaceAllFrom]; [|apply IH, Ht].
    destruct (matchHere r (String c t)) as [m|]; [|exact Hkeep].
    cbn [append]. apply noTag_cons; [|discriminate].
    destruct (String.length (whole m)); [exact Hkeep | apply IH, Ht].
Qed.

Lemma noTag_trimStart : forall s, noTag s = true -> noTag (trimStart s) = true.
Proof.
  induction s as [|c t IH]; intro Hs; [reflexivity|]. cbn [trimStart].
  destruct (isSpace c); [apply IH, (noTag_tail _ _ Hs) | exact Hs].
Qed.

Lemma trimEnd_prefix : forall s, exists b, s = (trimEnd s ++ b)%string.
Proof.
  induction s as [|c t (b & IH)]; [exists ""; reflexivity|]. cbn [trimEnd].
  destruct (trimEnd t) as [|d t'] eqn:Et.
  - destruct (isSpace c); [exists (String c t) | exists t]; reflexivity.
  - exists b. cbn [append]. f_equal. exact IH.
Qed.

Lemma noTag_prefix : forall a b, noTag (a ++ b)%string = true -> noTag a = true.
Proof.
  induction a as [|c a IH]; intros b E; [reflexivity|].
  cbn [append] in E. apply noTag_cons; [eapply IH, noTag_tail, E|].
  intros ->. apply noTag_head in E. rewrite countChars_app in E. lia.
Qed.

Lemma noTag_trim : forall s, noTag s = true -> noTag (trim s) = true.
Proof.
  intros s Hs. unfold trim. apply noTag_trimStart in Hs.
  destruct (trimEnd_prefix (trimStart s)) as (b & E). rewrite E in Hs.
  eapply noTag_prefix, Hs.
Qed.

(** X20. The text [stripTags] returns holds no tag: none of its less-than
    signs has a greater-than sign anywhere after it. *)
Theorem stripTags_leaves_no_tag :
  forall s : string, noTag (stripTags s) = true.
Proof.
  intro s. unfold stripTags, replaceAll.
  apply noTag_trim, noTag_replaceAll_blank, noTag_untag.
Qed.

(** ** White space *)

Lemma dropStr_split :
  forall n s, n <= String.length s ->
    exists u, s = (u ++ dropStr n s)%string /\ String.length u = n.
Proof.
  induction n as [|n IH]; intros s Hn.
  - exists "". split; [destruct s|]; reflexivity.
  - destruct s as [|c t]; [simpl in Hn; lia|]. simpl in Hn.
    destruct (IH t) as (u & E & Hu); [lia|].
    exists (String c u). cbn [dropStr append String.length].
    split; [f_equal; exact E | lia].
Qed.

Lemma spaceRun_le : forall s, spaceRun s <= String.length s.
Proof.
  induction s as [|c t IH]; simpl; [lia|]. destruct (isSpace c); lia.
Qed.

(** The greedy repetition takes the whole run when whatever follows is
    accepted. *)
Lemma repGreedy_whole_run :
  forall (R : Type) (f : string -> R) s lo,
    repGreedy isSpace lo None s (fun s' => Some (f s'))
    = if (lo <=? spaceRun s)%nat then Some (f (dropStr (spaceRun s) s)) else None.
Proof.
  intros R f. induction s as [|c t IH]; intro lo.
  - destruct lo; reflexivity.
  - cbn [repGreedy spaceRun canRepeat andb option_map].
    destruct (isSpace c) eqn:Ec.
    + rewrite IH. cbn [dropStr].
      destruct (pred lo <=? spaceRun t)%nat eqn:El.
      * cbn [orElse]. apply Nat.leb_le in El.
        destruct (lo <=? S (spaceRun t))%nat eqn:El'; [reflexivity|].
        apply Nat.leb_gt in El'. lia.
      * cbn [orElse]. apply Nat.leb_gt in El.
        destruct lo as [|lo]; [simpl in El; lia|].
        destruct (S lo <=? S (spaceRun t))%nat eqn:El'; [|reflexivity].
        apply Nat.leb_le in El'. simpl in El. lia.
    + destruct lo; reflexivity.
Qed.

Lemma matchHere_spacesRe :
  forall s,
    match matchHere spacesRe s with
    | Some m => 1 <= spaceRun s /\ String.length (whole m) = spaceRun s
    | None => spaceRun s = 0
    end.
Proof.
  intro s. unfold matchHere, spacesRe, plus. cbn [run].
  rewrite (repGreedy_whole_run matched (fun s' => mkMatched (consumed s s') [] s')).
  destruct (1 <=? spaceRun s)%nat eqn:El.
  - apply Nat.leb_le in El. split; [exact El|]. cbn [whole].
    destruct (dropStr_split (spaceRun s) s (spaceRun_le s)) as (u & E & Hu).
    rewrite E at 1. rewrite consumed_app. exact Hu.
  - apply Nat.leb_gt in El. lia.
Qed.

(** [replace(/\s+/g, ' ')] writes one blank for every run of white
    space. *)
Lemma replaceAll_spaces :
  forall s,
    replaceAllFrom spacesRe " " 0 s = collapse false s /\
    replaceAllFrom spacesRe " " (spaceRun s) s = collapse true s.
Proof.
  induction s as [|c t (IH0 & IHrun)].
  - split; reflexivity.
  - assert (H0 : replaceAllFrom spacesRe " " 0 (String c t) = collapse false (String c t)).
    { cbn [replaceAllFrom collapse].
      pose proof (matchHere_spacesRe (String c t)) as Hm.
      destruct (matchHere spacesRe (String c t)) as [m|].
      - destruct Hm as (Hr & Hl). rewrite Hl. cbn [spaceRun] in *.
        destruct (isSpace c); [|lia]. cbn [append]. rewrite IHrun. reflexivity.
      - cbn [spaceRun] in Hm. destruct (isSpace c); [discriminate Hm|].
        rewrite IH0. reflexivity. }
    split; [exact H0|]. cbn [spaceRun]. destruct (isSpace c) eqn:Ec.
    + cbn [replaceAllFrom collapse]. rewrite Ec. exact IHrun.
    + rewrite H0. cbn [collapse]. rewrite Ec. reflexivity.
Qed.

Lemma spaceRun_collapse_true : forall s, spaceRun (collapse true s) = 0.
Proof.
  induction s as [|c t IH]; [reflexivity|]. cbn [collapse].
  destruct (isSpace c) eqn:Ec; [exact IH|]. cbn [spaceRun]. rewrite Ec. reflexivity.
Qed.

Lemma collapsed_collapse : forall s b, collapsed (collapse b s) = true.
Proof.
  induction s as [|c t IH]; intro b; [reflexivity|]. cbn [collapse].
  destruct (isSpace c) eqn:Ec.
  - destruct b; [apply IH|]. cbn [collapsed]. rewrite IH, spaceRun_collapse_true.
    reflexivity.
  - cbn [collapsed]. rewrite Ec, IH. reflexivity.
Qed.

Lemma collapsed_tail : forall c t, collapsed (String c t) = true -> collapsed t = true.
Proof. intros c t E. cbn [collapsed] in E. apply andb_true_iff in E. apply E. Qed.

Lemma collapsed_trimStart : forall s, collapsed s = true -> collapsed (trimStart s) = true.
Proof.
  induction s as [|c t IH]; intro Hs; [reflexivity|]. cbn [trimStart].
  destruct (isSpace c); [apply IH, (collapsed_tail _ _ Hs) | exact Hs].
Qed.

Lemma spaceRun_prefix :
  forall a b, spaceRun (a ++ b)%string = 0 -> spaceRun a = 0.
Proof.
  intros [|c a] b E; [reflexivity|]. cbn [append spaceRun] in *.
  destruct (isSpace c); [discriminate E | reflexivity].
Qed.

Lemma collapsed_prefix :
  forall a b, collapsed (a ++ b)%string = true -> collapsed a = true.
Proof.
  induction a as [|c a IH]; intros b E; [reflexivity|].
  cbn [append collapsed] in *. apply andb_true_iff in E. destruct E as (Ec & Et).
  rewrite (IH _ Et), andb_true_r.
  destruct (isSpace c); [|reflexivity]. cbn [negb orb] in *.
  apply andb_true_iff in Ec. destruct Ec as (-> & Er).
  apply Nat.eqb_eq in Er. rewrite (spaceRun_prefix _ _ Er). reflexivity.
Qed.

Lemma spaceRun_trimStart : forall s, spaceRun (trimStart s) = 0.
Proof.
  induction s as [|c t IH]; [reflexivity|]. cbn [trimStart].
  destruct (isSpace c) eqn:Ec; [exact IH|]. cbn [spaceRun]. rewrite Ec. reflexivity.
Qed.

Lemma spaceRun_trimEnd : forall s, spaceRun s = 0 -> spaceRun (trimEnd s) = 0.
Proof.
  intros s E. destruct (trimEnd_prefix s) as (b & Eb).
  destruct (trimEnd s) as [|c t] eqn:Et; [reflexivity|].
  rewrite Eb in E. cbn [append spaceRun] in *.
  destruct (isSpace c); [discriminate E | reflexivity].
Qed.

Lemma endsWithSpace_trimEnd : forall s, endsWithSpace (trimEnd s) = false.
Proof.
  induction s as [|c t IH]; [reflexivity|]. cbn [trimEnd].
  destruct (trimEnd t) as [|d t'] eqn:Et.
  - destruct (isSpace c) eqn:Ec; [reflexivity|]. cbn. exact Ec.
  - exact IH.
Qed.

Lemma trimStart_fixed : forall s, spaceRun s = 0 -> trimStart s = s.
Proof.
  intros [|c t] E; [reflexivity|]. cbn [trimStart spaceRun] in *.
  destruct (isSpace c); [discriminate E | reflexivity].
Qed.

Lemma trimEnd_fixed : forall s, endsWithSpace s = false -> trimEnd s = s.
Proof.
  induction s as [|c t IH]; intro E; [reflexivity|]. cbn [trimEnd].
  destruct t as [|d t'].
  - cbn in *. rewrite E. reflexivity.
  - rewrite (IH E). reflexivity.
Qed.

Lemma collapse_fixed :
  forall s, collapsed s = true ->
    collapse false s = s /\ (spaceRun s = 0 -> collapse true s = s).
Proof.
  induction s as [|c t IH]; intro Hs; [split; reflexivity|].
  cbn [collapsed] in Hs. apply andb_true_iff in Hs. destruct Hs as (Hc & Ht).
  destruct (IH Ht) as (IH0 & IHrun). cbn [collapse spaceRun].
  destruct (isSpace c) eqn:Ec.
  - cbn [negb orb] in Hc. apply andb_true_iff in Hc. destruct Hc as (Eb & Er).
    apply Ascii.eqb_eq in Eb. apply Nat.eqb_eq in Er. subst c.
    split; [rewrite (IHrun Er); reflexivity | discriminate].
  - rewrite IH0. split; reflexivity.
Qed.

Lemma untag_fixed :
  forall s, noTag s = true -> replaceAllFrom tagRe "" 0 s = s.
Proof.
  induction s as [|c t IH]; intro Hs; [reflexivity|]. cbn [replaceAllFrom].
  destruct (matchHere tagRe (String c t)) as [m|] eqn:Em.
  - exfalso. apply tagRe_sound in Em. destruct Em as (t' & E & Hc).
    injection E as -> <-. apply noTag_head in Hs. contradiction.
  - rewrite (IH (noTag_tail _ _ Hs)). reflexivity.
Qed.

(** X21. The text [stripTags] returns has its white space in normal form: it
    neither starts nor ends with white space, and every white-space
    character in it is a single blank between two other characters. So
    [stripTags] is idempotent, and collapsing the white space and trimming
    once more, as the extractors do after it, changes nothing. *)
Theorem stripTags_normalises_white_space :
  forall s : string,
    spaceRun (stripTags s) = 0 /\
    endsWithSpace (stripTags s) = false /\
    collapsed (stripTags s) = true /\
    stripTags (stripTags s) = stripTags s /\
    trim (replaceAll spacesRe " " (stripTags s)) = stripTags s.
Proof.
  intro s.
  assert (Hrun : spaceRun (stripTags s) = 0).
  { unfold stripTags, trim. apply spaceRun_trimEnd, spaceRun_trimStart. }
  assert (Hend : endsWithSpace (stripTags s) = false).
  { unfold stripTags, trim. apply endsWithSpace_trimEnd. }
  assert (Hcol : collapsed (stripTags s) = true).
  { unfold stripTags, trim, replaceAll.
    destruct (trimEnd_prefix
                (trimStart (replaceAllFrom spacesRe " " 0 (replaceAllFrom tagRe "" 0 s))))
      as (b & E).
    eapply collapsed_prefix. rewrite <- E.
    apply collapsed_trimStart.
    rewrite (proj1 (replaceAll_spaces _)). apply collapsed_collapse. }
  assert (Hre : trim (replaceAll spacesRe " " (stripTags s)) = stripTags s).
  { unfold replaceAll. rewrite (proj1 (replaceAll_spaces _)).
    rewrite (proj1 (collapse_fixed _ Hcol)). unfold trim.
    rewrite (trimStart_fixed _ Hrun). apply trimEnd_fixed, Hend. }
  repeat split; try assumption.
  unfold stripTags at 1. unfold replaceAll at 2.
  assert (Htag : noTag (stripTags s) = true).
  { unfold stripTags, replaceAll.
    apply noTag_trim, noTag_replaceAll_blank, noTag_untag. }
  rewrite (untag_fixed _ Htag). exact Hre.
Qed.

(** ** [decodeHtml] *)

Lemma matchHere_empty_text :
  forall r, nullable r = false -> matchHere r "" = None.
Proof.
  intros r Hr. destruct (matchHere r "") as [m|] eqn:Em; [|reflexivity].
  exfalso. apply (matchHere_nonempty r "" m Hr Em).
  apply matchHere_sound in Em. destruct Em as (_ & ->). reflexivity.
Qed.

Lemma length_replaceAll :
  forall r by_,
    nullable r = false -> String.length by_ <= 1 ->
    forall s n, String.length (replaceAllFrom r by_ n s) <= String.length s.
Proof.
  intros r by_ Hr Hby. induction s as [|c t IH]; intro n.
  - destruct n; cbn [replaceAllFrom]; [|cbn; lia].
    rewrite (matchHere_empty_text r Hr). cbn. lia.
  - destruct n as [|n]; cbn [replaceAllFrom String.length].
    + destruct (matchHere r (String c t)) as [m|] eqn:Em.
      * rewrite length_append.
        destruct (String.length (whole m)) as [|k] eqn:El.
        -- exfalso. apply (matchHere_nonempty r _ m Hr Em).
           destruct (whole m); [reflexivity | discriminate El].
        -- pose proof (IH k). lia.
      * cbn [String.length]. pose proof (IH 0). lia.
    + pose proof (IH n). lia.
Qed.

Lemma lit_firstIn :
  forall c w, firstIn (ch c) (lit (String c w)).
Proof. intros c w x Hx. exact Hx. Qed.

(** X22. [decodeHtml] never lengthens a text, and returns a text without an
    ampersand as it is. *)
Theorem decodeHtml_shortens_or_keeps :
  forall s : string,
    String.length (decodeHtml s) <= String.length s /\
    (countChars (ch "&") s = 0 -> decodeHtml s = s).
Proof.
  intro s. split.
  - unfold decodeHtml, replaceAll.
    repeat (eapply Nat.le_trans;
            [apply length_replaceAll; [reflexivity | cbn; lia]|]).
    apply Nat.le_refl.
  - intro Hs. unfold decodeHtml.
    rewrite (replaceAll_lacks (ch "&") (lit "&amp;") "&" s (lit_firstIn _ _) Hs).
    rewrite (replaceAll_lacks (ch "&") (lit "&lt;") "<" s (lit_firstIn _ _) Hs).
    rewrite (replaceAll_lacks (ch "&") (lit "&gt;") ">" s (lit_firstIn _ _) Hs).
    rewrite (replaceAll_lacks (ch "&") (lit "&quot;") dq s (lit_firstIn _ _) Hs).
    apply (replaceAll_lacks (ch "&") (lit "&#39;") "'" s (lit_firstIn _ _) Hs).
Qed.

(** ** The search route *)

Lemma countChars_spaceRun :
  forall s, countChars isSpace s = 0 -> spaceRun s = 0 /\ endsWithSpace s = false.
Proof.
  induction s as [|c t IH]; intro Hs; [split; reflexivity|].
  cbn [countChars] in Hs. destruct (isSpace c) eqn:Ec; [discriminate Hs|].
  destruct (IH Hs) as (_ & He). cbn [spaceRun endsWithSpace]. rewrite Ec.
  split; [reflexivity|]. destruct t; [reflexivity | exact He].
Qed.

(** X23. A module number without white space is searched for as it is:
    [cleanProductName] returns it unchanged. *)
Theorem cleanProductName_keeps_plain_numbers :
  forall s : string, countChars isSpace s = 0 -> cleanProductName s = s.
Proof.
  intros s Hs. unfold cleanProductName.
  rewrite (replaceAll_lacks isSpace versionRe "" s); [| |exact Hs].
  - destruct (countChars_spaceRun s Hs) as (Hr & He). unfold trim.
    rewrite (trimStart_fixed s Hr). apply trimEnd_fixed, He.
  - cbn. split; [lia | auto].
Qed.

Lemma cleanProductName_plain_witness :
  cleanProductName "CMH48GX5M2B7000C36" = "CMH48GX5M2B7000C36".
Proof.
  apply cleanProductName_keeps_plain_numbers. vm_compute. reflexivity.
Defined.

Section RouteFacts.
Context {H : Host} {E : PrisjaktAPI.Endpoint}.

Lemma scrapePrisjaktProductOf_returns :
  forall v, exists l, scrapePrisjaktProductOf v = Ok l.
Proof.
  intros [| | b | n | s | items | fields]; cbn [scrapePrisjaktProductOf]; eauto.
  apply tryCatch_returns.
Qed.

Lemma scrapeBranch_returns :
  forall q, exists l, scrapeBranch q = Ok l.
Proof.
  intro q. unfold scrapeBranch.
  destruct (tryCatch_returns _ (scrapePrisjaktSearch_try q) []) as (l & El).
  unfold scrapePrisjaktSearch. rewrite El. cbn [bind].
  destruct l as [|p [|p' rest]]; eauto. apply scrapePrisjaktProductOf_returns.
Qed.

(** The offer of the primary card passes the store filter and links to
    the product page its id names. *)
Lemma primary_card_kept :
  forall html,
    filterPrisjaktStore (extractPrimarySearchItems html)
    = Ok (extractPrimarySearchItems html) /\
    Forall (fun p => storeUrl p = VStr (hostUrl ++ id p))
           (extractPrimarySearchItems html).
Proof.
  intro html.
  assert (Hall : Forall (fun p => storeUrl p = VStr (hostUrl ++ id p) /\
                                  exists s, store p = VStr s /\
                                            test primaryNoiseRe s = false)
                        (extractPrimarySearchItems html)).
  { unfold extractPrimarySearchItems.
    destruct (search primaryLinkRe html) as [lm|]; [|constructor].
    destruct (search primaryPriceRe html) as [pm|]; [|constructor].
    destruct (search primaryStoreRe html) as [sm|]; [|constructor].
    match goal with |- context [if test primaryNoiseRe ?s then _ else _] =>
      destruct (test primaryNoiseRe s) eqn:Hn; [constructor|]
    end.
    match goal with |- context [if ?c then _ else _] =>
      destruct c; [|constructor]
    end.
    constructor; [|constructor]. cbn [storeUrl id store].
    split; [reflexivity|]. eexists. split; [reflexivity | exact Hn]. }
  split.
  - apply filterPrisjaktStore_keeps. eapply Forall_impl; [|exact Hall].
    intros p (_ & s & Es & Hn). exists s. split; [exact Es|].
    apply primaryNoise_covers_brand, Hn.
  - eapply Forall_impl; [|exact Hall]. intros p (Hu & _). exact Hu.
Qed.
End RouteFacts.

(** X24. Without an API key, when the search page shows a primary card, the
    route does not answer with the offer of the card: it answers with what
    [scrapePrisjaktProduct] returns for the product page of the card,
    also when that is the empty list. *)
Theorem route_replaces_the_card_by_its_product_page :
  forall (H : Host) (q e html : string) (p : PrisjaktProduct),
    encode q = Ok e ->
    fetch (hostUrl ++ "/search?query=" ++ e)%string = Response true (Some html) ->
    extractPrimarySearchItems html = [p] ->
    scrapeBranch q = scrapePrisjaktProduct (hostUrl ++ id p)%string.
Proof.
  intros H q e html p Hq Hf Hp. unfold scrapeBranch.
  assert (Es : scrapePrisjaktSearch q = Ok [p]).
  { unfold scrapePrisjaktSearch, scrapePrisjaktSearch_try.
    rewrite Hq. cbn [bind]. unfold fetchPage. rewrite Hf. cbn [bind].
    rewrite (proj1 (primary_card_kept html)), Hp. reflexivity. }
  rewrite Es. cbn [bind].
  pose proof (proj2 (primary_card_kept html)) as Hu. rewrite Hp in Hu.
  inversion Hu as [|? ? Hu1 _]; subst. rewrite Hu1. reflexivity.
Qed.

(** The card of the example is found and then lost: its product page, as
    served by the example platform, has no offers. *)
Lemma route_replaces_the_card_witness :
  @scrapeBranch (staticHost (servedPage cardPage) None) "CMH48GX5M2B7000C36"
  = @scrapePrisjaktProduct (staticHost (servedPage cardPage) None)
      (hostUrl ++ "/produkt.php?p=12")%string.
Proof.
  apply (route_replaces_the_card_by_its_product_page
           (staticHost (servedPage cardPage) None)
           "CMH48GX5M2B7000C36" "CMH48GX5M2B7000C36" cardPage
           {| id := "/produkt.php?p=12";
              name := VStr "Corsair X";
              price := Fin 2095;
              currency := VStr "SEK";
              store := VStr "MJ Multimedia";
              storeUrl := VStr (hostUrl ++ "/produkt.php?p=12")%string;
              availability := in_stock;
              imageUrl := VUndef |}).
  - reflexivity.
  - reflexivity.
  - vm_compute. reflexivity.
Defined.

(** X25. The route answers with status 500 in two cases only: the body of
    the request cannot be read as an object, or the module number is a
    value other than a string that is not falsy. The scraper never makes
    it fail. *)
Theorem route_server_error_cases :
  forall (H : Host) (E : PrisjaktAPI.Endpoint) (body : option value)
         (now later : Z) (c : PrisjaktAPI.Cache),
    fst (POST body now later c) = ServerError <->
    (body = None \/ body = Some VNull \/ body = Some VUndef \/
     exists b, body = Some b /\
               truthy (get b "moduleNumber") = true /\
               forall m, get b "moduleNumber" <> VStr m).
Proof.
  intros H E body now later c. unfold POST.
  assert (Hmain : forall b,
    fst (let moduleNumber := get b "moduleNumber" in
         let apiKey := get b "apiKey" in
         if negb (truthy moduleNumber) then (BadRequest, c)
         else
           match moduleNumber with
           | VStr m =>
               if negb (truthy apiKey)
               then match scrapeBranch (cleanProductName m) with
                    | Ok products => (Scraped products, c)
                    | Throw => (ServerError, c)
                    end
               else let '(products, c') :=
                      PrisjaktAPI.searchRAM apiKey m now later c in
                    (FromApi products, c')
           | _ => (ServerError, c)
           end) = ServerError <->
    (truthy (get b "moduleNumber") = true /\
     forall m, get b "moduleNumber" <> VStr m)).
  { intro b. cbv zeta.
    destruct (truthy (get b "moduleNumber")) eqn:Et; cbn [negb].
    - destruct (get b "moduleNumber") as [| | x | n | m | items | fields] eqn:Em;
        try (split; [intros _; split; [reflexivity | discriminate]
                    | reflexivity]).
      split.
      + intro Hs. exfalso.
        destruct (negb (truthy (get b "apiKey"))).
        * destruct (scrapeBranch_returns (cleanProductName m)) as (l & El).
          rewrite El in Hs. discriminate Hs.
        * destruct (PrisjaktAPI.searchRAM (get b "apiKey") m now later c).
          discriminate Hs.
      + intros (_ & Hm). contradiction (Hm m). reflexivity.
    - split; [discriminate | intros (Hf & _); discriminate Hf]. }
  destruct body as [b|].
  - destruct b as [| | x | n | m | items | fields];
      try (rewrite Hmain; split;
           [intros Hb; right; right; right; eexists; split; [reflexivity | exact Hb]
           | intros [Hb|[Hb|[Hb|(b' & Hb & Ht)]]];
             [discriminate Hb | discriminate Hb | discriminate Hb
             | injection Hb as <-; exact Ht]]).
    + split; [intros _; right; right; left; reflexivity | reflexivity].
    + split; [intros _; right; left; reflexivity | reflexivity].
  - split; [intros _; left; reflexivity | reflexivity].
Qed.

(** ** The cache of the API client *)

Module CacheFacts.
Import PrisjaktAPI.

Lemma cacheGet_cacheSet_same :
  forall key e c, cacheGet key (cacheSet key e c) = Some e.
Proof.
  intros key e. induction c as [|[k e'] rest IH]; cbn [cacheSet cacheGet].
  - rewrite String.eqb_refl. reflexivity.
  - destruct (String.eqb k key) eqn:Ek; cbn [cacheGet]; rewrite Ek;
      [reflexivity | exact IH].
Qed.

Lemma cacheGet_cacheSet_other :
  forall key key' e c,
    key' <> key -> cacheGet key' (cacheSet key e c) = cacheGet key' c.
Proof.
  intros key key' e c Hne. induction c as [|[k e'] rest IH]; cbn [cacheSet cacheGet].
  - destruct (String.eqb_spec key key'); [congruence | reflexivity].
  - destruct (String.eqb_spec k key) as [->|Hk]; cbn [cacheGet].
    + destruct (String.eqb_spec key key'); [congruence | reflexivity].
    + destruct (String.eqb k key'); [reflexivity | exact IH].
Qed.

Lemma cacheSet_length :
  forall key e c,
    List.length c <= List.length (cacheSet key e c) <= S (List.length c).
Proof.
  intros key e. induction c as [|[k e'] rest IH]; cbn [cacheSet].
  - cbn. lia.
  - destruct (String.eqb k key); cbn [List.length]; lia.
Qed.

Lemma cacheGet_In_keys :
  forall key c, cacheGet key c <> None <-> In key (map fst c).
Proof.
  intros key. induction c as [|[k e] rest IH]; cbn [cacheGet map fst In].
  - split; [congruence | contradiction].
  - destruct (String.eqb_spec k key) as [->|Hk].
    + split; [left; reflexivity | discriminate].
    + rewrite IH. split; [right; assumption | intros [Hc|Hr]; [contradiction | exact Hr]].
Qed.

Lemma cacheSet_keys :
  forall key e c,
    map fst (cacheSet key e c)
    = if existsb (String.eqb key) (map fst c) then map fst c
      else map fst c ++ [key].
Proof.
  intros key e. induction c as [|[k e'] rest IH]; cbn [cacheSet map fst existsb].
  - reflexivity.
  - rewrite (String.eqb_sym key k).
    destruct (String.eqb k key) eqn:Ek; cbn [map fst orb]; [reflexivity|].
    rewrite IH. destruct (existsb (String.eqb key) (map fst rest)); reflexivity.
Qed.

Lemma cacheSet_NoDup :
  forall key e c, NoDup (map fst c) -> NoDup (map fst (cacheSet key e c)).
Proof.
  intros key e c Hc. rewrite cacheSet_keys.
  destruct (existsb (String.eqb key) (map fst c)) eqn:Ex; [exact Hc|].
  apply NoDup_app; [exact Hc | repeat constructor; intros [] |].
  intros x Hx [Ex'|[]]. subst x.
  assert (existsb (String.eqb key) (map fst c) = true).
  { apply existsb_exists. exists key. split; [exact Hx | apply String.eqb_refl]. }
  congruence.
Qed.

Section Search.
Context {H : Host} {E : Endpoint}.

(** A search that finds no valid entry stores what the API answered, and
    stores nothing when the request failed. *)
Lemma cachedSearch_miss :
  forall apiKey key query now later c,
    misses key now c ->
    cachedSearch apiKey key query now later c
    = match request apiKey query with
      | Ok products =>
          (products,
           cacheSet key {| data := products; timestamp := later; ttl := oneHour |} c)
      | Throw => ([], c)
      end.
Proof.
  intros apiKey key query now later c Hm. unfold cachedSearch, misses in *.
  destruct (cacheGet key c) as [e|]; [|reflexivity].
  destruct (Z.ltb_spec (now - timestamp e) (ttl e)); [lia | reflexivity].
Qed.

Lemma cachedSearch_grows :
  forall apiKey key query now later c,
    let c' := snd (cachedSearch apiKey key query now later c) in
    (forall k, cacheGet k c <> None -> cacheGet k c' <> None) /\
    List.length c <= List.length c' <= S (List.length c) /\
    (NoDup (map fst c) -> NoDup (map fst c')).
Proof.
  intros apiKey key query now later c.
  assert (Hset : forall e,
    (forall k, cacheGet k c <> None -> cacheGet k (cacheSet key e c) <> None) /\
    List.length c <= List.length (cacheSet key e c) <= S (List.length c) /\
    (NoDup (map fst c) -> NoDup (map fst (cacheSet key e c)))).
  { intro e. split; [|split; [apply cacheSet_length | apply cacheSet_NoDup]].
    intros k Hk. destruct (String.eqb_spec k key) as [->|Hne].
    - rewrite cacheGet_cacheSet_same. discriminate.
    - rewrite (cacheGet_cacheSet_other _ _ _ _ Hne). exact Hk. }
  assert (Hsame : (forall k, cacheGet k c <> None -> cacheGet k c <> None) /\
                  List.length c <= List.length c <= S (List.length c) /\
                  (NoDup (map fst c) -> NoDup (map fst c))).
  { repeat split; auto. }
  unfold cachedSearch. cbv zeta.
  destruct (cacheGet key c) as [e|].
  - destruct (now - timestamp e <? ttl e)%Z; [exact Hsame|].
    destruct (request apiKey query); [apply Hset | exact Hsame].
  - destruct (request apiKey query); [apply Hset | exact Hsame].
Qed.
End Search.

(** An entry stored at [later] answers every search for its key that
    starts less than an hour after, on any platform and with any key. *)
Lemma cachedSearch_hit :
  forall (H : Host) (E : Endpoint) apiKey key query now later' later products c,
    (now - later < oneHour)%Z ->
    cachedSearch apiKey key query now later'
      (cacheSet key {| data := products; timestamp := later; ttl := oneHour |} c)
    = (products,
       cacheSet key {| data := products; timestamp := later; ttl := oneHour |} c).
Proof.
  intros H E apiKey key query now later' later products c Hlt.
  unfold cachedSearch. rewrite cacheGet_cacheSet_same. cbn [timestamp ttl data].
  destruct (Z.ltb_spec (now - later) oneHour); [reflexivity | lia].
Qed.

End CacheFacts.

(** X26. [searchRAM] caches what the API answered, and nothing else. When
    the cache has no valid entry for the module number, either the request
    fails, the result is the empty list and the cache is left as it was, or
    the request succeeds and its products answer every search for the same
    module number that starts less than an hour after they were stored,
    whatever API key that search uses and whatever the API would answer by
    then. *)
Theorem searchRAM_caches_successful_answers :
  forall (H : Host) (E : PrisjaktAPI.Endpoint) (apiKey : value)
         (moduleNumber : string) (now later : Z) (c : PrisjaktAPI.Cache),
    misses ("ram_" ++ moduleNumber) now c ->
    (PrisjaktAPI.request apiKey moduleNumber = Throw /\
     PrisjaktAPI.searchRAM apiKey moduleNumber now later c = ([], c)) \/
    (exists products c',
       PrisjaktAPI.request apiKey moduleNumber = Ok products /\
       PrisjaktAPI.searchRAM apiKey moduleNumber now later c = (products, c') /\
       forall (H' : Host) (E' : PrisjaktAPI.Endpoint) (apiKey' : value)
              (now' later' : Z),
         (now' - later < PrisjaktAPI.oneHour)%Z ->
         @PrisjaktAPI.searchRAM H' E' apiKey' moduleNumber now' later' c'
         = (products, c')).
Proof.
  intros H E apiKey moduleNumber now later c Hm. unfold PrisjaktAPI.searchRAM.
  rewrite (CacheFacts.cachedSearch_miss _ _ _ _ _ _ Hm).
  destruct (PrisjaktAPI.request apiKey moduleNumber) as [products|].
  - right. eexists. eexists. split; [reflexivity|]. split; [reflexivity|].
    intros H' E' apiKey' now' later' Hlt.
    apply CacheFacts.cachedSearch_hit, Hlt.
  - left. split; reflexivity.
Qed.

Lemma searchRAM_caches_witness :
  (@PrisjaktAPI.request offlineHost (staticEndpoint oneProductAnswer)
     (VStr "key") "CMH48" = Throw /\
   @PrisjaktAPI.searchRAM offlineHost (staticEndpoint oneProductAnswer)
     (VStr "key") "CMH48" 1000 1200 [] = ([], [])) \/
  (exists products c',
     @PrisjaktAPI.request offlineHost (staticEndpoint oneProductAnswer)
       (VStr "key") "CMH48" = Ok products /\
     @PrisjaktAPI.searchRAM offlineHost (staticEndpoint oneProductAnswer)
       (VStr "key") "CMH48" 1000 1200 [] = (products, c') /\
     forall (H' : Host) (E' : PrisjaktAPI.Endpoint) (apiKey' : value)
            (now' later' : Z),
       (now' - 1200 < PrisjaktAPI.oneHour)%Z ->
       @PrisjaktAPI.searchRAM H' E' apiKey' "CMH48" now' later' c'
       = (products, c')).
Proof.
  apply (searchRAM_caches_successful_answers offlineHost
           (staticEndpoint oneProductAnswer) (VStr "key") "CMH48" 1000 1200 []).
  exact I.
Defined.

(** X27. The two searches share their cache keys: the products stored by a
    search by specifications answer, for an hour, the search for the module
    number [specs_] followed by the vendor, the size and the speed joined
    by underscores, without any request to the API. *)
Theorem searchRAM_reads_entries_of_searchRAMBySpecs :
  forall (H : Host) (E : PrisjaktAPI.Endpoint) (apiKey : value)
         (vendor size speed : string) (now later : Z) (c : PrisjaktAPI.Cache)
         (products : list PrisjaktAPI.Product),
    misses ("ram_specs_" ++ vendor ++ "_" ++ size ++ "_" ++ speed) now c ->
    PrisjaktAPI.request apiKey (vendor ++ " " ++ size ++ " DDR5 " ++ speed)
    = Ok products ->
    exists c',
      PrisjaktAPI.searchRAMBySpecs apiKey vendor size speed now later c
      = (products, c') /\
      forall (H' : Host) (E' : PrisjaktAPI.Endpoint) (apiKey' : value)
             (now' later' : Z),
        (now' - later < PrisjaktAPI.oneHour)%Z ->
        @PrisjaktAPI.searchRAM H' E' apiKey'
          ("specs_" ++ vendor ++ "_" ++ size ++ "_" ++ speed) now' later' c'
        = (products, c').
Proof.
  intros H E apiKey vendor size speed now later c products Hm Hr.
  unfold PrisjaktAPI.searchRAMBySpecs.
  rewrite (CacheFacts.cachedSearch_miss _ _ _ _ _ _ Hm), Hr.
  eexists. split; [reflexivity|].
  intros H' E' apiKey' now' later' Hlt. unfold PrisjaktAPI.searchRAM.
  change ("ram_" ++ "specs_" ++ vendor ++ "_" ++ size ++ "_" ++ speed)%string
    with ("ram_specs_" ++ vendor ++ "_" ++ size ++ "_" ++ speed)%string.
  apply CacheFacts.cachedSearch_hit, Hlt.
Qed.

Lemma searchRAM_reads_specs_witness :
  exists c',
    @PrisjaktAPI.searchRAMBySpecs offlineHost (staticEndpoint oneProductAnswer)
      (VStr "key") "Corsair" "32GB" "6000" 1000 1200 []
    = ([oneProduct], c') /\
    forall (H' : Host) (E' : PrisjaktAPI.Endpoint) (apiKey' : value)
           (now' later' : Z),
      (now' - 1200 < PrisjaktAPI.oneHour)%Z ->
      @PrisjaktAPI.searchRAM H' E' apiKey' "specs_Corsair_32GB_6000" now' later' c'
      = ([oneProduct], c').
Proof.
  apply (searchRAM_reads_entries_of_searchRAMBySpecs offlineHost
           (staticEndpoint oneProductAnswer) (VStr "key")
           "Corsair" "32GB" "6000" 1000 1200 [] [oneProduct]).
  - exact I.
  - reflexivity.
Defined.

(** X28. A search never removes an entry of the cache, not even one that has
    expired: every key of the cache is still a key after [searchRAM] and
    after [searchRAMBySpecs], the cache has the same number of entries or
    one more, and its keys stay distinct. *)
Theorem searches_never_evict :
  forall (H : Host) (E : PrisjaktAPI.Endpoint) (apiKey : value)
         (moduleNumber vendor size speed : string) (now later : Z)
         (c : PrisjaktAPI.Cache),
    let kept := fun c' : PrisjaktAPI.Cache =>
      (forall k, PrisjaktAPI.cacheGet k c <> None ->
                 PrisjaktAPI.cacheGet k c' <> None) /\
      List.length c <= List.length c' <= S (List.length c) /\
      (NoDup (map fst c) -> NoDup (map fst c')) in
    kept (snd (PrisjaktAPI.searchRAM apiKey moduleNumber now later c)) /\
    kept (snd (PrisjaktAPI.searchRAMBySpecs apiKey vendor size speed now later c)).
Proof.
  intros H E apiKey moduleNumber vendor size speed now later c. cbv zeta.
  split; apply CacheFacts.cachedSearch_grows.
Qed.
